(** * Anonymous-routing topology model (route.py)

    A shallow embedding of [route.py] and of the parts of networkx and of
    Python's [random] module that it calls.

    - A networkx [Graph] is the pair of dictionaries networkx keeps:
      [_node] (node -> attribute dict) and [_adj] (node -> neighbour ->
      attribute dict of the edge).  Dictionaries are finite maps; the
      iteration order of a Python dict is not modelled, which is sound here
      because the only consumers of [list(G.nodes)] and [list(G.edges)] are
      [random.sample] (any position may be drawn) and [draw_topology] (one
      colour per entry), and the properties below are about sets and
      counts.
    - Graph objects live in a store and are handled through references, so
      that [G.copy()] followed by in-place removal is visibly different from
      mutating [G].
    - Randomness is an explicit tape of draws threaded through the state.
    - [hide_ratio] is an exact rational; [int(.)] truncates toward zero.  The
      rounding of the binary64 product [hide_ratio * n] is not modelled.
    - Python's [ValueError] is what the specification calls InvalidArgument,
      [KeyError] is what it calls NotFound. *)

From Stdlib Require Import QArith Qround.
From stdpp Require Import gmap strings list fin_maps fin_sets.

#[local] Set Warnings "-clear-no-such-hyp".
Open Scope nat_scope.

(** ** networkx graph objects, as values *)

Module graph.

Abbreviation attrs := (gmap string bool).
Abbreviation edge := (nat * nat)%type.

Record Graph := mkGraph {
  _node : gmap nat attrs;
  _adj : gmap nat (gmap nat attrs)
}.

(** [nx.Graph()] *)
Definition empty : Graph := {| _node := ∅; _adj := ∅ |}.

(** [n in G] *)
Definition has_node (G : Graph) (n : nat) : bool :=
  match _node G !! n with Some _ => true | None => false end.

(** [G.has_edge(u, v)]: [v in self._adj[u]], [False] on [KeyError]. *)
Definition has_edge (G : Graph) (u v : nat) : bool :=
  match _adj G !! u with
  | Some nbrs => match nbrs !! v with Some _ => true | None => false end
  | None => false
  end.

(** [G.nodes[n]] and [G.edges[u, v]]: the attribute dict, if present. *)
Definition node_attrs (G : Graph) (n : nat) : option attrs := _node G !! n.
Definition edge_attrs (G : Graph) (u v : nat) : option attrs :=
  nbrs ← _adj G !! u; nbrs !! v.

(** One step of [add_nodes_from] for a plain node: a new node gets empty
    dictionaries, an existing one is left alone. *)
Definition add_node (n : nat) (G : Graph) : Graph :=
  match _node G !! n with
  | None => {| _node := <[n := ∅]> (_node G); _adj := <[n := ∅]> (_adj G) |}
  | Some _ => G
  end.

(** One step of [add_edges_from] for a 2-tuple: both endpoints are added when
    absent, the edge keeps its attribute dict when it exists, and the same
    dict is stored under [adj[u][v]] and [adj[v][u]]. *)
Definition add_edge (u v : nat) (G : Graph) : Graph :=
  let G' := add_node v (add_node u G) in
  let datadict := default ∅ (edge_attrs G' u v) in
  {| _node := _node G';
     _adj := alter (insert u datadict) v (alter (insert v datadict) u (_adj G')) |}.

(** One step of [remove_nodes_from]:
    [del _node[n]; for u in list(adj[n]): del adj[u][n]; del adj[n]],
    with the [KeyError] of an absent node swallowed. *)
Definition remove_node (n : nat) (G : Graph) : Graph :=
  match _node G !! n with
  | None => G
  | Some _ =>
      let nbrs := (map_to_list (default ∅ (_adj G !! n))).*1 in
      {| _node := delete n (_node G);
         _adj := delete n (foldr (λ u adj, alter (delete n) u adj) (_adj G) nbrs) |}
  end.

(** One step of [remove_edges_from]:
    [if u in adj and v in adj[u]: del adj[u][v]; if u != v: del adj[v][u]]. *)
Definition remove_edge (e : edge) (G : Graph) : Graph :=
  let '(u, v) := e in
  if has_edge G u v then
    {| _node := _node G;
       _adj := (if decide (u = v) then id else alter (delete u) v)
                 (alter (delete v) u (_adj G)) |}
  else G.

Definition add_nodes_from (ns : list nat) (G : Graph) : Graph :=
  foldl (λ G n, add_node n G) G ns.
Definition add_edges_from (es : list edge) (G : Graph) : Graph :=
  foldl (λ G e, add_edge e.1 e.2 G) G es.
Definition remove_nodes_from (ns : list nat) (G : Graph) : Graph :=
  foldl (λ G n, remove_node n G) G ns.
Definition remove_edges_from (es : list edge) (G : Graph) : Graph :=
  foldl (λ G e, remove_edge e G) G es.

(** [list(G.nodes)], [G.number_of_nodes()] *)
Definition nodes (G : Graph) : list nat := (map_to_list (_node G)).*1.
Definition number_of_nodes (G : Graph) : nat := size (_node G).

(** [list(G.edges)]: every node reports the neighbours that have not been
    visited before it, so each undirected edge is reported once. *)
Fixpoint edges_from (l : list (nat * gmap nat attrs)) (seen : gset nat) : list edge :=
  match l with
  | [] => []
  | (n, nbrs) :: l' =>
      ((λ nbr, (n, nbr)) <$> filter (λ nbr, nbr ∉ seen) (map_to_list nbrs).*1)
      ++ edges_from l' ({[n]} ∪ seen)
  end.
Definition edges (G : Graph) : list edge := edges_from (map_to_list (_adj G)) ∅.

(** [G.degree]: a self-loop counts twice.  [G.number_of_edges()] is
    [G.size()], half the sum of the degrees. *)
Definition degree (n : nat) (nbrs : gmap nat attrs) : nat :=
  size nbrs + (if nbrs !! n is Some _ then 1 else 0).
Definition number_of_edges (G : Graph) : nat :=
  sum_list ((λ p, degree p.1 p.2) <$> map_to_list (_adj G)) / 2.

(** [G.nodes[n][key] = val]; [None] stands for the [KeyError] of an
    absent node. *)
Definition set_node_attr (n : nat) (key : string) (val : bool) (G : Graph) : option Graph :=
  match _node G !! n with
  | Some d => Some {| _node := <[n := <[key := val]> d]> (_node G); _adj := _adj G |}
  | None => None
  end.

(** [G.edges[u, v][key] = val]: [self._adj[u][v]] is looked up
    ([KeyError] when absent); the dict found is the one object stored under
    both orientations, so the write shows under both. *)
Definition set_edge_attr (e : edge) (key : string) (val : bool) (G : Graph) : option Graph :=
  let '(u, v) := e in
  match edge_attrs G u v with
  | Some d =>
      let d' := <[key := val]> d in
      Some {| _node := _node G;
              _adj := alter (insert u d') v (alter (insert v d') u (_adj G)) |}
  | None => None
  end.

(** What networkx maintains: [_adj] has exactly the nodes of [_node] as keys
    and is symmetric, with the same attribute dict in both directions. *)
Definition wf (G : Graph) : Prop :=
  dom (_adj G) = dom (_node G) ∧
  ∀ u v, edge_attrs G u v = edge_attrs G v u.

(** Every ordered pair [(u, nbr)] of the adjacency, and the self-loops, as the
    degree sum counts them. *)
Definition arcs (l : list (nat * gmap nat attrs)) : list edge :=
  l ≫= λ p, (λ nbr, (p.1, nbr)) <$> (map_to_list p.2).*1.
Definition loops (l : list (nat * gmap nat attrs)) : list edge :=
  l ≫= λ p, if p.2 !! p.1 is Some _ then [(p.1, p.1)] else [].

(** An undirected edge written with its smaller endpoint first. *)
Definition norm (e : edge) : edge := (e.1 `min` e.2, e.1 `max` e.2).

(** The nodes that occur as an endpoint in a list of edges. *)
Definition endpoints (es : list edge) : list nat := es ≫= λ e, [e.1; e.2].

(** [wf], as a check that can be run: symmetry only needs to be looked at
    on the entries of [_adj]. *)
Definition wfb (G : Graph) : bool :=
  bool_decide (dom (_adj G) = dom (_node G))
  && bool_decide (map_Forall (λ u nbrs,
                    map_Forall (λ v d, edge_attrs G v u = Some d) nbrs) (_adj G)).

(** ['hidden'] is set on a node / an edge. *)
Definition node_hidden (G : Graph) (n : nat) : bool :=
  match node_attrs G n with Some d => bool_decide (d !! "hidden" = Some true) | None => false end.
Definition edge_hidden (G : Graph) (u v : nat) : bool :=
  match edge_attrs G u v with Some d => bool_decide (d !! "hidden" = Some true) | None => false end.

End graph.

(** ** The interpreter state: a store of graph objects and a tape of draws *)

Abbreviation ref := nat.

Inductive exn := ValueError | KeyError | IndexError.

Record state := mkState {
  heap : list graph.Graph;
  rng : nat → nat
}.

(** [OutOfFuel]: a loop was cut off by the fuel bound.  [Dangling]: a
    reference to no object, which Python cannot produce. *)
Inductive result (A : Type) :=
  | Ok (a : A) (s : state)
  | Raise (e : exn)
  | OutOfFuel
  | Dangling.
Arguments Ok {A} a s.
Arguments Raise {A} e.
Arguments OutOfFuel {A}.
Arguments Dangling {A}.

Definition M (A : Type) : Type := state → result A.

#[export] Instance M_ret : MRet M := λ A a s, Ok a s.
#[export] Instance M_bind : MBind M := λ A B f m s,
  match m s with
  | Ok a s' => f a s'
  | Raise e => Raise e
  | OutOfFuel => OutOfFuel
  | Dangling => Dangling
  end.

Definition raise {A} (e : exn) : M A := λ _, Raise e.
Definition out_of_fuel {A} : M A := λ _, OutOfFuel.

Definition deref (r : ref) : M graph.Graph := λ s,
  match heap s !! r with Some g => Ok g s | None => Dangling end.

Definition alloc (g : graph.Graph) : M ref := λ s,
  Ok (length (heap s)) {| heap := heap s ++ [g]; rng := rng s |}.

(** In-place mutation of the object behind [r]. *)
Definition mutate (r : ref) (f : graph.Graph → graph.Graph) : M () := λ s,
  match heap s !! r with
  | Some g => Ok () {| heap := <[r := f g]> (heap s); rng := rng s |}
  | None => Dangling
  end.

(** In-place mutation that may raise [KeyError]. *)
Definition mutate_or_KeyError (r : ref) (f : graph.Graph → option graph.Graph) : M () := λ s,
  match heap s !! r with
  | Some g =>
      match f g with
      | Some g' => Ok () {| heap := <[r := g']> (heap s); rng := rng s |}
      | None => Raise KeyError
      end
  | None => Dangling
  end.

Fixpoint for_each {A} (l : list A) (body : A → M ()) : M () :=
  match l with
  | [] => mret ()
  | x :: l' => body x;; for_each l' body
  end.

(** ** Python's [random] module *)

Module random.

(** [_randbelow(n)]: the next draw of the tape, reduced below [n]; [0] for
    [n = 0]. *)
Definition randbelow (n : nat) : M nat := λ s,
  Ok (if n is 0 then 0 else rng s 0 mod n)
     {| heap := heap s; rng := λ i, rng s (S i) |}.

(** [random.choice(seq)] *)
Definition choice {A} (seq : list A) : M A :=
  if length seq is 0 then raise IndexError
  else j ← randbelow (length seq);
       match seq !! j with Some x => mret x | None => raise IndexError end.

(** [random.sample]'s selection loop over a pool:
    [j = randbelow(n - i); result[i] = pool[j]; pool[j] = pool[n - i - 1]].
    The pool argument is the live prefix [pool[0 : n - i]]. *)
Fixpoint sample_pool {A} (pool : list A) (k : nat) : M (list A) :=
  match k with
  | 0 => mret []
  | S k' =>
      let n := length pool in
      j ← randbelow n;
      match pool !! j, pool !! (n - 1) with
      | Some x, Some y =>
          result ← sample_pool (take (n - 1) (<[j := y]> pool)) k';
          mret (x :: result)
      | _, _ => raise IndexError
      end
  end.

(** [random.sample(population, k)]: [ValueError] unless [0 <= k <= n]. *)
Definition sample {A} (population : list A) (k : Z) : M (list A) :=
  if bool_decide (0 ≤ k ≤ Z.of_nat (length population))%Z
  then sample_pool population (Z.to_nat k)
  else raise ValueError.

End random.

(** [int(x)] on a number: truncation toward zero. *)
Definition int (x : Q) : Z := (Qnum x ÷ Zpos (Qden x))%Z.

(** [ratio * n] for a count [n]. *)
Definition scale (ratio : Q) (n : nat) : Q := (ratio * inject_Z (Z.of_nat n))%Q.

(** ** networkx methods on graph objects *)

Module nx.

Definition copy (G : ref) : M ref := g ← deref G; alloc g.

Definition nodes (G : ref) : M (list nat) := g ← deref G; mret (graph.nodes g).
Definition edges (G : ref) : M (list graph.edge) := g ← deref G; mret (graph.edges g).
Definition number_of_nodes (G : ref) : M nat := g ← deref G; mret (graph.number_of_nodes g).
Definition number_of_edges (G : ref) : M nat := g ← deref G; mret (graph.number_of_edges g).
Definition has_edge (G : ref) (u v : nat) : M bool := g ← deref G; mret (graph.has_edge g u v).

Definition add_nodes_from (G : ref) (ns : list nat) : M () :=
  mutate G (graph.add_nodes_from ns).
Definition add_edges_from (G : ref) (es : list graph.edge) : M () :=
  mutate G (graph.add_edges_from es).
Definition add_edge (G : ref) (u v : nat) : M () :=
  mutate G (graph.add_edge u v).
Definition remove_nodes_from (G : ref) (ns : list nat) : M () :=
  mutate G (graph.remove_nodes_from ns).
Definition remove_edges_from (G : ref) (es : list graph.edge) : M () :=
  mutate G (graph.remove_edges_from es).

(** [G.nodes[n][key] = val] and [G.edges[e][key] = val] *)
Definition set_node_attr (G : ref) (n : nat) (key : string) (val : bool) : M () :=
  mutate_or_KeyError G (graph.set_node_attr n key val).
Definition set_edge_attr (G : ref) (e : graph.edge) (key : string) (val : bool) : M () :=
  mutate_or_KeyError G (graph.set_edge_attr e key val).

(** [itertools.combinations(l, 2)] *)
Fixpoint combinations2 {A} (l : list A) : list (A * A) :=
  match l with
  | [] => []
  | x :: l' => ((λ y, (x, y)) <$> l') ++ combinations2 l'
  end.

(** [nx.empty_graph(n)]: nodes [0 .. n-1], no edge. *)
Definition empty_graph (n : nat) : M ref :=
  G ← alloc graph.empty;
  add_nodes_from G (seq 0 n);;
  mret G.

(** [nx.complete_graph(n)] *)
Definition complete_graph (n : nat) : M ref :=
  G ← empty_graph n;
  (if 1 <? n then add_edges_from G (combinations2 (seq 0 n)) else mret ());;
  mret G.

(** The rejection loop of [gnm_random_graph]:
    [while edge_count < m: u = choice(nlist); v = choice(nlist);
     if u == v or G.has_edge(u, v): continue
     else: G.add_edge(u, v); edge_count += 1]. *)
Fixpoint gnm_loop (fuel : nat) (G : ref) (nlist : list nat) (m edge_count : nat) : M () :=
  if edge_count <? m then
    match fuel with
    | 0 => out_of_fuel
    | S fuel' =>
        u ← random.choice nlist;
        v ← random.choice nlist;
        present ← has_edge G u v;
        if (u =? v) || present then gnm_loop fuel' G nlist m edge_count
        else add_edge G u v;; gnm_loop fuel' G nlist m (S edge_count)
    end
  else mret ().

(** [nx.gnm_random_graph(n, m)] for an undirected graph: one node gives the
    edgeless graph, [m >= n(n-1)/2] gives the complete graph, otherwise random
    pairs are drawn until [m] new edges have been added. *)
Definition gnm_random_graph (fuel : nat) (n m : nat) : M ref :=
  if n =? 1 then empty_graph n
  else if n * (n - 1) / 2 <=? m then complete_graph n
  else
    G ← empty_graph n;
    nlist ← nodes G;
    gnm_loop fuel G nlist m 0;;
    mret G.

End nx.

(** ** route.py *)

Definition create_random_topology (fuel : nat) (num_nodes num_edges : nat) : M ref :=
  G ← nx.gnm_random_graph fuel num_nodes num_edges;
  mret G.

Definition apply_anonymous_routing (G : ref) (hide_ratio : Q)
  : M (ref * list nat * list graph.edge) :=
  G_anonymous ← nx.copy G;
  G_nodes ← nx.nodes G;
  n ← nx.number_of_nodes G;
  nodes_to_hide ← random.sample G_nodes (int (scale hide_ratio n));
  let hidden_nodes := nodes_to_hide in
  nx.remove_nodes_from G_anonymous nodes_to_hide;;
  G_edges ← nx.edges G;
  m ← nx.number_of_edges G;
  edges_to_hide ← random.sample G_edges (int (scale hide_ratio m));
  let hidden_edges := edges_to_hide in
  nx.remove_edges_from G_anonymous edges_to_hide;;
  mret (G_anonymous, hidden_nodes, hidden_edges).

Definition mark_anonymous_routes (G : ref) (hidden_nodes : list nat)
    (hidden_edges : list graph.edge) : M ref :=
  G_marked ← nx.copy G;
  for_each hidden_nodes (λ node, nx.set_node_attr G_marked node "hidden" true);;
  for_each hidden_edges (λ edge, nx.set_edge_attr G_marked edge "hidden" true);;
  mret G_marked.

Definition restore_topology (G_anonymous : ref) (hidden_nodes : list nat)
    (hidden_edges : list graph.edge) : M ref :=
  G_restored ← nx.copy G_anonymous;
  nx.add_nodes_from G_restored hidden_nodes;;
  nx.add_edges_from G_restored hidden_edges;;
  mret G_restored.

(** [draw_topology]: the two colour lists it builds and hands, with the
    title, to the plotting calls.  The layout ([nx.spring_layout]) and the
    calls into matplotlib are not modelled; an omitted list is [None]. *)
Record plot := mkPlot {
  plot_title : string;
  node_color : list string;
  edge_color : list string
}.

(** [hidden and x in hidden]: [None] and the empty list are falsy. *)
Definition listed {A} `{EqDecision A} (hidden : option (list A)) (x : A) : bool :=
  match hidden with
  | Some (y :: l) => bool_decide (x ∈ y :: l)
  | _ => false
  end.

Definition draw_topology (G : ref) (title : string)
    (hidden_nodes : option (list nat)) (hidden_edges : option (list graph.edge)) : M plot :=
  G_nodes ← nx.nodes G;
  let node_colors :=
    (λ node, if listed hidden_nodes node then "red" else "lightblue") <$> G_nodes in
  G_edges ← nx.edges G;
  let edge_colors :=
    (λ edge, if listed hidden_edges edge then "red" else "gray") <$> G_edges in
  mret {| plot_title := title; node_color := node_colors; edge_color := edge_colors |}.

(** The [__main__] block, without the drawing calls. *)
Definition main (fuel : nat) : M (ref * ref * ref * ref) :=
  let num_nodes := 20 in
  let num_edges := 30 in
  G ← create_random_topology fuel num_nodes num_edges;
  let hide_ratio := 3 # 10 in
  '(G_anonymous, hidden_nodes, hidden_edges) ← apply_anonymous_routing G hide_ratio;
  G_marked ← mark_anonymous_routes G hidden_nodes hidden_edges;
  G_restored ← restore_topology G_anonymous hidden_nodes hidden_edges;
  mret (G, G_anonymous, G_marked, G_restored).

(** The [__main__] block as it is: the four figures it shows, in order. *)
Definition main_figures (fuel : nat) : M (list plot) :=
  let num_nodes := 20 in
  let num_edges := 30 in
  G ← create_random_topology fuel num_nodes num_edges;
  p1 ← draw_topology G "Original Topology" None None;
  let hide_ratio := 3 # 10 in
  '(G_anonymous, hidden_nodes, hidden_edges) ← apply_anonymous_routing G hide_ratio;
  p2 ← draw_topology G_anonymous "Topology After Anonymous Routing (Hide Ratio: 0.3)"
         None None;
  G_marked ← mark_anonymous_routes G hidden_nodes hidden_edges;
  p3 ← draw_topology G_marked "Topology with Marked Anonymous Routes"
         (Some hidden_nodes) (Some hidden_edges);
  G_restored ← restore_topology G_anonymous hidden_nodes hidden_edges;
  p4 ← draw_topology G_restored "Restored Topology" None None;
  mret [p1; p2; p3; p4].

(** ** Sample inputs *)

(** The graph with the single edge [0 - 1]. *)
Definition single_edge : graph.Graph := graph.add_edge 0 1 graph.empty.

(** A state holding that graph as its only object. *)
Definition one_edge_state : state := {| heap := [single_edge]; rng := λ _, 0 |}.

(** Node [0] alone, already carrying ['hidden'] = [True]: what
    [mark_anonymous_routes] returns for the one-node graph and [[0]]. *)
Definition premarked : graph.Graph :=
  {| graph._node := {[0 := {["hidden" := true]}]}; graph._adj := {[0 := ∅]} |}.

(** A tape whose consecutive pairs of draws are pairwise different node
    pairs, so that [gnm_random_graph(20, 30)] never rejects a draw. *)
Definition spread_tape (i : nat) : nat := (i / 2) mod 20 + (i mod 2) * (1 + i / 40).

(** The graph values that [nx.empty_graph(n)] and [nx.complete_graph(n)]
    build. *)
Definition edgeless (n : nat) : graph.Graph := graph.add_nodes_from (seq 0 n) graph.empty.
Definition complete (n : nat) : graph.Graph :=
  if 1 <? n then graph.add_edges_from (nx.combinations2 (seq 0 n)) (edgeless n)
  else edgeless n.

(** What the rejection loop of [gnm_random_graph] maintains: a well-formed
    graph on the nodes [0 .. n-1] with [c] edges and no self-loop. *)
Definition gnm_inv (n c : nat) (g : graph.Graph) : Prop :=
  graph.wf g
  ∧ (∀ k, is_Some (graph.node_attrs g k) ↔ k < n)
  ∧ (∀ a, graph.edge_attrs g a a = None)
  ∧ length (graph.edges g) = c.

(** A graph none of whose nodes and edges carries an attribute. *)
Definition attribute_free (g : graph.Graph) : Prop :=
  (∀ n d, graph.node_attrs g n = Some d → d = ∅)
  ∧ (∀ u v d, graph.edge_attrs g u v = Some d → d = ∅).

(** The tape of [s] begins with the draws [draws]. *)
Definition tape_starts_with (draws : list nat) (s : state) : Prop :=
  ∀ i d, draws !! i = Some d → rng s i = d.

(** From a loop state [(g, c)], and whatever the next draws [ds] are, some
    continuation [draws] of the tape makes the loop return. *)
Definition can_return (n m : nat) (nlist : list nat)
    (ds : list nat) (c : nat) (g : graph.Graph) : Prop :=
  ∃ draws fuel, ∀ G s,
    heap s !! G = Some g → tape_starts_with (ds ++ draws) s →
    ∃ g' t, nx.gnm_loop fuel G nlist m c s
            = Ok () {| heap := <[G := g']> (heap s); rng := t |}
            ∧ gnm_inv n m g'.

(** What a run leaves behind, as node and edge counts of an object. *)
Definition counts (s : state) (G : ref) : option (nat * nat) :=
  g ← heap s !! G; Some (graph.number_of_nodes g, graph.number_of_edges g).

(** * Properties *)

(** ** Graph values *)

(** Case analysis on every [decide] of the goal. *)
Ltac by_cases :=
  repeat match goal with
         | |- context [decide ?P] => destruct (decide P)
         end;
  simplify_eq; simpl; try done; try (exfalso; intuition congruence).

Section graph_facts.
Import graph.

Implicit Types (G : Graph) (n u v a b k : nat) (adj : gmap nat (gmap nat attrs)).

Lemma has_node_attrs G n : has_node G n = true ↔ is_Some (node_attrs G n).
Proof.
  unfold has_node, node_attrs. destruct (_node G !! n); split; try done; by intros [? ?].
Qed.

Lemma has_edge_attrs G u v : has_edge G u v = true ↔ is_Some (edge_attrs G u v).
Proof.
  unfold has_edge, edge_attrs. destruct (_adj G !! u) as [nbrs|]; simpl.
  - destruct (nbrs !! v); split; try done; by intros [? ?].
  - split; [done | by intros [? ?]].
Qed.

Lemma has_edge_None G u v : has_edge G u v = false ↔ edge_attrs G u v = None.
Proof.
  unfold has_edge, edge_attrs. destruct (_adj G !! u) as [nbrs|]; simpl; [|done].
  by destruct (nbrs !! v).
Qed.

Lemma wf_adj_node G n : wf G → is_Some (_adj G !! n) ↔ is_Some (_node G !! n).
Proof. intros [Hd _]. by rewrite <- !elem_of_dom, Hd. Qed.

Lemma wf_adj_None G n : wf G → _node G !! n = None → _adj G !! n = None.
Proof.
  intros Hwf Hn. apply eq_None_not_Some. rewrite (wf_adj_node _ _ Hwf), Hn.
  by intros [? ?].
Qed.

Lemma wf_sym G u v : wf G → edge_attrs G u v = edge_attrs G v u.
Proof. by intros [_ Hs]. Qed.

Lemma has_edge_sym G u v : wf G → has_edge G u v = has_edge G v u.
Proof.
  intros Hwf. apply eq_true_iff_eq. by rewrite !has_edge_attrs, (wf_sym _ _ _ Hwf).
Qed.

(** An edge joins nodes of the graph. *)
Lemma edge_attrs_node_l G u v : wf G → is_Some (edge_attrs G u v) → is_Some (node_attrs G u).
Proof.
  intros Hwf [d Hd]. apply (wf_adj_node _ _ Hwf). unfold edge_attrs in Hd.
  destruct (_adj G !! u); [by eauto | done].
Qed.

Lemma edge_attrs_node_r G u v : wf G → is_Some (edge_attrs G u v) → is_Some (node_attrs G v).
Proof. intros Hwf. rewrite (wf_sym _ _ _ Hwf). by apply edge_attrs_node_l. Qed.

Lemma wfb_wf G : wfb G = true → wf G.
Proof.
  unfold wfb. intros [Hdom Hsym]%andb_prop.
  apply bool_decide_eq_true_1 in Hdom. apply bool_decide_eq_true_1 in Hsym.
  assert (∀ u v d, edge_attrs G u v = Some d → edge_attrs G v u = Some d) as Hhalf.
  { intros u v d Huv. unfold edge_attrs in Huv.
    destruct (_adj G !! u) as [nbrs|] eqn:Hu; [|done]. simpl in Huv.
    by apply (Hsym u nbrs Hu v d). }
  split; [done|]. intros u v.
  destruct (edge_attrs G u v) as [d|] eqn:Huv; [symmetry; by apply Hhalf|].
  destruct (edge_attrs G v u) as [d|] eqn:Hvu; [|done].
  apply Hhalf in Hvu. congruence.
Qed.

Lemma wf_empty : wf empty.
Proof. split; [done | intros u v; unfold edge_attrs; simpl; by rewrite !lookup_empty]. Qed.

Lemma edge_attrs_eq G u v : edge_attrs G u v = _adj G !! u ≫= lookup v.
Proof. done. Qed.

Lemma node_attrs_add_node G n k :
  node_attrs (add_node n G) k
  = if decide (k = n) then Some (default ∅ (node_attrs G n)) else node_attrs G k.
Proof.
  unfold add_node, node_attrs. destruct (_node G !! n) as [d|] eqn:Hn; simpl.
  - case_decide; by subst.
  - rewrite lookup_insert. repeat case_decide; by subst.
Qed.

Lemma edge_attrs_add_node G n a b :
  wf G → edge_attrs (add_node n G) a b = edge_attrs G a b.
Proof.
  intros Hwf. unfold add_node. destruct (_node G !! n) as [d|] eqn:Hn; [done|].
  unfold edge_attrs; simpl. rewrite lookup_insert. case_decide; [|done]. subst.
  by rewrite (wf_adj_None _ _ Hwf Hn).
Qed.

Lemma wf_add_node G n : wf G → wf (add_node n G).
Proof.
  intros Hwf. split.
  - unfold add_node. destruct (_node G !! n); [by apply Hwf|]. simpl.
    rewrite !dom_insert_L. by destruct Hwf as [-> _].
  - intros u v. rewrite !edge_attrs_add_node by done. by apply wf_sym.
Qed.

(** Storing [d] under both orientations of the pair [u, v]. *)
Lemma lookup_alter_pair adj u v d a b :
  is_Some (adj !! u) → is_Some (adj !! v) →
  (alter (insert u d) v (alter (insert v d) u adj) !! a) ≫= (.!! b)
  = if decide ((a = u ∧ b = v) ∨ (a = v ∧ b = u)) then Some d else (adj !! a) ≫= (.!! b).
Proof.
  intros [x Hx] [y Hy]. rewrite !lookup_alter.
  destruct (decide (v = a)) as [->|Hva], (decide (u = a)) as [->|Hua]; simpl;
    rewrite ?Hx, ?Hy; simpl; rewrite ?lookup_insert;
    destruct (decide (a = b)) as [->|Hab]; try destruct (decide (u = b)) as [->|Hub];
    try destruct (decide (v = b)) as [->|Hvb];
    try (rewrite decide_True by intuition congruence);
    try (rewrite decide_False by intuition congruence);
    done.
Qed.

Lemma node_attrs_add_edge G u v k :
  node_attrs (add_edge u v G) k
  = if decide (k = u ∨ k = v) then Some (default ∅ (node_attrs G k)) else node_attrs G k.
Proof.
  unfold add_edge.
  change (node_attrs (add_node v (add_node u G)) k
          = if decide (k = u ∨ k = v) then Some (default ∅ (node_attrs G k)) else node_attrs G k).
  rewrite !node_attrs_add_node.
  by_cases.

Qed.

Lemma add_node_adj_is_Some G n k :
  wf G → is_Some (_adj (add_node n G) !! k) ↔ k = n ∨ is_Some (_adj G !! k).
Proof.
  intros Hwf. rewrite (wf_adj_node _ _ (wf_add_node _ n Hwf)), (wf_adj_node _ _ Hwf).
  fold (node_attrs (add_node n G) k). rewrite node_attrs_add_node.
  destruct (decide (k = n)); [|by intuition]. split; [by left | by eauto].
Qed.

Lemma edge_attrs_add_edge G u v a b :
  wf G →
  edge_attrs (add_edge u v G) a b
  = if decide ((a = u ∧ b = v) ∨ (a = v ∧ b = u))
    then Some (default ∅ (edge_attrs G u v)) else edge_attrs G a b.
Proof.
  intros Hwf. pose proof (wf_add_node _ u Hwf) as Hwf1.
  unfold add_edge, edge_attrs at 1; simpl. rewrite lookup_alter_pair.
  - rewrite <- edge_attrs_eq. by rewrite !edge_attrs_add_node.
  - apply add_node_adj_is_Some; [done|]. right. apply add_node_adj_is_Some; auto.
  - apply add_node_adj_is_Some; auto.
Qed.

Lemma wf_add_edge G u v : wf G → wf (add_edge u v G).
Proof.
  intros Hwf. split.
  - unfold add_edge; simpl. rewrite !dom_alter_L.
    by apply wf_add_node, wf_add_node.
  - intros a b. rewrite !edge_attrs_add_edge by done.
    destruct (decide ((a = u ∧ b = v) ∨ (a = v ∧ b = u))).
    + by rewrite decide_True by intuition.
    + rewrite decide_False by intuition. by apply wf_sym.
Qed.

Lemma node_attrs_remove_edge G e k : node_attrs (remove_edge e G) k = node_attrs G k.
Proof. destruct e as [u v]. unfold remove_edge. by destruct (has_edge G u v). Qed.

Lemma edge_attrs_remove_edge G u v a b :
  wf G →
  edge_attrs (remove_edge (u, v) G) a b
  = if decide ((a = u ∧ b = v) ∨ (a = v ∧ b = u)) then None else edge_attrs G a b.
Proof.
  intros Hwf. unfold remove_edge. destruct (has_edge G u v) eqn:He.
  - unfold edge_attrs; simpl.
    destruct (decide (u = v)) as [->|Huv]; simpl; rewrite !lookup_alter.
    + destruct (decide (v = a)) as [->|Hva].
      * destruct (_adj G !! a) as [nbrs|]; simpl; [|by case_decide].
        rewrite lookup_delete.
        destruct (decide (a = b)) as [->|Hab];
          [by rewrite decide_True by auto | by rewrite decide_False by intuition congruence].
      * by rewrite decide_False by intuition congruence.
    + destruct (decide (v = a)) as [->|Hva], (decide (u = a)) as [->|Hua]; try congruence.
      * destruct (_adj G !! a) as [nbrs|]; simpl; [|by case_decide].
        rewrite lookup_delete.
        destruct (decide (u = b)) as [->|Hub];
          [by rewrite decide_True by auto | by rewrite decide_False by intuition congruence].
      * destruct (_adj G !! a) as [nbrs|]; simpl; [|by case_decide].
        rewrite lookup_delete.
        destruct (decide (v = b)) as [->|Hub];
          [by rewrite decide_True by auto | by rewrite decide_False by intuition congruence].
      * by rewrite decide_False by intuition congruence.
  - apply has_edge_None in He.
    destruct (decide ((a = u ∧ b = v) ∨ (a = v ∧ b = u))) as [[[-> ->]|[-> ->]]|]; try done.
    by rewrite (wf_sym _ _ _ Hwf).
Qed.

Lemma wf_remove_edge G e : wf G → wf (remove_edge e G).
Proof.
  intros Hwf. destruct e as [u v]. split.
  - unfold remove_edge. destruct (has_edge G u v); [|by apply Hwf]. simpl.
    destruct (decide (u = v)); simpl; rewrite ?dom_alter_L; by apply Hwf.
  - intros a b. rewrite !edge_attrs_remove_edge by done.
    destruct (decide ((a = u ∧ b = v) ∨ (a = v ∧ b = u))).
    + by rewrite decide_True by intuition.
    + rewrite decide_False by intuition. by apply wf_sym.
Qed.

(** The inner loop of [remove_node]. *)
Lemma lookup_foldr_alter {A} (f : A → A) (l : list nat) (m : gmap nat A) k :
  (∀ x, f (f x) = f x) →
  foldr (λ u m, alter f u m) m l !! k
  = if decide (k ∈ l) then f <$> m !! k else m !! k.
Proof.
  intros Hf. induction l as [|x l IH]; [done|].
  cbn [foldr]. rewrite lookup_alter.
  destruct (decide (x = k)) as [->|Hx]; rewrite IH.
  - rewrite (decide_True (P := k ∈ k :: l)) by left.
    destruct (decide (k ∈ l)); [|done]. destruct (m !! k); simpl; by rewrite ?Hf.
  - destruct (decide (k ∈ l)), (decide (k ∈ x :: l)); try done; exfalso; set_solver.
Qed.

Lemma node_attrs_remove_node G n k :
  node_attrs (remove_node n G) k = if decide (k = n) then None else node_attrs G k.
Proof.
  unfold remove_node, node_attrs. destruct (_node G !! n) eqn:Hn; simpl.
  - rewrite lookup_delete. destruct (decide (n = k)), (decide (k = n)); congruence.
  - case_decide; by subst.
Qed.

Lemma edge_attrs_remove_node G n a b :
  wf G →
  edge_attrs (remove_node n G) a b
  = if decide (a = n ∨ b = n) then None else edge_attrs G a b.
Proof.
  intros Hwf. unfold remove_node. destruct (_node G !! n) eqn:Hn.
  - unfold edge_attrs at 1; simpl. rewrite lookup_delete.
    destruct (decide (n = a)) as [->|Hna]; [by rewrite decide_True by auto|].
    rewrite lookup_foldr_alter by (intros; apply delete_delete_eq).
    destruct (decide (b = n)) as [->|Hbn].
    + rewrite (decide_True (P := a = n ∨ n = n)) by auto.
      destruct (decide (a ∈ _)) as [Hin|Hin].
      * destruct (_adj G !! a); simpl; [apply lookup_delete_eq|done].
      * fold (edge_attrs G a n). rewrite (wf_sym _ _ _ Hwf).
        apply eq_None_not_Some. intros [d Hd]. apply Hin.
        unfold edge_attrs in Hd. destruct (_adj G !! n) as [nbrs|]; [|done]. simpl in *.
        apply list_elem_of_fmap. exists (a, d). split; [done|].
        by apply elem_of_map_to_list.
    + rewrite (decide_False (P := a = n ∨ b = n)) by intuition congruence.
      destruct (decide (a ∈ _)); [|done].
      unfold edge_attrs. destruct (_adj G !! a); simpl; [|done].
      by rewrite lookup_delete_ne.
  - destruct (decide (a = n ∨ b = n)) as [[->| ->]|]; [| |done].
    + unfold edge_attrs. by rewrite (wf_adj_None _ _ Hwf Hn).
    + rewrite (wf_sym _ _ _ Hwf). unfold edge_attrs. by rewrite (wf_adj_None _ _ Hwf Hn).
Qed.

Lemma dom_foldr_alter {A} (f : A → A) (l : list nat) (m : gmap nat A) :
  dom (foldr (λ u m, alter f u m) m l) = dom m.
Proof. induction l as [|x l IH]; simpl; [done|]. by rewrite dom_alter_L. Qed.

Lemma wf_remove_node G n : wf G → wf (remove_node n G).
Proof.
  intros Hwf. split.
  - unfold remove_node. destruct (_node G !! n); [|by apply Hwf]. simpl.
    rewrite !dom_delete_L, dom_foldr_alter. by destruct Hwf as [-> _].
  - intros a b. rewrite !edge_attrs_remove_node by done.
    destruct (decide (a = n ∨ b = n)).
    + by rewrite decide_True by intuition.
    + rewrite decide_False by intuition. by apply wf_sym.
Qed.

End graph_facts.

Section graph_folds.
Import graph.
Implicit Types (G : Graph) (n u v a b k : nat) (ns : list nat) (es : list edge).

Lemma wf_add_nodes_from ns G : wf G → wf (add_nodes_from ns G).
Proof.
  unfold add_nodes_from. revert G. induction ns as [|n ns IH]; intros G Hwf; [done|].
  by apply IH, wf_add_node.
Qed.

Lemma wf_add_edges_from es G : wf G → wf (add_edges_from es G).
Proof.
  unfold add_edges_from. revert G. induction es as [|e es IH]; intros G Hwf; [done|].
  by apply IH, wf_add_edge.
Qed.

Lemma wf_remove_nodes_from ns G : wf G → wf (remove_nodes_from ns G).
Proof.
  unfold remove_nodes_from. revert G. induction ns as [|n ns IH]; intros G Hwf; [done|].
  by apply IH, wf_remove_node.
Qed.

Lemma wf_remove_edges_from es G : wf G → wf (remove_edges_from es G).
Proof.
  unfold remove_edges_from. revert G. induction es as [|e es IH]; intros G Hwf; [done|].
  by apply IH, wf_remove_edge.
Qed.

Lemma node_attrs_remove_nodes_from ns G k :
  node_attrs (remove_nodes_from ns G) k = if decide (k ∈ ns) then None else node_attrs G k.
Proof.
  unfold remove_nodes_from. revert G. induction ns as [|n ns IH]; intros G; [done|].
  cbn [foldl]. rewrite IH, node_attrs_remove_node.
  destruct (decide (k ∈ ns)), (decide (k = n)), (decide (k ∈ n :: ns));
    try done; exfalso; set_solver.
Qed.

Lemma edge_attrs_remove_nodes_from ns G a b :
  wf G →
  edge_attrs (remove_nodes_from ns G) a b
  = if decide (a ∈ ns ∨ b ∈ ns) then None else edge_attrs G a b.
Proof.
  unfold remove_nodes_from. revert G. induction ns as [|n ns IH]; intros G Hwf.
  - cbn [foldl]. destruct (decide _) as [Hin|]; [exfalso; set_solver|done].
  - cbn [foldl]. rewrite IH by by apply wf_remove_node.
    rewrite edge_attrs_remove_node by done.
    destruct (decide (a ∈ ns ∨ b ∈ ns)), (decide (a = n ∨ b = n)),
      (decide (a ∈ n :: ns ∨ b ∈ n :: ns)); try done; exfalso; set_solver.
Qed.

Lemma node_attrs_remove_edges_from es G k :
  node_attrs (remove_edges_from es G) k = node_attrs G k.
Proof.
  unfold remove_edges_from. revert G. induction es as [|e es IH]; intros G; [done|].
  cbn [foldl]. by rewrite IH, node_attrs_remove_edge.
Qed.

Lemma edge_attrs_remove_edges_from es G a b :
  wf G →
  edge_attrs (remove_edges_from es G) a b
  = if decide ((a, b) ∈ es ∨ (b, a) ∈ es) then None else edge_attrs G a b.
Proof.
  unfold remove_edges_from. revert G. induction es as [|[u v] es IH]; intros G Hwf.
  - cbn [foldl]. destruct (decide _) as [Hin|]; [exfalso; set_solver|done].
  - cbn [foldl]. rewrite IH by by apply wf_remove_edge.
    rewrite edge_attrs_remove_edge by done.
    destruct (decide ((a, b) ∈ es ∨ (b, a) ∈ es)),
      (decide ((a = u ∧ b = v) ∨ (a = v ∧ b = u))),
      (decide ((a, b) ∈ (u, v) :: es ∨ (b, a) ∈ (u, v) :: es));
      try done; exfalso; set_solver.
Qed.

Lemma node_attrs_add_nodes_from ns G k :
  node_attrs (add_nodes_from ns G) k
  = if decide (k ∈ ns) then Some (default ∅ (node_attrs G k)) else node_attrs G k.
Proof.
  unfold add_nodes_from. revert G. induction ns as [|n ns IH]; intros G; [done|].
  cbn [foldl]. rewrite IH, node_attrs_add_node.
  destruct (decide (k ∈ ns)), (decide (k = n)), (decide (k ∈ n :: ns));
    subst; try done; exfalso; set_solver.
Qed.

Lemma edge_attrs_add_nodes_from ns G a b :
  wf G → edge_attrs (add_nodes_from ns G) a b = edge_attrs G a b.
Proof.
  unfold add_nodes_from. revert G. induction ns as [|n ns IH]; intros G Hwf; [done|].
  cbn [foldl]. rewrite IH by by apply wf_add_node. by apply edge_attrs_add_node.
Qed.

Lemma node_attrs_add_edges_from es G k :
  node_attrs (add_edges_from es G) k
  = if decide (k ∈ endpoints es) then Some (default ∅ (node_attrs G k)) else node_attrs G k.
Proof.
  unfold add_edges_from. revert G. induction es as [|[u v] es IH]; intros G; [done|].
  cbn [foldl]. rewrite IH, node_attrs_add_edge.
  change (endpoints ((u, v) :: es)) with (u :: v :: endpoints es). simpl.
  destruct (decide (k ∈ endpoints es)), (decide (k = u ∨ k = v)),
    (decide (k ∈ u :: v :: endpoints es)); subst; try done; exfalso; set_solver.
Qed.

Lemma edge_attrs_add_edges_from es G a b :
  wf G →
  edge_attrs (add_edges_from es G) a b
  = if decide ((a, b) ∈ es ∨ (b, a) ∈ es)
    then Some (default ∅ (edge_attrs G a b)) else edge_attrs G a b.
Proof.
  unfold add_edges_from. revert G. induction es as [|[u v] es IH]; intros G Hwf.
  - cbn [foldl]. destruct (decide _) as [Hin|]; [exfalso; set_solver|done].
  - cbn [foldl]. rewrite IH by by apply wf_add_edge.
    simpl. rewrite edge_attrs_add_edge by done.
    destruct (decide ((a, b) ∈ es ∨ (b, a) ∈ es)),
      (decide ((a = u ∧ b = v) ∨ (a = v ∧ b = u))) as [[[-> ->]|[-> ->]]|],
      (decide (_ ∈ (u, v) :: es ∨ _ ∈ (u, v) :: es));
      try done; try (exfalso; set_solver);
      by rewrite (wf_sym G v u).
Qed.

End graph_folds.

(** ** Sampling *)

Section sampling.
Context {A : Type}.
Implicit Types (pool population l : list A) (x y : A).

Lemma submseteq_NoDup l1 l2 : l1 ⊆+ l2 → NoDup l2 → NoDup l1.
Proof.
  intros [k Hk]%submseteq_Permutation Hnd. rewrite Hk in Hnd.
  by apply NoDup_app in Hnd as [? _].
Qed.

Lemma insert_Permutation l j x y :
  l !! j = Some x → x :: <[j := y]> l ≡ₚ y :: l.
Proof.
  revert j. induction l as [|a l IH]; intros [|j] Hj; simplify_eq/=.
  - apply perm_swap.
  - rewrite perm_swap, (IH j Hj). apply perm_swap.
Qed.

(** One step of the selection loop splits the pool into the element drawn and
    the new live prefix. *)
Lemma sample_step_Permutation pool j x y :
  pool !! j = Some x → pool !! (length pool - 1) = Some y →
  x :: take (length pool - 1) (<[j := y]> pool) ≡ₚ pool.
Proof.
  intros Hj Hy. pose proof (lookup_lt_Some _ _ _ Hj) as Hlt.
  assert (pool = take (length pool - 1) pool ++ [y]) as Hsplit.
  { rewrite <- (take_drop_middle pool (length pool - 1) y Hy) at 1.
    f_equal. f_equal. rewrite drop_ge; [done | lia]. }
  destruct (decide (j = length pool - 1)) as [->|Hne].
  - rewrite list_insert_id by done. simplify_eq.
    rewrite Hsplit at 3. by rewrite Permutation_cons_append.
  - rewrite take_insert_lt by lia.
    rewrite insert_Permutation; [by rewrite Hsplit at 3; rewrite Permutation_cons_append|].
    rewrite lookup_take_lt; [done | lia].
Qed.

Lemma sample_pool_ok k : ∀ pool s,
  k ≤ length pool →
  ∃ result t, random.sample_pool pool k s = Ok result {| heap := heap s; rng := t |}
              ∧ length result = k ∧ result ⊆+ pool.
Proof.
  induction k as [|k IH]; intros pool s Hk.
  - exists [], (rng s). split_and!; [by destruct s | done | apply submseteq_nil_l].
  - cbn [random.sample_pool]. unfold mbind, M_bind at 1, random.randbelow.
    destruct (length pool) as [|n'] eqn:Hlen; [lia|].
    set (j := rng s 0 mod S n').
    assert (j < length pool) as Hj by (rewrite Hlen; apply Nat.mod_upper_bound; lia).
    destruct (lookup_lt_is_Some_2 pool j Hj) as [x Hx].
    destruct (lookup_lt_is_Some_2 pool (length pool - 1)) as [y Hy]; [lia|].
    rewrite Hx. rewrite Hlen in Hy. rewrite Hy.
    pose proof (sample_step_Permutation pool j x y Hx) as Hperm.
    rewrite Hlen in Hperm. specialize (Hperm Hy).
    set (pool' := take (S n' - 1) (<[j := y]> pool)) in *.
    destruct (IH pool' {| heap := heap s; rng := λ i, rng s (S i) |})
      as (result & t & Hrun & Hlen' & Hsub).
    { unfold pool'. rewrite length_take, length_insert. lia. }
    exists (x :: result), t. unfold mbind, M_bind. rewrite Hrun. simpl.
    split_and!; [done | by rewrite <- Hlen' |].
    rewrite <- Hperm. by apply submseteq_skip.
Qed.

Lemma sample_ok population (k : Z) s :
  (0 ≤ k ≤ Z.of_nat (length population))%Z →
  ∃ result t, random.sample population k s = Ok result {| heap := heap s; rng := t |}
              ∧ Z.of_nat (length result) = k ∧ result ⊆+ population.
Proof.
  intros Hk. unfold random.sample. rewrite bool_decide_eq_true_2 by done.
  destruct (sample_pool_ok (Z.to_nat k) population s) as (result & t & ? & ? & ?); [lia|].
  exists result, t. split_and!; [done | lia | done].
Qed.


End sampling.

Section sampling_outcomes.
Context {A : Type}.
Implicit Types (pool result : list A) (x y : A).

(** Every selection without replacement is an outcome of the loop: the tape
    only has to name, at each step, the position of the next element. *)
Lemma sample_pool_any result : ∀ pool,
  result ⊆+ pool →
  ∃ draws, ∀ s, tape_starts_with draws s →
    ∃ t, random.sample_pool pool (length result) s
         = Ok result {| heap := heap s; rng := t |}.
Proof.
  induction result as [|x result IH]; intros pool Hsub.
  - exists []. intros s _. exists (rng s). by destruct s.
  - assert (x ∈ pool) as Hx by (eapply elem_of_submseteq; [left | done]).
    apply list_elem_of_lookup_1 in Hx as [j Hj].
    pose proof (lookup_lt_Some _ _ _ Hj) as Hlt.
    destruct (lookup_lt_is_Some_2 pool (length pool - 1)) as [y Hy]; [lia|].
    pose proof (sample_step_Permutation pool j x y Hj Hy) as Hperm.
    destruct (IH (take (length pool - 1) (<[j := y]> pool))) as [draws Hrun].
    { rewrite <- Hperm in Hsub. by apply (submseteq_app_inv_l _ _ [x]) in Hsub. }
    exists (j :: draws). intros s Hs.
    assert (rng s 0 = j) as H0 by by apply Hs.
    destruct (Hrun {| heap := heap s; rng := λ i, rng s (S i) |}) as [t Ht].
    { intros i d Hd. cbn [rng]. by apply Hs. }
    exists t. cbn [random.sample_pool length].
    unfold mbind, M_bind at 1, random.randbelow.
    destruct (length pool) as [|n'] eqn:Hlen; [lia|].
    rewrite H0, Nat.mod_small by lia. rewrite Hj, Hy.
    unfold mbind, M_bind. by rewrite Ht.
Qed.

End sampling_outcomes.

(** ** [int(hide_ratio * n)] *)

Lemma int_nonneg_floor (x : Q) : (0 <= x)%Q → int x = Qfloor x.
Proof.
  destruct x as [p q]. unfold Qle, int, Qfloor; simpl. intros Hp.
  apply Z.quot_div_nonneg; lia.
Qed.

Lemma scale_nonneg (r : Q) n : (0 <= r)%Q → (0 <= scale r n)%Q.
Proof.
  intros Hr. unfold scale. apply Qmult_le_0_compat; [done|].
  unfold Qle; simpl. lia.
Qed.

Lemma int_scale_bounds (r : Q) n :
  (0 <= r)%Q → (r <= 1)%Q → (0 ≤ int (scale r n) ≤ Z.of_nat n)%Z.
Proof.
  intros H0 H1. rewrite int_nonneg_floor by by apply scale_nonneg.
  split.
  - change 0%Z with (Qfloor 0). apply Qfloor_resp_le. by apply scale_nonneg.
  - rewrite <- (Qfloor_Z (Z.of_nat n)). apply Qfloor_resp_le.
    unfold scale. rewrite <- (Qmult_1_l (inject_Z (Z.of_nat n))) at 2.
    apply Qmult_le_compat_r; [done|]. unfold Qle; simpl. lia.
Qed.

Lemma int_scale_1 n : int (scale 1 n) = Z.of_nat n.
Proof.
  unfold int, scale; simpl. rewrite Z.quot_1_r. by destruct (Z.of_nat n).
Qed.

Lemma int_scale_0 n : int (scale 0 n) = 0%Z.
Proof. done. Qed.

(** ** Running the primitives *)

Section runs.
Implicit Types (s : state) (G : ref) (g : graph.Graph).

Lemma bind_Ok {A B} (m : M A) (f : A → M B) s a s' :
  m s = Ok a s' → (m ≫= f) s = f a s'.
Proof. intros H. unfold mbind, M_bind. by rewrite H. Qed.

Lemma bind_Raise {A B} (m : M A) (f : A → M B) s e :
  m s = Raise e → (m ≫= f) s = Raise e.
Proof. intros H. unfold mbind, M_bind. by rewrite H. Qed.

Lemma deref_Ok G g s : heap s !! G = Some g → deref G s = Ok g s.
Proof. intros H. unfold deref. by rewrite H. Qed.

Lemma copy_Ok G g s :
  heap s !! G = Some g →
  nx.copy G s = Ok (length (heap s)) {| heap := heap s ++ [g]; rng := rng s |}.
Proof. intros H. unfold nx.copy. by rewrite (bind_Ok _ _ _ _ _ (deref_Ok _ _ _ H)). Qed.

Lemma nodes_Ok G g s : heap s !! G = Some g → nx.nodes G s = Ok (graph.nodes g) s.
Proof. intros H. unfold nx.nodes. by rewrite (bind_Ok _ _ _ _ _ (deref_Ok _ _ _ H)). Qed.

Lemma edges_Ok G g s : heap s !! G = Some g → nx.edges G s = Ok (graph.edges g) s.
Proof. intros H. unfold nx.edges. by rewrite (bind_Ok _ _ _ _ _ (deref_Ok _ _ _ H)). Qed.

Lemma number_of_nodes_Ok G g s :
  heap s !! G = Some g → nx.number_of_nodes G s = Ok (graph.number_of_nodes g) s.
Proof. intros H. unfold nx.number_of_nodes. by rewrite (bind_Ok _ _ _ _ _ (deref_Ok _ _ _ H)). Qed.

Lemma number_of_edges_Ok G g s :
  heap s !! G = Some g → nx.number_of_edges G s = Ok (graph.number_of_edges g) s.
Proof. intros H. unfold nx.number_of_edges. by rewrite (bind_Ok _ _ _ _ _ (deref_Ok _ _ _ H)). Qed.

Lemma has_edge_Ok G g u v s :
  heap s !! G = Some g → nx.has_edge G u v s = Ok (graph.has_edge g u v) s.
Proof. intros H. unfold nx.has_edge. by rewrite (bind_Ok _ _ _ _ _ (deref_Ok _ _ _ H)). Qed.

Lemma mutate_Ok G g f s :
  heap s !! G = Some g →
  mutate G f s = Ok () {| heap := <[G := f g]> (heap s); rng := rng s |}.
Proof. intros H. unfold mutate. by rewrite H. Qed.

(** Mutating the object allocated last. *)
Lemma insert_last (h : list graph.Graph) g g' : <[length h := g']> (h ++ [g]) = h ++ [g'].
Proof. rewrite insert_app_r_alt by lia. by rewrite Nat.sub_diag. Qed.

Lemma lookup_last (h : list graph.Graph) g : (h ++ [g]) !! length h = Some g.
Proof. by apply list_lookup_middle. Qed.

End runs.

(** ** The concealment step, run *)

Section concealment.
Import graph.

(** For sample sizes within range the call returns, having allocated exactly
    one object: the copy of [g] with the drawn nodes, then the drawn edges,
    removed.  The drawn lists are sub-multisets of [list(G.nodes)] and
    [list(G.edges)]. *)
Lemma apply_anonymous_routing_run G g hide_ratio s :
  heap s !! G = Some g →
  (0 ≤ int (scale hide_ratio (number_of_nodes g)) ≤ Z.of_nat (length (nodes g)))%Z →
  (0 ≤ int (scale hide_ratio (number_of_edges g)) ≤ Z.of_nat (length (edges g)))%Z →
  ∃ hidden_nodes hidden_edges t,
    apply_anonymous_routing G hide_ratio s
    = Ok (length (heap s), hidden_nodes, hidden_edges)
         {| heap := heap s ++ [remove_edges_from hidden_edges
                                 (remove_nodes_from hidden_nodes g)];
            rng := t |}
    ∧ Z.of_nat (length hidden_nodes) = int (scale hide_ratio (number_of_nodes g))
    ∧ hidden_nodes ⊆+ nodes g
    ∧ Z.of_nat (length hidden_edges) = int (scale hide_ratio (number_of_edges g))
    ∧ hidden_edges ⊆+ edges g.
Proof.
  intros HG Hk1 Hk2. unfold apply_anonymous_routing.
  rewrite (bind_Ok _ _ _ _ _ (copy_Ok _ _ _ HG)).
  set (s1 := {| heap := heap s ++ [g]; rng := rng s |}).
  assert (heap s1 !! G = Some g) as HG1 by by apply lookup_app_l_Some.
  rewrite (bind_Ok _ _ _ _ _ (nodes_Ok _ _ _ HG1)).
  rewrite (bind_Ok _ _ _ _ _ (number_of_nodes_Ok _ _ _ HG1)).
  destruct (sample_ok (nodes g) _ s1 Hk1) as (hn & t1 & Hrun1 & Hlen1 & Hsub1).
  rewrite (bind_Ok _ _ _ _ _ Hrun1). cbn zeta.
  unfold nx.remove_nodes_from.
  erewrite bind_Ok; [|apply mutate_Ok; simpl; apply lookup_last].
  simpl. rewrite insert_last.
  set (s2 := {| heap := heap s ++ [remove_nodes_from hn g]; rng := t1 |}).
  assert (heap s2 !! G = Some g) as HG2 by by apply lookup_app_l_Some.
  rewrite (bind_Ok _ _ _ _ _ (edges_Ok _ _ _ HG2)).
  rewrite (bind_Ok _ _ _ _ _ (number_of_edges_Ok _ _ _ HG2)).
  destruct (sample_ok (edges g) _ s2 Hk2) as (he & t2 & Hrun2 & Hlen2 & Hsub2).
  rewrite (bind_Ok _ _ _ _ _ Hrun2).
  unfold nx.remove_edges_from.
  erewrite bind_Ok; [|apply mutate_Ok; simpl; apply lookup_last].
  simpl. rewrite insert_last.
  by exists hn, he, t2.
Qed.

End concealment.

(** ** The enumeration [list(G.edges)] *)

Section edge_enumeration.
Import graph.
Implicit Types (G : Graph) (u v n : nat) (l : list (nat * gmap nat attrs)) (seen : gset nat).

Lemma app_cons_eq_cases {A} (l1 l2 l1' l2' : list A) a b :
  l1 ++ a :: l2 = l1' ++ b :: l2' →
  (l1 = l1' ∧ a = b ∧ l2 = l2')
  ∨ (∃ m, l1' = l1 ++ a :: m ∧ l2 = m ++ b :: l2')
  ∨ (∃ m, l1 = l1' ++ b :: m ∧ l2' = m ++ a :: l2).
Proof.
  revert l1'. induction l1 as [|x l1 IH]; intros [|x' l1'] Heq; simplify_eq/=.
  - by left.
  - right; left. by eexists.
  - right; right. by eexists.
  - destruct (IH _ H0) as [(-> & -> & ->)|[(m & -> & ->)|(m & -> & ->)]];
      [by left | right; left; by eexists | right; right; by eexists].
Qed.

Lemma elem_of_edges_from l seen u v :
  (u, v) ∈ edges_from l seen ↔
  ∃ l1 nbrs l2, l = l1 ++ (u, nbrs) :: l2 ∧ is_Some (nbrs !! v) ∧ (v ∉ seen) ∧ v ∉ l1.*1.
Proof.
  revert seen. induction l as [|[n nb] l IH]; intros seen; cbn [edges_from].
  - split; [by intros ?%elem_of_nil|]. intros (l1 & ? & ? & Hl & _). by destruct l1.
  - rewrite elem_of_app, list_elem_of_fmap, IH. split.
    + intros [(nbr & [= -> ->] & Hin)|(l1 & nbrs & l2 & -> & Hv & Hseen & Hl1)].
      * apply list_elem_of_filter in Hin as [Hns Hin].
        exists [], nb, l. split_and!; [done| |done|by apply not_elem_of_nil].
        apply list_elem_of_fmap in Hin as ([k d] & -> & Hin).
        apply elem_of_map_to_list in Hin. by eauto.
      * exists ((n, nb) :: l1), nbrs, l2.
        split_and!; [done | done | set_solver | rewrite fmap_cons; set_solver].
    + intros (l1 & nbrs & l2 & Hl & Hv & Hseen & Hl1).
      destruct l1 as [|p l1]; simplify_eq/=.
      * left. exists v. split; [done|]. apply list_elem_of_filter. split; [done|].
        destruct Hv as [d Hd]. apply list_elem_of_fmap. exists (v, d).
        split; [done|]. by apply elem_of_map_to_list.
      * right. exists l1, nbrs, l2. split_and!; [done | done | set_solver | set_solver].
Qed.

Lemma elem_of_edges G u v :
  (u, v) ∈ edges G ↔
  ∃ l1 nbrs l2, map_to_list (_adj G) = l1 ++ (u, nbrs) :: l2
                ∧ is_Some (nbrs !! v) ∧ v ∉ l1.*1.
Proof.
  unfold edges. rewrite elem_of_edges_from. split.
  - intros (l1 & nbrs & l2 & ? & ? & ? & ?). by exists l1, nbrs, l2.
  - intros (l1 & nbrs & l2 & ? & ? & ?). exists l1, nbrs, l2.
    split_and!; [done | done | set_solver | done].
Qed.

(** A key of [_adj] sits at exactly one place of the iteration. *)
Lemma adj_split G u nbrs :
  _adj G !! u = Some nbrs →
  ∃ l1 l2, map_to_list (_adj G) = l1 ++ (u, nbrs) :: l2 ∧ (u ∉ l1.*1) ∧ u ∉ l2.*1.
Proof.
  intros Hu%elem_of_map_to_list. apply list_elem_of_split in Hu as (l1 & l2 & Hl).
  exists l1, l2. split; [done|].
  pose proof (NoDup_fst_map_to_list (_adj G)) as Hnd. rewrite Hl in Hnd.
  rewrite fmap_app, fmap_cons in Hnd. apply NoDup_app in Hnd as (_ & Hd & Hnd).
  apply NoDup_cons in Hnd as [? _]. split; [|done].
  intros Hin. apply (Hd _ Hin). by left.
Qed.

Lemma adj_split_lookup G u nbrs l1 l2 :
  map_to_list (_adj G) = l1 ++ (u, nbrs) :: l2 → _adj G !! u = Some nbrs.
Proof. intros Hl. apply elem_of_map_to_list. rewrite Hl. set_solver. Qed.

Lemma elem_of_edges_attrs G u v : (u, v) ∈ edges G → is_Some (edge_attrs G u v).
Proof.
  intros (l1 & nbrs & l2 & Hl & Hv & _)%elem_of_edges.
  unfold edge_attrs. by rewrite (adj_split_lookup _ _ _ _ _ Hl).
Qed.

Lemma edge_attrs_elem_of_edges G u v :
  wf G → is_Some (edge_attrs G u v) → (u, v) ∈ edges G ∨ (v, u) ∈ edges G.
Proof.
  intros Hwf Huv. pose proof Huv as Hvu. rewrite (wf_sym _ _ _ Hwf) in Hvu.
  unfold edge_attrs in Huv, Hvu.
  destruct (_adj G !! u) as [nu|] eqn:Hu; [|by destruct Huv].
  destruct (_adj G !! v) as [nv|] eqn:Hv; [|by destruct Hvu]. simpl in *.
  destruct (adj_split _ _ _ Hu) as (l1 & l2 & Hl & Hu1 & Hu2).
  destruct (decide (v ∈ l1.*1)) as [Hin|Hin].
  - right. destruct (adj_split _ _ _ Hv) as (l1' & l2' & Hl' & Hv1 & Hv2).
    apply elem_of_edges. exists l1', nv, l2'. split_and!; [done | done |].
    rewrite Hl in Hl'.
    destruct (app_cons_eq_cases _ _ _ _ _ _ Hl')
      as [(-> & [= -> ->] & ->)|[(m & -> & ->)|(m & -> & ->)]].
    + done.
    + exfalso. apply Hv1. rewrite fmap_app. set_solver.
    + intros Hin'. apply Hu1. rewrite fmap_app. set_solver.
  - left. apply elem_of_edges. by exists l1, nu, l2.
Qed.

(** Each undirected edge is reported in one orientation only. *)
Lemma edges_one_orientation G u v : (u, v) ∈ edges G → (v, u) ∈ edges G → u = v.
Proof.
  intros (l1 & nu & l2 & Hl & _ & Hv)%elem_of_edges
         (l1' & nv & l2' & Hl' & _ & Hu)%elem_of_edges.
  rewrite Hl in Hl'.
  destruct (app_cons_eq_cases _ _ _ _ _ _ Hl')
    as [(-> & [= -> ->] & ->)|[(m & -> & ->)|(m & -> & ->)]].
  - done.
  - exfalso. apply Hu. rewrite fmap_app, fmap_cons. set_solver.
  - exfalso. apply Hv. rewrite fmap_app, fmap_cons. set_solver.
Qed.

Lemma NoDup_edges_from l seen : NoDup l.*1 → NoDup (edges_from l seen).
Proof.
  revert seen. induction l as [|[n nb] l IH]; intros seen Hnd; cbn [edges_from].
  - apply NoDup_nil_2.
  - rewrite fmap_cons in Hnd. apply NoDup_cons in Hnd as [Hn Hnd].
    apply NoDup_app. split_and!.
    + apply (NoDup_fmap_2 _). apply NoDup_filter, NoDup_fst_map_to_list.
    + intros [a b] (nbr & [= -> ->] & _)%list_elem_of_fmap
             (l1 & nbrs & l2 & -> & _)%elem_of_edges_from.
      apply Hn. rewrite fmap_app, fmap_cons. set_solver.
    + by apply IH.
Qed.

Lemma NoDup_edges G : NoDup (edges G).
Proof. apply NoDup_edges_from, NoDup_fst_map_to_list. Qed.

(** *** The degree sum counts every edge twice *)

Lemma sum_degree l :
  sum_list ((λ p, degree p.1 p.2) <$> l) = length (arcs l) + length (loops l).
Proof.
  unfold arcs, loops. induction l as [|[n nb] l IH]; [done|].
  rewrite fmap_cons, !bind_cons, !length_app, !length_fmap, length_map_to_list.
  cbn [sum_list fst snd]. rewrite IH. unfold degree.
  destruct (nb !! n); simpl; lia.
Qed.

Lemma elem_of_arcs G u v :
  (u, v) ∈ arcs (map_to_list (_adj G)) ↔ is_Some (edge_attrs G u v).
Proof.
  unfold arcs, edge_attrs. rewrite list_elem_of_bind. split.
  - intros ([n nb] & Hin & Hn%elem_of_map_to_list). simpl in *.
    apply list_elem_of_fmap in Hin as (nbr & [= -> ->] & Hin).
    apply list_elem_of_fmap in Hin as ([k d] & -> & Hin%elem_of_map_to_list).
    rewrite Hn. simpl. by eauto.
  - destruct (_adj G !! u) as [nu|] eqn:Hu; [|by intros [? ?]]. simpl.
    intros [d Hd]. exists (u, nu). split; [|by apply elem_of_map_to_list].
    simpl. apply list_elem_of_fmap. exists v. split; [done|].
    apply list_elem_of_fmap. exists (v, d). split; [done|]. by apply elem_of_map_to_list.
Qed.

Lemma NoDup_arcs l : NoDup (l.*1) → NoDup (arcs l).
Proof.
  intros Hnd. unfold arcs. induction l as [|[n nb] l IH]; [apply NoDup_nil_2|].
  rewrite fmap_cons in Hnd. apply NoDup_cons in Hnd as [Hn Hnd].
  rewrite bind_cons. apply NoDup_app. split_and!.
  - apply (NoDup_fmap_2 _), NoDup_fst_map_to_list.
  - intros [a b] (nbr & [= -> ->] & _)%list_elem_of_fmap
           ([n' nb'] & (? & [= -> ->] & _)%list_elem_of_fmap & Hin)%list_elem_of_bind.
    apply Hn. apply list_elem_of_fmap. by exists (n', nb').
  - by apply IH.
Qed.

Lemma elem_of_loops G u v :
  (u, v) ∈ loops (map_to_list (_adj G)) ↔ u = v ∧ is_Some (edge_attrs G u u).
Proof.
  unfold loops, edge_attrs. rewrite list_elem_of_bind. split.
  - intros ([n nb] & Hin & Hn%elem_of_map_to_list). simpl in *.
    destruct (nb !! n) as [d|] eqn:Hd; [|by apply elem_of_nil in Hin].
    apply list_elem_of_singleton in Hin as [= -> ->].
    rewrite Hn. simpl. by eauto.
  - intros [-> Hu]. destruct (_adj G !! v) as [nv|] eqn:Hv; [|by destruct Hu].
    simpl in Hu. destruct Hu as [d Hd].
    exists (v, nv). split; [|by apply elem_of_map_to_list].
    simpl. rewrite Hd. by apply list_elem_of_singleton.
Qed.

Lemma NoDup_loops l : NoDup (l.*1) → NoDup (loops l).
Proof.
  intros Hnd. unfold loops. induction l as [|[n nb] l IH]; [apply NoDup_nil_2|].
  rewrite fmap_cons in Hnd. apply NoDup_cons in Hnd as [Hn Hnd].
  rewrite bind_cons. apply NoDup_app. split_and!.
  - simpl. destruct (nb !! n); [apply NoDup_singleton | apply NoDup_nil_2].
  - intros [a b] Hin ([n' nb'] & Hin' & Hl)%list_elem_of_bind. simpl in *.
    destruct (nb !! n); [|by apply elem_of_nil in Hin].
    apply list_elem_of_singleton in Hin as [= -> ->].
    destruct (nb' !! n'); [|by apply elem_of_nil in Hin'].
    apply list_elem_of_singleton in Hin' as [= ->].
    apply Hn. apply list_elem_of_fmap. by exists (n', nb').
  - by apply IH.
Qed.

Lemma arcs_edges G :
  wf G →
  arcs (map_to_list (_adj G))
  ≡ₚ edges G ++ (prod_swap <$> filter (λ e, e.1 ≠ e.2) (edges G)).
Proof.
  intros Hwf. apply NoDup_Permutation.
  - apply NoDup_arcs, NoDup_fst_map_to_list.
  - apply NoDup_app. split_and!.
    + apply NoDup_edges.
    + intros [a b] Hab ([a' b'] & [= -> ->] & [Hne Hba]%list_elem_of_filter)%list_elem_of_fmap.
      apply Hne. simpl. by apply (edges_one_orientation G).
    + apply (NoDup_fmap_2 _), NoDup_filter, NoDup_edges.
  - intros [a b]. rewrite elem_of_arcs, elem_of_app, list_elem_of_fmap. split.
    + intros Hab. destruct (edge_attrs_elem_of_edges _ _ _ Hwf Hab) as [?|Hba]; [by left|].
      destruct (decide (a = b)) as [->|Hne]; [by left|].
      right. exists (b, a). split; [done|]. apply list_elem_of_filter. split; [|done].
      simpl. congruence.
    + intros [Hab|([a' b'] & [= -> ->] & [_ Hba]%list_elem_of_filter)].
      * by apply elem_of_edges_attrs.
      * rewrite (wf_sym _ _ _ Hwf). by apply elem_of_edges_attrs.
Qed.

Lemma loops_edges G :
  wf G → loops (map_to_list (_adj G)) ≡ₚ filter (λ e, ¬ e.1 ≠ e.2) (edges G).
Proof.
  intros Hwf. apply NoDup_Permutation.
  - apply NoDup_loops, NoDup_fst_map_to_list.
  - apply NoDup_filter, NoDup_edges.
  - intros [a b]. rewrite elem_of_loops, list_elem_of_filter. simpl. split.
    + intros [-> Ha]. split; [by intros ?|].
      by destruct (edge_attrs_elem_of_edges _ _ _ Hwf Ha).
    + intros [Hab Hin]. destruct (decide (a = b)) as [->|]; [|done].
      split; [done|]. by apply elem_of_edges_attrs.
Qed.

(** [G.number_of_edges()] is the length of [list(G.edges)]. *)
Lemma number_of_edges_length G : wf G → number_of_edges G = length (edges G).
Proof.
  intros Hwf. unfold number_of_edges.
  rewrite sum_degree, (arcs_edges G Hwf), (loops_edges G Hwf).
  rewrite length_app, length_fmap.
  pose proof (filter_app_complement (λ e : edge, e.1 ≠ e.2) (edges G)) as Hsplit.
  apply Permutation_length in Hsplit. rewrite length_app in Hsplit.
  rewrite <- Hsplit at 1.
  set (x := length (filter _ (edges G))) in *.
  set (y := length (filter (λ e : edge, ¬ e.1 ≠ e.2) (edges G))) in *.
  replace (x + y + x + y) with ((x + y) * 2) by lia. by rewrite Nat.div_mul.
Qed.

End edge_enumeration.

(** ** Node listing, restoration *)

Section listings.
Import graph.
Implicit Types (G g : Graph) (u v n k : nat) (es : list edge).

Lemma elem_of_nodes g k : k ∈ nodes g ↔ is_Some (node_attrs g k).
Proof.
  unfold nodes, node_attrs. rewrite list_elem_of_fmap. split.
  - intros ([k' d] & -> & Hin%elem_of_map_to_list). by eauto.
  - intros [d Hd]. exists (k, d). split; [done|]. by apply elem_of_map_to_list.
Qed.

Lemma NoDup_nodes g : NoDup (nodes g).
Proof. apply NoDup_fst_map_to_list. Qed.

Lemma length_nodes g : length (nodes g) = number_of_nodes g.
Proof. unfold nodes, number_of_nodes. by rewrite length_fmap, length_map_to_list. Qed.

Lemma elem_of_endpoints es k :
  k ∈ endpoints es ↔ ∃ u v, (u, v) ∈ es ∧ (k = u ∨ k = v).
Proof.
  unfold endpoints. rewrite list_elem_of_bind. split.
  - intros ([u v] & Hk & Hin). exists u, v. split; [done|]. set_solver.
  - intros (u & v & Hin & Hk). exists (u, v). split; [|done]. set_solver.
Qed.

Lemma has_node_eq g g' n :
  (is_Some (node_attrs g' n) ↔ is_Some (node_attrs g n)) → has_node g' n = has_node g n.
Proof. intros H. apply eq_true_iff_eq. by rewrite !has_node_attrs. Qed.

Lemma has_edge_eq g g' u v :
  (is_Some (edge_attrs g' u v) ↔ is_Some (edge_attrs g u v)) →
  has_edge g' u v = has_edge g u v.
Proof. intros H. apply eq_true_iff_eq. by rewrite !has_edge_attrs. Qed.

(** An edge that is not there is not removed. *)
Lemma remove_edges_from_absent es g :
  (∀ u v, (u, v) ∈ es → has_edge g u v = false) → remove_edges_from es g = g.
Proof.
  unfold remove_edges_from. induction es as [|[u v] es IH]; intros Hes; [done|].
  cbn [foldl]. unfold remove_edge at 2. rewrite (Hes u v) by left.
  apply IH. intros u' v' Hin. apply Hes. by right.
Qed.

End listings.

Section restoration.
Import graph.

Lemma restore_topology_run G_anonymous g hidden_nodes hidden_edges s :
  heap s !! G_anonymous = Some g →
  restore_topology G_anonymous hidden_nodes hidden_edges s
  = Ok (length (heap s))
       {| heap := heap s ++ [add_edges_from hidden_edges (add_nodes_from hidden_nodes g)];
          rng := rng s |}.
Proof.
  intros HG. unfold restore_topology.
  rewrite (bind_Ok _ _ _ _ _ (copy_Ok _ _ _ HG)).
  unfold nx.add_nodes_from.
  erewrite bind_Ok; [|apply mutate_Ok; simpl; apply lookup_last].
  simpl. rewrite insert_last.
  unfold nx.add_edges_from.
  erewrite bind_Ok; [|apply mutate_Ok; simpl; apply lookup_last].
  simpl. by rewrite insert_last.
Qed.

(** What restoration rebuilds from a concealed graph: the nodes come back, an
    edge comes back only when it was drawn for hiding. *)
Lemma restored_node_attrs g hn he k :
  wf g →
  (∀ n, n ∈ hn → is_Some (node_attrs g n)) →
  (∀ u v, (u, v) ∈ he → is_Some (edge_attrs g u v)) →
  is_Some (node_attrs (add_edges_from he (add_nodes_from hn
             (remove_edges_from he (remove_nodes_from hn g)))) k)
  ↔ is_Some (node_attrs g k).
Proof.
  intros Hwf Hhn Hhe.
  rewrite node_attrs_add_edges_from, node_attrs_add_nodes_from,
    node_attrs_remove_edges_from, node_attrs_remove_nodes_from.
  destruct (decide (k ∈ endpoints he)) as [Hk|Hk].
  - split; [intros _ | by eauto].
    apply elem_of_endpoints in Hk as (u & v & Hin & [->| ->]).
    + by eapply edge_attrs_node_l, Hhe.
    + by eapply edge_attrs_node_r, Hhe.
  - destruct (decide (k ∈ hn)) as [Hk'|Hk']; [|done].
    split; [intros _; by apply Hhn | by eauto].
Qed.

Lemma restored_edge_attrs g hn he u v :
  wf g →
  (∀ u v, (u, v) ∈ he → is_Some (edge_attrs g u v)) →
  is_Some (edge_attrs (add_edges_from he (add_nodes_from hn
             (remove_edges_from he (remove_nodes_from hn g)))) u v)
  ↔ ((u, v) ∈ he ∨ (v, u) ∈ he)
    ∨ (is_Some (edge_attrs g u v) ∧ (u ∉ hn) ∧ v ∉ hn).
Proof.
  intros Hwf Hhe.
  pose proof (wf_remove_nodes_from hn g Hwf) as Hwf1.
  pose proof (wf_remove_edges_from he _ Hwf1) as Hwf2.
  pose proof (wf_add_nodes_from hn _ Hwf2) as Hwf3.
  rewrite edge_attrs_add_edges_from, edge_attrs_add_nodes_from,
    edge_attrs_remove_edges_from, edge_attrs_remove_nodes_from by done.
  destruct (decide ((u, v) ∈ he ∨ (v, u) ∈ he)) as [Hin|Hin].
  - split; [by left | by eauto].
  - destruct (decide (u ∈ hn ∨ v ∈ hn)) as [Hn|Hn].
    + split; [by intros [? ?] | intros [?|(_ & ? & ?)]; [done | tauto]].
    + split; [intros ?; right; split_and!; [done | tauto | tauto] | by intros [?|[? _]]].
Qed.

End restoration.

(** ** Concealment and restoration *)

Section round_trip.
Import graph.
Implicit Types (G : ref) (g : Graph) (s : state) (hide_ratio : Q).

Lemma apply_anonymous_routing_in_range G g hide_ratio s :
  heap s !! G = Some g → wf g → (0 <= hide_ratio)%Q → (hide_ratio <= 1)%Q →
  ∃ hidden_nodes hidden_edges t,
    apply_anonymous_routing G hide_ratio s
    = Ok (length (heap s), hidden_nodes, hidden_edges)
         {| heap := heap s ++ [remove_edges_from hidden_edges
                                 (remove_nodes_from hidden_nodes g)];
            rng := t |}
    ∧ Z.of_nat (length hidden_nodes) = int (scale hide_ratio (number_of_nodes g))
    ∧ hidden_nodes ⊆+ nodes g
    ∧ Z.of_nat (length hidden_edges) = int (scale hide_ratio (number_of_edges g))
    ∧ hidden_edges ⊆+ edges g.
Proof.
  intros HG Hwf H0 H1. apply apply_anonymous_routing_run; [done | |].
  - rewrite length_nodes. by apply int_scale_bounds.
  - rewrite <- number_of_edges_length by done. by apply int_scale_bounds.
Qed.

Lemma drawn_nodes_present g (hn : list nat) n :
  hn ⊆+ nodes g → n ∈ hn → is_Some (node_attrs g n).
Proof. intros Hsub Hin. apply elem_of_nodes. by eapply elem_of_submseteq. Qed.

Lemma drawn_edges_present g (he : list edge) u v :
  he ⊆+ edges g → (u, v) ∈ he → is_Some (edge_attrs g u v).
Proof. intros Hsub Hin. apply elem_of_edges_attrs. by eapply elem_of_submseteq. Qed.




(** Removing every node leaves the empty graph. *)
Lemma remove_all_nodes g (hn : list nat) :
  wf g → (∀ n, is_Some (node_attrs g n) → n ∈ hn) → remove_nodes_from hn g = empty.
Proof.
  intros Hwf Hall. pose proof (wf_remove_nodes_from hn g Hwf) as [Hdom _].
  assert (_node (remove_nodes_from hn g) = ∅) as Hnode.
  { apply map_eq. intros k. rewrite lookup_empty.
    change (node_attrs (remove_nodes_from hn g) k = None).
    rewrite node_attrs_remove_nodes_from. destruct (decide (k ∈ hn)) as [|Hk]; [done|].
    apply eq_None_not_Some. intros ?. by apply Hk, Hall. }
  rewrite Hnode, dom_empty_L in Hdom. apply dom_empty_inv_L in Hdom.
  destruct (remove_nodes_from hn g). simpl in *. by subst.
Qed.

(** C9.  With ratio 1 every node is drawn ([hidden_nodes] is a permutation of
    [list(G.nodes)]), the concealed graph has no node and no edge, and the
    edge pass changes nothing after the node pass. *)
Theorem conceal_everything G g s :
  heap s !! G = Some g → wf g →
  ∃ G_anonymous hidden_nodes hidden_edges s' g_anonymous,
    apply_anonymous_routing G 1 s = Ok (G_anonymous, hidden_nodes, hidden_edges) s'
    ∧ hidden_nodes ≡ₚ nodes g
    ∧ heap s' !! G_anonymous = Some g_anonymous
    ∧ number_of_nodes g_anonymous = 0 ∧ nodes g_anonymous = []
    ∧ number_of_edges g_anonymous = 0 ∧ edges g_anonymous = []
    ∧ g_anonymous = remove_nodes_from hidden_nodes g
    ∧ remove_edges_from hidden_edges (remove_nodes_from hidden_nodes g)
      = remove_nodes_from hidden_nodes g.
Proof.
  intros HG Hwf.
  destruct (apply_anonymous_routing_in_range G g 1 s HG Hwf) as
    (hn & he & t & Hrun & Hlen1 & Hhn & _); [done | done |].
  rewrite int_scale_1 in Hlen1.
  assert (hn ≡ₚ nodes g) as Hperm.
  { apply submseteq_length_Permutation; [done|]. rewrite length_nodes. lia. }
  assert (remove_nodes_from hn g = empty) as Hempty.
  { apply remove_all_nodes; [done|]. intros n Hn. rewrite Hperm. by apply elem_of_nodes. }
  assert (remove_edges_from he (remove_nodes_from hn g) = remove_nodes_from hn g) as Hnoop.
  { apply remove_edges_from_absent. intros u v _. by rewrite Hempty. }
  eexists _, hn, he, _, empty. split; [exact Hrun|].
  split; [done|]. split; [cbn [heap]; rewrite Hnoop, Hempty; apply lookup_last|].
  by rewrite Hnoop, Hempty.
Qed.

Lemma wf_single_edge : wf single_edge.
Proof. apply wf_add_edge, wf_empty. Qed.

(** C1.  The round trip does not give the original edge set back.  On the
    graph with the single edge [0 - 1] and ratio 1/2, whatever the random
    draws, one node and no edge is recorded, and the restored graph lacks the
    edge.  In the scenario of the main program (20 nodes, 30 edges, ratio
    3/10) a run on [spread_tape] restores 23 of the 30 edges. *)
Theorem restore_loses_incident_edges :
  (∀ t : nat → nat,
     ∃ G_anonymous hidden_nodes hidden_edges s1 G_restored s2 g_restored,
       apply_anonymous_routing 0 (1 # 2) {| heap := [single_edge]; rng := t |}
       = Ok (G_anonymous, hidden_nodes, hidden_edges) s1
       ∧ restore_topology G_anonymous hidden_nodes hidden_edges s1 = Ok G_restored s2
       ∧ heap s2 !! G_restored = Some g_restored
       ∧ has_edge single_edge 0 1 = true
       ∧ has_edge g_restored 0 1 = false)
  ∧ (∃ G G_anonymous G_marked G_restored s',
       main 30 {| heap := []; rng := spread_tape |}
       = Ok (G, G_anonymous, G_marked, G_restored) s'
       ∧ counts s' G = Some (20, 30)
       ∧ counts s' G_restored = Some (20, 23)).
Proof.
  split.
  - intros t. set (s := {| heap := [single_edge]; rng := t |}).
    destruct (apply_anonymous_routing_in_range 0 single_edge (1 # 2) s)
      as (hn & he & t' & Hrun & Hlen1 & Hhn & Hlen2 & Hhe);
      [done | apply wf_single_edge | done | done |].
    eexists _, hn, he, _, _, _, _. split; [exact Hrun|].
    split; [apply restore_topology_run; cbn [heap]; apply lookup_last|].
    split; [cbn [heap]; apply lookup_last|].
    split; [done|].
    apply has_edge_None, eq_None_not_Some.
    rewrite restored_edge_attrs; [|apply wf_single_edge|].
    + assert (length hn = 1) as Hn1 by (apply Nat2Z.inj; by rewrite Hlen1).
      assert (length he = 0) as He0 by (apply Nat2Z.inj; by rewrite Hlen2).
      destruct he; [|done]. destruct hn as [|n [|]]; try done.
      assert (n ∈ nodes single_edge) as Hn by (eapply elem_of_submseteq; [left|done]).
      intros [[Hin|Hin]|(_ & H0 & H1)]; [by apply elem_of_nil in Hin..|].
      change (nodes single_edge) with [1; 0] in Hn. set_solver.
    + intros ???. by eapply drawn_edges_present.
  - vm_compute. by eexists _, _, _, _, _.
Qed.

End round_trip.

(** ** Annotation *)

Section annotation.
Import graph.
Implicit Types (G : ref) (g : Graph) (s : state) (u v n k a b : nat) (key : string) (val : bool).

Lemma set_node_attr_Some g n key val d :
  node_attrs g n = Some d →
  ∃ g', set_node_attr n key val g = Some g'
        ∧ (∀ k, node_attrs g' k
                = if decide (k = n) then Some (<[key := val]> d) else node_attrs g k)
        ∧ (∀ a b, edge_attrs g' a b = edge_attrs g a b)
        ∧ (wf g → wf g').
Proof.
  unfold node_attrs, set_node_attr. intros Hd. rewrite Hd. eexists. split; [done|]. split_and!.
  - intros k. simpl. rewrite lookup_insert.
    destruct (decide (n = k)), (decide (k = n)); congruence.
  - done.
  - intros [Hdom Hsym]. split; [|done]. simpl. rewrite dom_insert_L, Hdom.
    assert (n ∈ dom (_node g)) by (apply elem_of_dom; by eauto). set_solver.
Qed.

Lemma set_node_attr_None g n key val :
  node_attrs g n = None → set_node_attr n key val g = None.
Proof. unfold node_attrs, set_node_attr. by intros ->. Qed.

Lemma set_edge_attr_Some g u v key val d :
  wf g → edge_attrs g u v = Some d →
  ∃ g', set_edge_attr (u, v) key val g = Some g'
        ∧ (∀ k, node_attrs g' k = node_attrs g k)
        ∧ (∀ a b, edge_attrs g' a b
                  = if decide ((a = u ∧ b = v) ∨ (a = v ∧ b = u))
                    then Some (<[key := val]> d) else edge_attrs g a b)
        ∧ wf g'.
Proof.
  intros Hwf Hd. unfold set_edge_attr. rewrite Hd. eexists. split; [done|].
  assert (is_Some (_adj g !! u)) as Hu.
  { apply (wf_adj_node _ _ Hwf). eapply edge_attrs_node_l; by eauto. }
  assert (is_Some (_adj g !! v)) as Hv.
  { apply (wf_adj_node _ _ Hwf). eapply edge_attrs_node_r; by eauto. }
  assert (∀ a b, edge_attrs
            {| _node := _node g;
               _adj := alter (insert u (<[key:=val]> d)) v
                         (alter (insert v (<[key:=val]> d)) u (_adj g)) |} a b
          = if decide ((a = u ∧ b = v) ∨ (a = v ∧ b = u))
            then Some (<[key := val]> d) else edge_attrs g a b) as Hedge.
  { intros a b. unfold edge_attrs at 1; simpl. by rewrite lookup_alter_pair. }
  split_and!; [done | done |]. split.
  - simpl. rewrite !dom_alter_L. by apply Hwf.
  - intros a b. rewrite !Hedge.
    destruct (decide ((a = u ∧ b = v) ∨ (a = v ∧ b = u))).
    + by rewrite decide_True by intuition.
    + rewrite decide_False by intuition. by apply wf_sym.
Qed.

Lemma set_edge_attr_None g u v key val :
  edge_attrs g u v = None → set_edge_attr (u, v) key val g = None.
Proof. unfold set_edge_attr. by intros ->. Qed.

Lemma mutate_or_KeyError_Ok G g g' f s :
  heap s !! G = Some g → f g = Some g' →
  mutate_or_KeyError G f s = Ok () {| heap := <[G := g']> (heap s); rng := rng s |}.
Proof. intros HG Hf. unfold mutate_or_KeyError. by rewrite HG, Hf. Qed.

Lemma mutate_or_KeyError_Raise G g f s :
  heap s !! G = Some g → f g = None → mutate_or_KeyError G f s = Raise KeyError.
Proof. intros HG Hf. unfold mutate_or_KeyError. by rewrite HG, Hf. Qed.

Lemma heap_insert_lookup (h : list Graph) G g g' : h !! G = Some g → <[G := g']> h !! G = Some g'.
Proof. intros H. apply list_lookup_insert_eq. by eapply lookup_lt_Some. Qed.

(** The node loop of [mark_anonymous_routes]. *)
Lemma mark_nodes_Ok (hn : list nat) : ∀ G g s,
  heap s !! G = Some g →
  (∀ n, n ∈ hn → is_Some (node_attrs g n)) →
  ∃ g', for_each hn (λ node, nx.set_node_attr G node "hidden" true) s
        = Ok () {| heap := <[G := g']> (heap s); rng := rng s |}
        ∧ (∀ k, node_attrs g' k
                = if decide (k ∈ hn) then <["hidden" := true]> <$> node_attrs g k
                  else node_attrs g k)
        ∧ (∀ a b, edge_attrs g' a b = edge_attrs g a b)
        ∧ (wf g → wf g').
Proof.
  induction hn as [|n hn IH]; intros G g s HG Hhn.
  - exists g. split_and!; [| done | done | done]. cbn [for_each]. unfold mret, M_ret.
    rewrite list_insert_id by done. by destruct s.
  - destruct (Hhn n) as [d Hd]; [by left|].
    destruct (set_node_attr_Some g n "hidden" true d Hd) as (g1 & Hset & Hn1 & He1 & Hwf1).
    cbn [for_each].
    erewrite bind_Ok; [|by apply (mutate_or_KeyError_Ok _ _ _ _ _ HG Hset)].
    destruct (IH G g1 {| heap := <[G := g1]> (heap s); rng := rng s |})
      as (g' & Hrun & Hn' & He' & Hwf').
    { cbn [heap]. by eapply heap_insert_lookup. }
    { intros k Hk. rewrite Hn1. destruct (decide (k = n)); [by eauto|]. apply Hhn. by right. }
    exists g'. split_and!.
    + rewrite Hrun. cbn [heap rng]. by rewrite list_insert_insert_eq.
    + intros k. rewrite Hn', Hn1.
      clear IH Hrun Hhn Hn' Hn1 He' He1.
      destruct (decide (k ∈ hn)) as [Hk|Hk], (decide (k = n)) as [Hkn|Hkn],
        (decide (k ∈ n :: hn)) as [Hk'|Hk'];
        subst; try done; try (exfalso; apply Hk'; by constructor);
        try (exfalso; apply elem_of_cons in Hk' as [?|?]; done).
      * rewrite Hd. simpl. by rewrite insert_insert_eq.
      * by rewrite Hd.
    + intros a b. by rewrite He', He1.
    + by auto.
Qed.

Lemma mark_nodes_KeyError (hn : list nat) : ∀ G g s n,
  heap s !! G = Some g → n ∈ hn → node_attrs g n = None →
  for_each hn (λ node, nx.set_node_attr G node "hidden" true) s = Raise KeyError.
Proof.
  induction hn as [|n0 hn IH]; intros G g s n HG Hin Hn; [by apply elem_of_nil in Hin|].
  cbn [for_each].
  destruct (node_attrs g n0) as [d|] eqn:Hd.
  - destruct (set_node_attr_Some g n0 "hidden" true d Hd) as (g1 & Hset & Hn1 & _).
    erewrite bind_Ok; [|by apply (mutate_or_KeyError_Ok _ _ _ _ _ HG Hset)].
    apply elem_of_cons in Hin as [->|Hin]; [congruence|].
    apply (IH G g1 _ n); [cbn [heap]; by eapply heap_insert_lookup | done |].
    rewrite Hn1. destruct (decide (n = n0)); [congruence|done].
  - apply bind_Raise. eapply mutate_or_KeyError_Raise; [done|].
    by apply set_node_attr_None.
Qed.

(** The edge loop of [mark_anonymous_routes]. *)
Lemma mark_edges_Ok (he : list edge) : ∀ G g s,
  heap s !! G = Some g → wf g →
  (∀ u v, (u, v) ∈ he → is_Some (edge_attrs g u v)) →
  ∃ g', for_each he (λ edge, nx.set_edge_attr G edge "hidden" true) s
        = Ok () {| heap := <[G := g']> (heap s); rng := rng s |}
        ∧ (∀ k, node_attrs g' k = node_attrs g k)
        ∧ (∀ a b, edge_attrs g' a b
                  = if decide ((a, b) ∈ he ∨ (b, a) ∈ he)
                    then <["hidden" := true]> <$> edge_attrs g a b
                    else edge_attrs g a b)
        ∧ wf g'.
Proof.
  induction he as [|[u v] he IH]; intros G g s HG Hwf Hhe.
  - exists g. split_and!; [| done | done | done].
    cbn [for_each]. unfold mret, M_ret. rewrite list_insert_id by done. by destruct s.
  - destruct (Hhe u v) as [d Hd]; [by left|].
    destruct (set_edge_attr_Some g u v "hidden" true d Hwf Hd)
      as (g1 & Hset & Hn1 & He1 & Hwf1).
    cbn [for_each].
    erewrite bind_Ok; [|by apply (mutate_or_KeyError_Ok _ _ _ _ _ HG Hset)].
    destruct (IH G g1 {| heap := <[G := g1]> (heap s); rng := rng s |})
      as (g' & Hrun & Hn' & He' & Hwf').
    { cbn [heap]. by eapply heap_insert_lookup. }
    { done. }
    { intros a b Hab. rewrite He1. destruct (decide _); [by eauto|]. apply Hhe. by right. }
    exists g'. split_and!; [| |  |done].
    + rewrite Hrun. cbn [heap rng]. by rewrite list_insert_insert_eq.
    + intros k. by rewrite Hn', Hn1.
    + intros a b. rewrite He', He1.
      assert (edge_attrs g v u = Some d) as Hd' by by rewrite (wf_sym _ _ _ Hwf).
      clear IH Hrun Hhe Hn' Hn1 He' He1 Hset HG.
      destruct (decide ((a, b) ∈ he ∨ (b, a) ∈ he)) as [Hin|Hin],
        (decide ((a = u ∧ b = v) ∨ (a = v ∧ b = u))) as [[[-> ->]|[-> ->]]|Hne],
        (decide (_ ∈ (u, v) :: he ∨ _ ∈ (u, v) :: he)) as [Hin'|Hin'];
        try done;
        try (exfalso; apply Hin'; rewrite !elem_of_cons; tauto);
        try (exfalso; rewrite !elem_of_cons in Hin'; destruct Hin' as [[[= ??]|?]|[[= ??]|?]];
             subst; tauto);
        rewrite ?Hd, ?Hd'; simpl; by rewrite ?insert_insert_eq.
Qed.

Lemma mark_edges_KeyError (he : list edge) : ∀ G g s u v,
  heap s !! G = Some g → wf g → (u, v) ∈ he → edge_attrs g u v = None →
  for_each he (λ edge, nx.set_edge_attr G edge "hidden" true) s = Raise KeyError.
Proof.
  induction he as [|[u0 v0] he IH]; intros G g s u v HG Hwf Hin Huv;
    [by apply elem_of_nil in Hin|].
  cbn [for_each].
  destruct (edge_attrs g u0 v0) as [d|] eqn:Hd.
  - destruct (set_edge_attr_Some g u0 v0 "hidden" true d Hwf Hd)
      as (g1 & Hset & _ & He1 & Hwf1).
    erewrite bind_Ok; [|by apply (mutate_or_KeyError_Ok _ _ _ _ _ HG Hset)].
    apply elem_of_cons in Hin as [[= -> ->]|Hin]; [congruence|].
    apply (IH G g1 _ u v); [cbn [heap]; by eapply heap_insert_lookup | done | done |].
    rewrite He1. destruct (decide _) as [[[-> ->]|[-> ->]]|]; [congruence | | done].
    rewrite (wf_sym _ _ _ Hwf) in Huv. congruence.
  - apply bind_Raise. eapply mutate_or_KeyError_Raise; [done|].
    by apply set_edge_attr_None.
Qed.

End annotation.

Section annotation_properties.
Import graph.
Implicit Types (G : ref) (g : Graph) (s : state) (u v n k a b : nat).

Lemma mark_anonymous_routes_run G g (hidden_nodes : list nat) (hidden_edges : list edge) s :
  heap s !! G = Some g → wf g →
  (∀ n, n ∈ hidden_nodes → is_Some (node_attrs g n)) →
  (∀ u v, (u, v) ∈ hidden_edges → is_Some (edge_attrs g u v)) →
  ∃ g_marked,
    mark_anonymous_routes G hidden_nodes hidden_edges s
    = Ok (length (heap s)) {| heap := heap s ++ [g_marked]; rng := rng s |}
    ∧ (∀ k, node_attrs g_marked k
            = if decide (k ∈ hidden_nodes) then <["hidden" := true]> <$> node_attrs g k
              else node_attrs g k)
    ∧ (∀ a b, edge_attrs g_marked a b
              = if decide ((a, b) ∈ hidden_edges ∨ (b, a) ∈ hidden_edges)
                then <["hidden" := true]> <$> edge_attrs g a b
                else edge_attrs g a b).
Proof.
  intros HG Hwf Hhn Hhe. unfold mark_anonymous_routes.
  rewrite (bind_Ok _ _ _ _ _ (copy_Ok _ _ _ HG)).
  set (s1 := {| heap := heap s ++ [g]; rng := rng s |}).
  destruct (mark_nodes_Ok hidden_nodes (length (heap s)) g s1)
    as (g1 & Hrun1 & Hn1 & He1 & Hwf1); [apply lookup_last | done |].
  rewrite (bind_Ok _ _ _ _ _ Hrun1). cbn [heap rng s1]. rewrite insert_last.
  set (s2 := {| heap := heap s ++ [g1]; rng := rng s |}).
  destruct (mark_edges_Ok hidden_edges (length (heap s)) g1 s2)
    as (g2 & Hrun2 & Hn2 & He2 & Hwf2); [apply lookup_last | by auto | |].
  { intros u v Huv. rewrite He1. by apply Hhe. }
  rewrite (bind_Ok _ _ _ _ _ Hrun2). cbn [heap rng s2]. rewrite insert_last.
  exists g2. split_and!; [done | |].
  - intros k. by rewrite Hn2, Hn1.
  - intros a b. by rewrite He2, He1.
Qed.

Lemma node_hidden_insert g g' n :
  is_Some (node_attrs g n) →
  node_attrs g' n = <["hidden" := true]> <$> node_attrs g n → node_hidden g' n = true.
Proof.
  intros [d Hd] Hg'. unfold node_hidden. rewrite Hg', Hd. simpl.
  apply bool_decide_eq_true_2, lookup_insert_eq.
Qed.

Lemma edge_hidden_insert g g' u v :
  is_Some (edge_attrs g u v) →
  edge_attrs g' u v = <["hidden" := true]> <$> edge_attrs g u v → edge_hidden g' u v = true.
Proof.
  intros [d Hd] Hg'. unfold edge_hidden. rewrite Hg', Hd. simpl.
  apply bool_decide_eq_true_2, lookup_insert_eq.
Qed.

(** C7, amended.  For lists naming nodes and edges of a well-formed graph,
    annotation returns a graph with the same nodes and edges in which every
    listed node and edge carries ['hidden'] = [True] (an edge under both
    orientations), and every node and edge outside the lists carries the
    mark exactly when it already did in the input graph. *)
Theorem mark_anonymous_routes_correct G g (hidden_nodes : list nat)
    (hidden_edges : list edge) s :
  heap s !! G = Some g → wf g →
  (∀ n, n ∈ hidden_nodes → has_node g n = true) →
  (∀ u v, (u, v) ∈ hidden_edges → has_edge g u v = true) →
  ∃ G_marked s' g_marked,
    mark_anonymous_routes G hidden_nodes hidden_edges s = Ok G_marked s'
    ∧ heap s' !! G_marked = Some g_marked
    ∧ (∀ n, has_node g_marked n = has_node g n)
    ∧ (∀ u v, has_edge g_marked u v = has_edge g u v)
    ∧ (∀ n, n ∈ hidden_nodes → node_hidden g_marked n = true)
    ∧ (∀ u v, (u, v) ∈ hidden_edges →
              edge_hidden g_marked u v = true ∧ edge_hidden g_marked v u = true)
    ∧ (∀ n, n ∉ hidden_nodes → node_hidden g_marked n = node_hidden g n)
    ∧ (∀ u v, (u, v) ∉ hidden_edges → (v, u) ∉ hidden_edges →
              edge_hidden g_marked u v = edge_hidden g u v).
Proof.
  intros HG Hwf Hhn Hhe.
  assert (∀ n, n ∈ hidden_nodes → is_Some (node_attrs g n)) as Hhn'
    by (intros; by apply has_node_attrs, Hhn).
  assert (∀ u v, (u, v) ∈ hidden_edges → is_Some (edge_attrs g u v)) as Hhe'
    by (intros; by apply has_edge_attrs, Hhe).
  destruct (mark_anonymous_routes_run G g hidden_nodes hidden_edges s HG Hwf Hhn' Hhe')
    as (gm & Hrun & Hn & He).
  eexists _, _, gm. split; [exact Hrun|]. split; [cbn [heap]; apply lookup_last|].
  split_and!.
  - intros n. apply has_node_eq. rewrite Hn. destruct (decide _); [|done].
    by rewrite fmap_is_Some.
  - intros u v. apply has_edge_eq. rewrite He. destruct (decide _); [|done].
    by rewrite fmap_is_Some.
  - intros n Hin. apply (node_hidden_insert g); [by auto|]. by rewrite Hn, decide_True.
  - intros u v Hin. split.
    + apply (edge_hidden_insert g); [by auto|]. by rewrite He, decide_True by auto.
    + apply (edge_hidden_insert g); [rewrite (wf_sym _ _ _ Hwf); by auto|].
      by rewrite He, decide_True by auto.
  - intros n Hin. unfold node_hidden. by rewrite Hn, decide_False.
  - intros u v Huv Hvu. unfold edge_hidden. by rewrite He, decide_False by tauto.
Qed.

Lemma wf_premarked : wf premarked.
Proof.
  split; [unfold premarked; simpl; by rewrite !dom_singleton_L|]. intros u v. unfold edge_attrs, premarked; simpl.
  destruct (decide (u = 0)) as [->|Hu], (decide (v = 0)) as [->|Hv];
    rewrite ?lookup_singleton_eq, ?lookup_singleton_ne by done; done.
Qed.

(** [premarked] is what annotation itself produces. *)
Lemma premarked_from_annotation :
  mark_anonymous_routes 0 [0] [] {| heap := [edgeless 1]; rng := λ _, 0 |}
  = Ok 1 {| heap := [edgeless 1; premarked]; rng := λ _, 0 |}.
Proof. by vm_compute. Qed.

(** C7 as stated fails: a mark that the input graph already carries is copied
    along, so a node outside the lists can carry ['hidden'] = [True]. *)
Lemma mark_copies_old_marks :
  ¬ (∀ G g (hidden_nodes : list nat) (hidden_edges : list edge) s,
       heap s !! G = Some g → wf g →
       (∀ n, n ∈ hidden_nodes → has_node g n = true) →
       (∀ u v, (u, v) ∈ hidden_edges → has_edge g u v = true) →
       ∃ G_marked s' g_marked,
         mark_anonymous_routes G hidden_nodes hidden_edges s = Ok G_marked s'
         ∧ heap s' !! G_marked = Some g_marked
         ∧ (∀ n, n ∉ hidden_nodes → node_hidden g_marked n = false)).
Proof.
  intros Hclaim.
  destruct (Hclaim 0 premarked [] [] {| heap := [premarked]; rng := λ _, 0 |})
    as (Gm & s' & gm & Hrun & Hgm & Hout).
  - done.
  - apply wf_premarked.
  - by intros n ?%elem_of_nil.
  - by intros u v ?%elem_of_nil.
  - vm_compute in Hrun. injection Hrun as <- <-. vm_compute in Hgm.
    injection Hgm as <-. specialize (Hout 0 (not_elem_of_nil 0)). by vm_compute in Hout.
Qed.

(** C8.  If a listed node or a listed edge is absent from the graph,
    annotation raises [KeyError] and returns nothing. *)
Theorem mark_missing_KeyError G g (hidden_nodes : list nat) (hidden_edges : list edge) s :
  heap s !! G = Some g → wf g →
  (∃ n, n ∈ hidden_nodes ∧ has_node g n = false)
  ∨ (∃ u v, (u, v) ∈ hidden_edges ∧ has_edge g u v = false) →
  mark_anonymous_routes G hidden_nodes hidden_edges s = Raise KeyError.
Proof.
  intros HG Hwf Hmissing. unfold mark_anonymous_routes.
  rewrite (bind_Ok _ _ _ _ _ (copy_Ok _ _ _ HG)).
  set (s1 := {| heap := heap s ++ [g]; rng := rng s |}).
  assert (heap s1 !! length (heap s) = Some g) as HG1 by apply lookup_last.
  destruct (decide (Forall (λ n, is_Some (node_attrs g n)) hidden_nodes)) as [Hall|Hnot].
  - destruct Hmissing as [(n & Hin & Hn)|(u & v & Hin & Huv)].
    + rewrite Forall_forall in Hall. specialize (Hall n Hin).
      apply has_node_attrs in Hall. congruence.
    + rewrite Forall_forall in Hall.
      destruct (mark_nodes_Ok hidden_nodes (length (heap s)) g s1 HG1 Hall)
        as (g1 & Hrun1 & _ & He1 & Hwf1).
      rewrite (bind_Ok _ _ _ _ _ Hrun1). apply bind_Raise.
      apply (mark_edges_KeyError hidden_edges _ g1 _ u v); [| by auto | done |].
      * cbn [heap s1]. rewrite insert_last. apply lookup_last.
      * rewrite He1. by apply has_edge_None.
  - apply not_Forall_Exists in Hnot; [|apply _].
    apply Exists_exists in Hnot as (n & Hin & Hn).
    apply bind_Raise. apply (mark_nodes_KeyError hidden_nodes _ g _ n); [done | done |].
    by apply eq_None_not_Some.
Qed.

End annotation_properties.

(** ** Sample sizes out of range *)

Section ratio_range.
Import graph.
Implicit Types (G : ref) (g : Graph) (s : state) (hide_ratio : Q).




End ratio_range.

(** ** Counting edges *)

Section counting.
Import graph.
Implicit Types (G : ref) (g : Graph) (s : state) (u v n k a b i : nat) (l : list edge).

Lemma norm_eq a b c d : norm (a, b) = norm (c, d) → (a = c ∧ b = d) ∨ (a = d ∧ b = c).
Proof. unfold norm; simpl. intros [= Hmin Hmax]. lia. Qed.

Lemma norm_le a b : a ≤ b → norm (a, b) = (a, b).
Proof. unfold norm; simpl. intros. f_equal; lia. Qed.

Lemma norm_ge a b : b ≤ a → norm (a, b) = (b, a).
Proof. unfold norm; simpl. intros. f_equal; lia. Qed.

(** [list(G.edges)], each edge turned smaller endpoint first, lists the edges
    of the graph without repetition. *)
Lemma NoDup_norm_edges g : NoDup (norm <$> edges g).
Proof.
  apply NoDup_fmap_2_strong; [|apply NoDup_edges].
  intros [a b] [c d] Hab Hcd [[-> ->]|[-> ->]]%norm_eq; [done|].
  by rewrite (edges_one_orientation g _ _ Hab Hcd).
Qed.

Lemma elem_of_norm_edges g a b :
  wf g → (a, b) ∈ norm <$> edges g ↔ a ≤ b ∧ is_Some (edge_attrs g a b).
Proof.
  intros Hwf. rewrite list_elem_of_fmap. split.
  - intros ([c d] & Heq & Hin%elem_of_edges_attrs).
    unfold norm in Heq; simpl in Heq. injection Heq as -> ->. split; [lia|].
    destruct (decide (c ≤ d)).
    + by rewrite Nat.min_l, Nat.max_r by lia.
    + rewrite Nat.min_r, Nat.max_l by lia. by rewrite (wf_sym _ _ _ Hwf).
  - intros [Hle Hab].
    destruct (edge_attrs_elem_of_edges _ _ _ Hwf Hab) as [Hin|Hin].
    + exists (a, b). by rewrite norm_le.
    + exists (b, a). by rewrite norm_ge.
Qed.

Lemma edges_count g l :
  wf g → NoDup l →
  (∀ a b, (a, b) ∈ l ↔ a ≤ b ∧ is_Some (edge_attrs g a b)) →
  length (edges g) = length l.
Proof.
  intros Hwf Hnd Hl. rewrite <- (length_fmap norm).
  apply Permutation_length, NoDup_Permutation; [apply NoDup_norm_edges | done |].
  intros [a b]. by rewrite elem_of_norm_edges, Hl.
Qed.

Lemma length_edges_add_edge g u v :
  wf g → u ≠ v → edge_attrs g u v = None →
  length (edges (add_edge u v g)) = S (length (edges g)).
Proof.
  intros Hwf Hne Hnone.
  rewrite (edges_count _ (norm (u, v) :: (norm <$> edges g))).
  - by rewrite length_cons, length_fmap.
  - by apply wf_add_edge.
  - apply NoDup_cons. split; [|apply NoDup_norm_edges].
    destruct (decide (u ≤ v)).
    + rewrite norm_le, elem_of_norm_edges by done. rewrite Hnone. by intros [_ [? ?]].
    + rewrite norm_ge, elem_of_norm_edges by (done || lia).
      rewrite (wf_sym _ _ _ Hwf), Hnone. by intros [_ [? ?]].
  - intros a b. rewrite elem_of_cons, elem_of_norm_edges, edge_attrs_add_edge by done.
    assert ((norm (u, v) = (u, v) ∧ u < v) ∨ (norm (u, v) = (v, u) ∧ v < u))
      as [[-> Hlt]|[-> Hlt]].
    { destruct (decide (u ≤ v)); [left | right]; (split; [|lia]).
      - by apply norm_le.
      - apply norm_ge. lia. }
    + destruct (decide ((a = u ∧ b = v) ∨ (a = v ∧ b = u))) as [[[-> ->]|[-> ->]]|Hother].
      * split; [intros _; split; [lia | by eauto] | by left].
      * split; [intros [[= ??]|[? _]]; lia | intros [? _]; lia].
      * split; [intros [[= -> ->]|?]; [exfalso; apply Hother; by left | done] | by right].
    + destruct (decide ((a = u ∧ b = v) ∨ (a = v ∧ b = u))) as [[[-> ->]|[-> ->]]|Hother].
      * split; [intros [[= ??]|[? _]]; lia | intros [? _]; lia].
      * split; [intros _; split; [lia | by eauto] | by left].
      * split; [intros [[= -> ->]|?]; [exfalso; apply Hother; by right | done] | by right].
Qed.

(** *** [itertools.combinations(range(n), 2)] *)

Lemma elem_of_combinations2_seq i n a b :
  (a, b) ∈ nx.combinations2 (seq i n) ↔ i ≤ a ∧ a < b ∧ b < i + n.
Proof.
  revert i. induction n as [|n IH]; intros i; simpl.
  - rewrite elem_of_nil. lia.
  - rewrite elem_of_app, list_elem_of_fmap, IH. split.
    + intros [(y & [= -> ->] & Hy%elem_of_seq)|?]; lia.
    + intros (Hi & Hab & Hb). destruct (decide (a = i)) as [->|].
      * left. exists b. split; [done|]. apply elem_of_seq. lia.
      * right. lia.
Qed.

Lemma NoDup_combinations2_seq i n : NoDup (nx.combinations2 (seq i n)).
Proof.
  revert i. induction n as [|n IH]; intros i; simpl; [apply NoDup_nil_2|].
  apply NoDup_app. split_and!.
  - apply (NoDup_fmap_2 _), NoDup_seq.
  - intros [a b] (y & [= -> ->] & _)%list_elem_of_fmap Hin%elem_of_combinations2_seq. lia.
  - apply IH.
Qed.

Lemma length_combinations2_seq i n :
  length (nx.combinations2 (seq i n)) = n * (n - 1) / 2.
Proof.
  revert i. induction n as [|n IH]; intros i; [done|].
  simpl nx.combinations2. rewrite length_app, length_fmap, length_seq, IH.
  replace (S n * (S n - 1)) with (n * 2 + n * (n - 1)) by nia.
  by rewrite Nat.div_add_l.
Qed.

End counting.

(** ** Graph generation *)

Section generation.
Import graph.
Implicit Types (G : ref) (g : Graph) (s : state) (u v n m c k a b i : nat).

Lemma node_attrs_empty k : node_attrs empty k = None.
Proof. apply lookup_empty. Qed.

Lemma edge_attrs_empty a b : edge_attrs empty a b = None.
Proof. unfold edge_attrs; simpl. by rewrite lookup_empty. Qed.

Lemma wf_edgeless n : wf (edgeless n).
Proof. apply wf_add_nodes_from, wf_empty. Qed.

Lemma node_attrs_edgeless n k :
  node_attrs (edgeless n) k = if decide (k < n) then Some ∅ else None.
Proof.
  unfold edgeless. rewrite node_attrs_add_nodes_from, node_attrs_empty.
  destruct (decide (k ∈ seq 0 n)) as [Hin|Hin], (decide (k < n)); try done;
    exfalso; rewrite elem_of_seq in Hin; lia.
Qed.

Lemma edge_attrs_edgeless n a b : edge_attrs (edgeless n) a b = None.
Proof.
  unfold edgeless. rewrite edge_attrs_add_nodes_from by apply wf_empty.
  apply edge_attrs_empty.
Qed.

Lemma gnm_inv_edgeless n : gnm_inv n 0 (edgeless n).
Proof.
  split_and!.
  - apply wf_edgeless.
  - intros k. rewrite node_attrs_edgeless. destruct (decide (k < n)); [by eauto|].
    split; [by intros [? ?] | lia].
  - intros a. apply edge_attrs_edgeless.
  - rewrite (edges_count _ []); [done | apply wf_edgeless | apply NoDup_nil_2 |].
    intros a b. rewrite edge_attrs_edgeless, elem_of_nil. split; [done | by intros [_ [? ?]]].
Qed.

Lemma wf_complete n : wf (complete n).
Proof.
  unfold complete. destruct (1 <? n); [apply wf_add_edges_from|]; apply wf_edgeless.
Qed.

Lemma edge_attrs_complete n a b :
  is_Some (edge_attrs (complete n) a b) ↔ a < n ∧ b < n ∧ a ≠ b.
Proof.
  unfold complete. destruct (1 <? n) eqn:Hn.
  - rewrite edge_attrs_add_edges_from, edge_attrs_edgeless by apply wf_edgeless.
    destruct (decide _) as [Hin|Hin]; rewrite !elem_of_combinations2_seq in Hin; simpl.
    + split; [lia | by eauto].
    + split; [by intros [? ?] | lia].
  - apply Nat.ltb_ge in Hn. rewrite edge_attrs_edgeless.
    split; [by intros [? ?] | lia].
Qed.

Lemma node_attrs_complete n k : is_Some (node_attrs (complete n) k) ↔ k < n.
Proof.
  unfold complete. destruct (1 <? n) eqn:Hn.
  - rewrite node_attrs_add_edges_from, node_attrs_edgeless.
    destruct (decide (k ∈ _)) as [Hin|Hin].
    + apply elem_of_endpoints in Hin as (u & v & Huv%elem_of_combinations2_seq & Hk).
      split; [lia | by eauto].
    + destruct (decide (k < n)); [by eauto|]. split; [by intros [? ?] | lia].
  - rewrite node_attrs_edgeless. destruct (decide (k < n)); [by eauto|].
    split; [by intros [? ?] | lia].
Qed.

Lemma gnm_inv_complete n : gnm_inv n (n * (n - 1) / 2) (complete n).
Proof.
  split_and!.
  - apply wf_complete.
  - apply node_attrs_complete.
  - intros a. apply eq_None_not_Some. rewrite edge_attrs_complete. lia.
  - rewrite <- (length_combinations2_seq 0 n).
    apply edges_count; [apply wf_complete | apply NoDup_combinations2_seq |].
    intros a b. rewrite elem_of_combinations2_seq, edge_attrs_complete. lia.
Qed.

Lemma empty_graph_run n s :
  nx.empty_graph n s
  = Ok (length (heap s)) {| heap := heap s ++ [edgeless n]; rng := rng s |}.
Proof.
  unfold nx.empty_graph, mbind, M_bind, alloc, nx.add_nodes_from, mutate. cbn [heap rng].
  rewrite lookup_last, insert_last. done.
Qed.

Lemma complete_graph_run n s :
  nx.complete_graph n s
  = Ok (length (heap s)) {| heap := heap s ++ [complete n]; rng := rng s |}.
Proof.
  unfold nx.complete_graph. rewrite (bind_Ok _ _ _ _ _ (empty_graph_run n s)).
  unfold complete. destruct (1 <? n).
  - unfold nx.add_edges_from.
    erewrite bind_Ok; [|apply mutate_Ok; cbn [heap]; apply lookup_last].
    cbn [heap rng]. by rewrite insert_last.
  - done.
Qed.

(** What a graph satisfying the loop invariant looks like from outside. *)
Lemma gnm_inv_facts n c g :
  gnm_inv n c g →
  (∀ k, has_node g k = true ↔ k < n)
  ∧ number_of_nodes g = n
  ∧ number_of_edges g = c
  ∧ length (edges g) = c
  ∧ NoDup (edges g)
  ∧ (∀ u v, (u, v) ∈ edges g → u ≠ v ∧ (v, u) ∉ edges g)
  ∧ (∀ u, has_edge g u u = false)
  ∧ (∀ u v, has_edge g u v = true → u < n ∧ v < n).
Proof.
  intros (Hwf & Hnodes & Hloops & Hcount). split_and!.
  - intros k. by rewrite has_node_attrs.
  - rewrite <- length_nodes. transitivity (length (seq 0 n)); [|apply length_seq].
    apply Permutation_length, NoDup_Permutation; [apply NoDup_nodes | apply NoDup_seq |].
    intros k. rewrite elem_of_nodes, Hnodes, elem_of_seq. lia.
  - by rewrite number_of_edges_length.
  - done.
  - apply NoDup_edges.
  - intros u v Huv.
    assert (u ≠ v) as Hne.
    { intros ->. apply elem_of_edges_attrs in Huv. rewrite Hloops in Huv. by destruct Huv. }
    split; [done|]. intros Hvu. by apply Hne, (edges_one_orientation g).
  - intros u. by apply has_edge_None.
  - intros u v Huv%has_edge_attrs. split; apply Hnodes.
    + by eapply edge_attrs_node_l.
    + by eapply edge_attrs_node_r.
Qed.

(** C2, amended.  When at least [n(n-1)/2] edges are requested, and so
    whenever more are requested than there are pairs, generation raises
    nothing: it returns the complete graph on the nodes [0 .. n-1], with
    [n(n-1)/2] edges. *)
Theorem create_random_topology_saturates fuel n m s :
  n * (n - 1) / 2 ≤ m →
  ∃ G s' g,
    create_random_topology fuel n m s = Ok G s'
    ∧ heap s' !! G = Some g
    ∧ (∀ k, has_node g k = true ↔ k < n)
    ∧ (∀ u v, has_edge g u v = true ↔ u < n ∧ v < n ∧ u ≠ v)
    ∧ number_of_edges g = n * (n - 1) / 2.
Proof.
  intros Hm.
  assert (create_random_topology fuel n m s
          = Ok (length (heap s)) {| heap := heap s ++ [complete n]; rng := rng s |}) as Hrun.
  { unfold create_random_topology, nx.gnm_random_graph.
    destruct (n =? 1) eqn:Hn1.
    - apply Nat.eqb_eq in Hn1 as ->. by rewrite (bind_Ok _ _ _ _ _ (empty_graph_run 1 s)).
    - apply Nat.leb_le in Hm. rewrite Hm.
      by rewrite (bind_Ok _ _ _ _ _ (complete_graph_run n s)). }
  eexists _, _, (complete n). split; [exact Hrun|].
  split; [cbn [heap]; apply lookup_last|].
  destruct (gnm_inv_facts _ _ _ (gnm_inv_complete n)) as (Hnodes & _ & Hedges & _).
  split_and!; [done | | done].
  intros u v. by rewrite has_edge_attrs, edge_attrs_complete.
Qed.

(** C2 as stated fails: with three nodes and ten requested edges the call
    returns (the triangle). *)
Lemma too_many_edges_accepted :
  ¬ (∀ fuel n m s, n * (n - 1) / 2 < m →
       create_random_topology fuel n m s = Raise ValueError).
Proof.
  intros Hclaim. specialize (Hclaim 0 3 10 {| heap := []; rng := λ _, 0 |}).
  assert (create_random_topology 0 3 10 {| heap := []; rng := λ _, 0 |} ≠ Raise ValueError)
    as Hrun by (by vm_compute).
  apply Hrun, Hclaim. vm_compute. lia.
Qed.

End generation.

(** ** The rejection loop *)

Section rejection_loop.
Import graph.
Implicit Types (G : ref) (g : Graph) (s : state) (u v n m c k a b i : nat) (nlist : list nat).

Lemma choice_Ok {A} (seq : list A) s x :
  seq !! (rng s 0 mod length seq) = Some x →
  random.choice seq s = Ok x {| heap := heap s; rng := λ i, rng s (S i) |}.
Proof.
  intros Hx. unfold random.choice.
  destruct (length seq) as [|len] eqn:Hlen.
  - apply lookup_lt_Some in Hx. lia.
  - unfold mbind, M_bind, random.randbelow. by rewrite Hx.
Qed.

Lemma choice_position {A} (seq : list A) d :
  seq ≠ [] → ∃ x, seq !! (d mod length seq) = Some x.
Proof.
  intros Hne. apply lookup_lt_is_Some_2, Nat.mod_upper_bound.
  destruct seq; [done | simpl; lia].
Qed.

(** One iteration of the loop, from the two draws it consumes. *)
Lemma gnm_loop_step fuel G nlist m c g s u v :
  heap s !! G = Some g → c < m →
  nlist !! (rng s 0 mod length nlist) = Some u →
  nlist !! (rng s 1 mod length nlist) = Some v →
  nx.gnm_loop (S fuel) G nlist m c s
  = if (u =? v) || has_edge g u v
    then nx.gnm_loop fuel G nlist m c {| heap := heap s; rng := λ i, rng s (S (S i)) |}
    else nx.gnm_loop fuel G nlist m (S c)
           {| heap := <[G := add_edge u v g]> (heap s); rng := λ i, rng s (S (S i)) |}.
Proof.
  intros HG Hc Hu Hv. cbn [nx.gnm_loop].
  apply Nat.ltb_lt in Hc. rewrite Hc.
  rewrite (bind_Ok _ _ _ _ _ (choice_Ok nlist s u Hu)).
  erewrite bind_Ok; [|by apply choice_Ok].
  erewrite bind_Ok; [|by apply has_edge_Ok].
  destruct ((u =? v) || has_edge g u v); [done|].
  unfold nx.add_edge. by erewrite bind_Ok; [|by apply mutate_Ok].
Qed.

(** An accepted pair keeps the invariant and adds one edge. *)
Lemma gnm_inv_add_edge n c g u v :
  gnm_inv n c g → u < n → v < n → (u =? v) || has_edge g u v = false →
  gnm_inv n (S c) (add_edge u v g).
Proof.
  intros (Hwf & Hnodes & Hloops & Hcount) Hu Hv [Hne Hnone]%orb_false_elim.
  apply Nat.eqb_neq in Hne. apply has_edge_None in Hnone. split_and!.
  - by apply wf_add_edge.
  - intros k. rewrite node_attrs_add_edge.
    destruct (decide (k = u ∨ k = v)) as [[->| ->]|]; [split; [done | by eauto].. | done].
  - intros a. rewrite edge_attrs_add_edge by done. rewrite decide_False by lia. done.
  - rewrite length_edges_add_edge by done. by rewrite Hcount.
Qed.

Lemma state_insert_id s G g :
  heap s !! G = Some g → s = {| heap := <[G := g]> (heap s); rng := rng s |}.
Proof. intros HG. rewrite list_insert_id by done. by destruct s. Qed.

(** Whatever the tape, the loop raises nothing: it is cut off by the fuel
    bound or leaves a graph with [m] edges. *)
Lemma gnm_loop_sound n m G nlist :
  nlist ≠ [] → (∀ x, x ∈ nlist → x < n) →
  ∀ fuel c g s,
    heap s !! G = Some g → gnm_inv n c g → c ≤ m →
    nx.gnm_loop fuel G nlist m c s = OutOfFuel
    ∨ ∃ g' t, nx.gnm_loop fuel G nlist m c s
              = Ok () {| heap := <[G := g']> (heap s); rng := t |}
              ∧ gnm_inv n m g'.
Proof.
  intros Hne Hlt. induction fuel as [|fuel IH]; intros c g s HG Hinv Hc.
  - destruct (decide (c < m)) as [Hcm|Hcm].
    + left. cbn [nx.gnm_loop]. apply Nat.ltb_lt in Hcm. by rewrite Hcm.
    + right. exists g, (rng s). assert (c = m) as -> by lia. split; [|done].
      cbn [nx.gnm_loop]. rewrite Nat.ltb_irrefl. unfold mret, M_ret.
      f_equal. by apply state_insert_id.
  - destruct (decide (c < m)) as [Hcm|Hcm].
    + destruct (choice_position nlist (rng s 0) Hne) as [u Hu].
      destruct (choice_position nlist (rng s 1) Hne) as [v Hv].
      rewrite (gnm_loop_step fuel G nlist m c g s u v HG Hcm Hu Hv).
      destruct ((u =? v) || has_edge g u v) eqn:Hreject.
      * destruct (IH c g {| heap := heap s; rng := λ i, rng s (S (S i)) |} HG Hinv Hc)
          as [->|(g' & t & -> & Hinv')]; [by left|]. right. by exists g', t.
      * assert (u < n) by (apply Hlt; by eapply list_elem_of_lookup_2).
        assert (v < n) by (apply Hlt; by eapply list_elem_of_lookup_2).
        destruct (IH (S c) (add_edge u v g)
                    {| heap := <[G := add_edge u v g]> (heap s);
                       rng := λ i, rng s (S (S i)) |})
          as [->|(g' & t & -> & Hinv')]; [| | lia | by left |].
        { cbn [heap]. by eapply heap_insert_lookup. }
        { by apply gnm_inv_add_edge. }
        right. exists g', t. cbn [heap]. by rewrite list_insert_insert_eq.
    + right. exists g, (rng s). assert (c = m) as -> by lia. split; [|done].
      cbn [nx.gnm_loop]. rewrite Nat.ltb_irrefl. unfold mret, M_ret.
      f_equal. by apply state_insert_id.
Qed.

End rejection_loop.

Section loop_termination.
Import graph.
Implicit Types (G : ref) (g : Graph) (s : state) (u v n m c k a b i : nat)
  (nlist ds : list nat).

(** Below the maximal edge count some pair of distinct nodes is not joined. *)
Lemma free_pair n c g :
  gnm_inv n c g → c < n * (n - 1) / 2 →
  ∃ u v, u < n ∧ v < n ∧ (u =? v) || has_edge g u v = false.
Proof.
  intros (Hwf & Hnodes & Hloops & Hcount) Hc.
  destruct (decide (Forall (λ e, e ∈ norm <$> edges g) (nx.combinations2 (seq 0 n))))
    as [Hall|Hfree].
  - exfalso. rewrite Forall_forall in Hall.
    pose proof (NoDup_submseteq _ _ (NoDup_combinations2_seq 0 n) Hall) as Hsub.
    apply submseteq_length in Hsub.
    rewrite length_combinations2_seq, length_fmap in Hsub. lia.
  - apply not_Forall_Exists in Hfree; [|apply _].
    apply Exists_exists in Hfree as ([a b] & Hab%elem_of_combinations2_seq & Hout).
    unfold compose in Hout. rewrite elem_of_norm_edges in Hout by done.
    exists a, b. split_and!; [lia | lia |]. apply orb_false_intro.
    + apply Nat.eqb_neq. lia.
    + apply has_edge_None, eq_None_not_Some. intros ?. apply Hout. split; [lia | done].
Qed.

Lemma tape_starts_with_tail d1 d2 ds s h :
  tape_starts_with (d1 :: d2 :: ds) s →
  rng s 0 = d1 ∧ rng s 1 = d2
  ∧ tape_starts_with ds {| heap := h; rng := λ i, rng s (S (S i)) |}.
Proof.
  intros Hs. split_and!; [by apply Hs | by apply Hs |].
  intros i d Hd. cbn [rng]. by apply Hs.
Qed.

Lemma can_return_done n m nlist ds g : gnm_inv n m g → can_return n m nlist ds m g.
Proof.
  intros Hinv. exists [], 0. intros G s HG _. exists g, (rng s). split; [|done].
  cbn [nx.gnm_loop]. rewrite Nat.ltb_irrefl. unfold mret, M_ret.
  f_equal. by apply state_insert_id.
Qed.

(** Two draws fixed in advance: the iteration they decide keeps the loop able
    to return. *)
Lemma can_return_step n m nlist d1 d2 ds :
  nlist ≠ [] → (∀ x, x ∈ nlist → x < n) →
  (∀ c g, gnm_inv n c g → c ≤ m → can_return n m nlist ds c g) →
  ∀ c g, gnm_inv n c g → c ≤ m → can_return n m nlist (d1 :: d2 :: ds) c g.
Proof.
  intros Hne Hlt Hrest c g Hinv Hc.
  destruct (decide (c < m)) as [Hcm|Hcm];
    [|assert (c = m) as -> by lia; by apply can_return_done].
  destruct (choice_position nlist d1 Hne) as [u Hu].
  destruct (choice_position nlist d2 Hne) as [v Hv].
  assert (u < n) by (apply Hlt; by eapply list_elem_of_lookup_2).
  assert (v < n) by (apply Hlt; by eapply list_elem_of_lookup_2).
  destruct ((u =? v) || has_edge g u v) eqn:Hreject.
  - destruct (Hrest c g Hinv Hc) as (draws & fuel & Hrun).
    exists draws, (S fuel). intros G s HG Hs.
    change (tape_starts_with (d1 :: d2 :: (ds ++ draws)) s) in Hs.
    apply (tape_starts_with_tail _ _ _ _ (heap s)) in Hs as (H1 & H2 & Hs).
    rewrite <- H1 in Hu. rewrite <- H2 in Hv.
    rewrite (gnm_loop_step fuel G nlist m c g s u v HG Hcm Hu Hv), Hreject.
    destruct (Hrun G {| heap := heap s; rng := λ i, rng s (S (S i)) |} HG Hs)
      as (g' & t & -> & Hinv'). by exists g', t.
  - destruct (Hrest (S c) (add_edge u v g)) as (draws & fuel & Hrun);
      [by apply gnm_inv_add_edge | lia |].
    exists draws, (S fuel). intros G s HG Hs.
    change (tape_starts_with (d1 :: d2 :: (ds ++ draws)) s) in Hs.
    apply (tape_starts_with_tail _ _ _ _ (<[G := add_edge u v g]> (heap s)))
      in Hs as (H1 & H2 & Hs).
    rewrite <- H1 in Hu. rewrite <- H2 in Hv.
    rewrite (gnm_loop_step fuel G nlist m c g s u v HG Hcm Hu Hv), Hreject.
    destruct (Hrun G {| heap := <[G := add_edge u v g]> (heap s);
                      rng := λ i, rng s (S (S i)) |}
                (heap_insert_lookup _ _ _ _ HG) Hs) as (g' & t & -> & Hinv').
    exists g', t. cbn [heap]. by rewrite list_insert_insert_eq.
Qed.

(** With no draw fixed, drawing a free pair each time finishes the loop. *)
Lemma can_return_now n m nlist :
  (∀ x, x ∈ nlist ↔ x < n) → m ≤ n * (n - 1) / 2 →
  ∀ d c g, m - c = d → gnm_inv n c g → c ≤ m → can_return n m nlist [] c g.
Proof.
  intros Hlist Hm. induction d as [|d IH]; intros c g Hd Hinv Hc.
  - assert (c = m) as -> by lia. by apply can_return_done.
  - destruct (free_pair n c g Hinv) as (u & v & Hu & Hv & Hfree); [lia|].
    destruct (list_elem_of_lookup_1 nlist u) as [ju Hju]; [by apply Hlist|].
    destruct (list_elem_of_lookup_1 nlist v) as [jv Hjv]; [by apply Hlist|].
    destruct (IH (S c) (add_edge u v g)) as (draws & fuel & Hrun);
      [lia | by apply gnm_inv_add_edge | lia |].
    exists (ju :: jv :: draws), (S fuel). intros G s HG Hs.
    change (tape_starts_with (ju :: jv :: draws) s) in Hs.
    apply (tape_starts_with_tail _ _ _ _ (<[G := add_edge u v g]> (heap s)))
      in Hs as (H1 & H2 & Hs).
    rewrite <- (Nat.mod_small ju (length nlist)) in Hju by by eapply lookup_lt_Some.
    rewrite <- (Nat.mod_small jv (length nlist)) in Hjv by by eapply lookup_lt_Some.
    rewrite <- H1 in Hju. rewrite <- H2 in Hjv.
    rewrite (gnm_loop_step fuel G nlist m c g s u v HG ltac:(lia) Hju Hjv), Hfree.
    destruct (Hrun G {| heap := <[G := add_edge u v g]> (heap s);
                      rng := λ i, rng s (S (S i)) |}
                (heap_insert_lookup _ _ _ _ HG) Hs) as (g' & t & -> & Hinv').
    exists g', t. cbn [heap]. by rewrite list_insert_insert_eq.
Qed.

(** No finite run of draws prevents the loop from returning. *)
Lemma can_return_always n m nlist :
  nlist ≠ [] → (∀ x, x ∈ nlist ↔ x < n) → m ≤ n * (n - 1) / 2 →
  ∀ ds c g, gnm_inv n c g → c ≤ m → can_return n m nlist ds c g.
Proof.
  intros Hne Hlist Hm.
  assert (∀ k ds, length ds ≤ 2 * k →
            ∀ c g, gnm_inv n c g → c ≤ m → can_return n m nlist ds c g) as Hk.
  { induction k as [|k IH]; intros ds Hlen.
    - destruct ds; [|simpl in Hlen; lia].
      intros c g Hinv Hc. by eapply can_return_now.
    - destruct ds as [|d1 [|d2 ds]].
      + intros c g Hinv Hc. by eapply can_return_now.
      + intros c g Hinv Hc.
        destruct (can_return_step n m nlist d1 0 [] Hne) with (c := c) (g := g)
          as (draws & fuel & Hrun); [by apply Hlist | | done | done |].
        { intros c' g' Hinv' Hc'. by eapply can_return_now. }
        by exists (0 :: draws), fuel.
      + apply can_return_step; [done | by apply Hlist |].
        apply IH. simpl in Hlen. lia. }
  intros ds. by apply (Hk (length ds)); lia.
Qed.

End loop_termination.

Section generation_properties.
Import graph.
Implicit Types (G : ref) (g : Graph) (s : state) (u v n m c k a b i : nat).

(** One node, or at least as many requested edges as there are pairs: no
    draw is made. *)
Lemma gnm_saturated_run fuel n m s :
  n = 1 ∨ n * (n - 1) / 2 ≤ m →
  nx.gnm_random_graph fuel n m s
  = Ok (length (heap s)) {| heap := heap s ++ [complete n]; rng := rng s |}.
Proof.
  intros Hsat. unfold nx.gnm_random_graph. destruct (n =? 1) eqn:Hn1.
  - apply Nat.eqb_eq in Hn1 as ->. apply empty_graph_run.
  - destruct Hsat as [->|Hm]; [done|]. apply Nat.leb_le in Hm. rewrite Hm.
    apply complete_graph_run.
Qed.

(** Otherwise the loop runs on the edgeless graph. *)
Lemma gnm_loop_run fuel n m s :
  n ≠ 1 → m < n * (n - 1) / 2 →
  nx.gnm_random_graph fuel n m s
  = (nx.gnm_loop fuel (length (heap s)) (nodes (edgeless n)) m 0;; mret (length (heap s)))
      {| heap := heap s ++ [edgeless n]; rng := rng s |}.
Proof.
  intros Hn1 Hm. unfold nx.gnm_random_graph.
  apply Nat.eqb_neq in Hn1. rewrite Hn1.
  apply Nat.leb_gt in Hm. rewrite Hm.
  rewrite (bind_Ok _ _ _ _ _ (empty_graph_run n s)).
  by erewrite bind_Ok; [|apply nodes_Ok; cbn [heap]; apply lookup_last].
Qed.

Lemma nodes_edgeless n x : x ∈ nodes (edgeless n) ↔ x < n.
Proof.
  rewrite elem_of_nodes, node_attrs_edgeless.
  destruct (decide (x < n)); [by eauto|]. split; [by intros [? ?] | lia].
Qed.

Lemma nodes_edgeless_nonempty n : 0 < n → nodes (edgeless n) ≠ [].
Proof.
  intros Hn Hnil. assert (0 ∈ nodes (edgeless n)) as Hin by by apply nodes_edgeless.
  rewrite Hnil in Hin. by apply elem_of_nil in Hin.
Qed.

Lemma create_random_topology_eq fuel n m s :
  create_random_topology fuel n m s = nx.gnm_random_graph fuel n m s.
Proof.
  unfold create_random_topology, mbind, M_bind.
  by destruct (nx.gnm_random_graph fuel n m s).
Qed.

(** C3.  For [m <= n(n-1)/2], generation never raises: whatever the tape, the
    run is either cut off by the fuel bound or returns a graph on exactly the
    nodes [0 .. n-1] with exactly [m] edges, none a self-loop and none
    reported twice.  And the run can always return: however the tape
    begins, it has a continuation on which the call returns. *)
Theorem create_random_topology_correct n m :
  m ≤ n * (n - 1) / 2 →
  (∀ fuel s,
     create_random_topology fuel n m s = OutOfFuel
     ∨ ∃ G s' g,
         create_random_topology fuel n m s = Ok G s'
         ∧ heap s' !! G = Some g
         ∧ (∀ k, has_node g k = true ↔ k < n)
         ∧ number_of_nodes g = n
         ∧ number_of_edges g = m
         ∧ length (edges g) = m
         ∧ NoDup (edges g)
         ∧ (∀ u v, (u, v) ∈ edges g → u ≠ v ∧ (v, u) ∉ edges g)
         ∧ (∀ u, has_edge g u u = false)
         ∧ (∀ u v, has_edge g u v = true → u < n ∧ v < n))
  ∧ (∀ ds : list nat,
       ∃ draws fuel, ∀ s,
         tape_starts_with (ds ++ draws) s →
         ∃ G s', create_random_topology fuel n m s = Ok G s').
Proof.
  intros Hm.
  destruct (decide (n = 1 ∨ n * (n - 1) / 2 ≤ m)) as [Hsat|Hloop].
  - assert (m = n * (n - 1) / 2) as Hmax.
    { destruct Hsat as [->|?]; [simpl in *|]; lia. }
    split.
    + intros fuel s. right. eexists _, _, (complete n).
      rewrite create_random_topology_eq, (gnm_saturated_run fuel n m s Hsat).
      split; [done|]. split; [cbn [heap]; apply lookup_last|].
      rewrite Hmax. apply gnm_inv_facts, gnm_inv_complete.
    + intros ds. exists [], 0. intros s _. eexists _, _.
      by rewrite create_random_topology_eq, (gnm_saturated_run 0 n m s Hsat).
  - assert (n ≠ 1 ∧ m < n * (n - 1) / 2) as [Hn1 Hlt] by lia.
    assert (0 < n) as Hn0 by (destruct n; [simpl in Hlt; lia | lia]).
    pose proof (nodes_edgeless_nonempty n Hn0) as Hne.
    split.
    + intros fuel s.
      rewrite create_random_topology_eq, (gnm_loop_run fuel n m s Hn1 Hlt).
      destruct (gnm_loop_sound n m (length (heap s)) (nodes (edgeless n)) Hne
                  ltac:(intros x; apply nodes_edgeless) fuel 0 (edgeless n)
                  {| heap := heap s ++ [edgeless n]; rng := rng s |})
        as [Hout|(g' & t & Hrun & Hinv)];
        [apply lookup_last | apply gnm_inv_edgeless | lia | |].
      * left. unfold mbind, M_bind. by rewrite Hout.
      * right. exists (length (heap s)). eexists _, g'.
        rewrite (bind_Ok _ _ _ _ _ Hrun). split; [done|].
        split; [cbn [heap]; rewrite insert_last; apply lookup_last|].
        by apply gnm_inv_facts.
    + intros ds.
      destruct (can_return_always n m (nodes (edgeless n)) Hne
                  (nodes_edgeless n) Hm ds 0 (edgeless n) (gnm_inv_edgeless n))
        as (draws & fuel & Hrun); [lia|].
      exists draws, fuel. intros s Hs.
      rewrite create_random_topology_eq, (gnm_loop_run fuel n m s Hn1 Hlt).
      destruct (Hrun (length (heap s)) {| heap := heap s ++ [edgeless n]; rng := rng s |})
        as (g' & t & Hrun' & _); [apply lookup_last | done |].
      rewrite (bind_Ok _ _ _ _ _ Hrun'). by eexists _, _.
Qed.

End generation_properties.

(** ** The theorems at sample inputs *)




Lemma conceal_everything_witness :
  heap one_edge_state !! 0 = Some single_edge ∧ graph.wf single_edge
  ∧ ∃ G_anonymous hidden_nodes hidden_edges s' g_anonymous,
      apply_anonymous_routing 0 1 one_edge_state
      = Ok (G_anonymous, hidden_nodes, hidden_edges) s'
      ∧ hidden_nodes ≡ₚ graph.nodes single_edge
      ∧ heap s' !! G_anonymous = Some g_anonymous
      ∧ graph.number_of_nodes g_anonymous = 0 ∧ graph.nodes g_anonymous = []
      ∧ graph.number_of_edges g_anonymous = 0 ∧ graph.edges g_anonymous = []
      ∧ g_anonymous = graph.remove_nodes_from hidden_nodes single_edge
      ∧ graph.remove_edges_from hidden_edges
          (graph.remove_nodes_from hidden_nodes single_edge)
        = graph.remove_nodes_from hidden_nodes single_edge.
Proof.
  assert (graph.wf single_edge) as Hwf by (apply wfb_wf; by vm_compute).
  split_and!; [reflexivity | done |].
  apply (conceal_everything 0 single_edge one_edge_state); [reflexivity | done].
Defined.


Lemma mark_anonymous_routes_correct_witness :
  heap one_edge_state !! 0 = Some single_edge ∧ graph.wf single_edge
  ∧ (∀ n, n ∈ [1] → graph.has_node single_edge n = true)
  ∧ (∀ u v, (u, v) ∈ [(1, 0)] → graph.has_edge single_edge u v = true)
  ∧ ∃ G_marked s' g_marked,
      mark_anonymous_routes 0 [1] [(1, 0)] one_edge_state = Ok G_marked s'
      ∧ heap s' !! G_marked = Some g_marked
      ∧ (∀ n, graph.has_node g_marked n = graph.has_node single_edge n)
      ∧ (∀ u v, graph.has_edge g_marked u v = graph.has_edge single_edge u v)
      ∧ (∀ n, n ∈ [1] → graph.node_hidden g_marked n = true)
      ∧ (∀ u v, (u, v) ∈ [(1, 0)] →
                graph.edge_hidden g_marked u v = true ∧ graph.edge_hidden g_marked v u = true)
      ∧ (∀ n, n ∉ [1] → graph.node_hidden g_marked n = graph.node_hidden single_edge n)
      ∧ (∀ u v, (u, v) ∉ [(1, 0)] → (v, u) ∉ [(1, 0)] →
                graph.edge_hidden g_marked u v = graph.edge_hidden single_edge u v).
Proof.
  assert (graph.wf single_edge) as Hwf by (apply wfb_wf; by vm_compute).
  assert (∀ n, n ∈ [1] → graph.has_node single_edge n = true) as Hhn
    by (intros n ->%list_elem_of_singleton; reflexivity).
  assert (∀ u v, (u, v) ∈ [(1, 0)] → graph.has_edge single_edge u v = true) as Hhe
    by (intros u v [= -> ->]%list_elem_of_singleton; reflexivity).
  split_and!; [reflexivity | done | done | done |].
  apply (mark_anonymous_routes_correct 0 single_edge [1] [(1, 0)] one_edge_state);
    [reflexivity | done | done | done].
Defined.

Lemma mark_missing_KeyError_witness :
  heap one_edge_state !! 0 = Some single_edge ∧ graph.wf single_edge
  ∧ ((∃ n, n ∈ [0; 5] ∧ graph.has_node single_edge n = false)
     ∨ (∃ u v, (u, v) ∈ [] ∧ graph.has_edge single_edge u v = false))
  ∧ mark_anonymous_routes 0 [0; 5] [] one_edge_state = Raise KeyError.
Proof.
  assert (graph.wf single_edge) as Hwf by (apply wfb_wf; by vm_compute).
  assert ((∃ n, n ∈ [0; 5] ∧ graph.has_node single_edge n = false)
          ∨ (∃ u v, (u, v) ∈ [] ∧ graph.has_edge single_edge u v = false)) as Hmissing.
  { left. exists 5. split; [|reflexivity]. apply elem_of_cons. right. apply elem_of_cons. by left. }
  split_and!; [reflexivity | done | done |].
  apply (mark_missing_KeyError 0 single_edge [0; 5] [] one_edge_state);
    [reflexivity | done | done].
Defined.

Lemma create_random_topology_saturates_witness :
  3 * (3 - 1) / 2 ≤ 10
  ∧ ∃ G s' g,
      create_random_topology 0 3 10 one_edge_state = Ok G s'
      ∧ heap s' !! G = Some g
      ∧ (∀ k, graph.has_node g k = true ↔ k < 3)
      ∧ (∀ u v, graph.has_edge g u v = true ↔ u < 3 ∧ v < 3 ∧ u ≠ v)
      ∧ graph.number_of_edges g = 3 * (3 - 1) / 2.
Proof.
  assert (3 * (3 - 1) / 2 ≤ 10) as Hm by (vm_compute; lia).
  split; [done|]. by apply (create_random_topology_saturates 0 3 10 one_edge_state).
Defined.

Lemma create_random_topology_correct_witness :
  3 ≤ 4 * (4 - 1) / 2
  ∧ (∀ fuel s,
       create_random_topology fuel 4 3 s = OutOfFuel
       ∨ ∃ G s' g,
           create_random_topology fuel 4 3 s = Ok G s'
           ∧ heap s' !! G = Some g
           ∧ (∀ k, graph.has_node g k = true ↔ k < 4)
           ∧ graph.number_of_nodes g = 4
           ∧ graph.number_of_edges g = 3
           ∧ length (graph.edges g) = 3
           ∧ NoDup (graph.edges g)
           ∧ (∀ u v, (u, v) ∈ graph.edges g → u ≠ v ∧ (v, u) ∉ graph.edges g)
           ∧ (∀ u, graph.has_edge g u u = false)
           ∧ (∀ u v, graph.has_edge g u v = true → u < 4 ∧ v < 4))
  ∧ (∀ ds : list nat,
       ∃ draws fuel, ∀ s,
         tape_starts_with (ds ++ draws) s →
         ∃ G s', create_random_topology fuel 4 3 s = Ok G s').
Proof.
  assert (3 ≤ 4 * (4 - 1) / 2) as Hm by (vm_compute; lia).
  split; [done|]. by apply (create_random_topology_correct 4 3).
Defined.

(** * Further properties *)

(** ** Equal graphs, and counts *)

Section graph_equality.
Import graph.
Implicit Types (G : ref) (g : Graph) (s : state) (u v n k a b : nat)
  (ns : list nat) (es : list edge).

(** Two well-formed graphs with the same attribute dicts are equal. *)
Lemma graph_ext g1 g2 :
  wf g1 → wf g2 →
  (∀ k, node_attrs g1 k = node_attrs g2 k) →
  (∀ a b, edge_attrs g1 a b = edge_attrs g2 a b) →
  g1 = g2.
Proof.
  intros Hwf1 Hwf2 Hn He.
  assert (_node g1 = _node g2) as Hnode by by apply map_eq.
  assert (_adj g1 = _adj g2) as Hadj.
  { apply map_eq. intros a.
    destruct (_adj g1 !! a) as [n1|] eqn:H1, (_adj g2 !! a) as [n2|] eqn:H2; [| | |done].
    - f_equal. apply map_eq. intros b.
      pose proof (He a b) as Hab. unfold edge_attrs in Hab. by rewrite H1, H2 in Hab.
    - exfalso. assert (is_Some (_adj g2 !! a)) as [? ?]; [|congruence].
      apply (wf_adj_node _ _ Hwf2). rewrite <- Hnode. apply (wf_adj_node _ _ Hwf1). by eauto.
    - exfalso. assert (is_Some (_adj g1 !! a)) as [? ?]; [|congruence].
      apply (wf_adj_node _ _ Hwf1). rewrite Hnode. apply (wf_adj_node _ _ Hwf2). by eauto. }
  destruct g1, g2. simpl in *. by subst.
Qed.

(** Adding what is there changes nothing. *)
Lemma add_node_present g n : is_Some (node_attrs g n) → add_node n g = g.
Proof. intros [d Hd]. unfold add_node. unfold node_attrs in Hd. by rewrite Hd. Qed.

Lemma add_edge_present g u v : wf g → is_Some (edge_attrs g u v) → add_edge u v g = g.
Proof.
  intros Hwf [d Hd]. apply graph_ext; [by apply wf_add_edge | done | |].
  - intros k. rewrite node_attrs_add_edge.
    destruct (decide (k = u ∨ k = v)) as [[->| ->]|]; [| |done].
    + destruct (edge_attrs_node_l g u v Hwf) as [x Hx]; [by eauto|]. by rewrite Hx.
    + destruct (edge_attrs_node_r g u v Hwf) as [x Hx]; [by eauto|]. by rewrite Hx.
  - intros a b. rewrite edge_attrs_add_edge by done.
    destruct (decide _) as [[[-> ->]|[-> ->]]|]; [| |done]; rewrite Hd; simpl; [done|].
    by rewrite (wf_sym _ _ _ Hwf).
Qed.

Lemma add_nodes_from_present ns g :
  (∀ n, n ∈ ns → is_Some (node_attrs g n)) → add_nodes_from ns g = g.
Proof.
  unfold add_nodes_from. induction ns as [|n ns IH]; intros Hns; [done|].
  cbn [foldl]. rewrite add_node_present by (apply Hns; by left).
  apply IH. intros ??. apply Hns. by right.
Qed.

Lemma add_edges_from_present es g :
  wf g → (∀ u v, (u, v) ∈ es → is_Some (edge_attrs g u v)) → add_edges_from es g = g.
Proof.
  intros Hwf. unfold add_edges_from. induction es as [|[u v] es IH]; intros Hes; [done|].
  cbn [foldl fst snd]. rewrite add_edge_present by (done || apply Hes; by left).
  apply IH. intros ???. apply Hes. by right.
Qed.

(** Counts depend on the node set and the edge set only. *)
Lemma number_of_nodes_ext g1 g2 :
  (∀ n, has_node g1 n = has_node g2 n) → number_of_nodes g1 = number_of_nodes g2.
Proof.
  intros Hn. rewrite <- !length_nodes.
  apply Permutation_length, NoDup_Permutation; [apply NoDup_nodes.. |].
  intros k. rewrite !elem_of_nodes, <- !has_node_attrs. by rewrite Hn.
Qed.

Lemma number_of_edges_mono g1 g2 :
  wf g1 → wf g2 →
  (∀ u v, has_edge g1 u v = true → has_edge g2 u v = true) →
  number_of_edges g1 ≤ number_of_edges g2.
Proof.
  intros Hwf1 Hwf2 He. rewrite !number_of_edges_length by done.
  rewrite <- (length_fmap norm (edges g1)), <- (length_fmap norm (edges g2)).
  apply submseteq_length, NoDup_submseteq; [apply NoDup_norm_edges|].
  intros [a b]. rewrite !elem_of_norm_edges by done. rewrite <- !has_edge_attrs.
  intros [? ?]. by auto.
Qed.

Lemma number_of_edges_ext g1 g2 :
  wf g1 → wf g2 →
  (∀ u v, has_edge g1 u v = has_edge g2 u v) → number_of_edges g1 = number_of_edges g2.
Proof.
  intros Hwf1 Hwf2 He. apply Nat.le_antisymm; apply number_of_edges_mono; try done.
  - intros u v. by rewrite He.
  - intros u v. by rewrite He.
Qed.

(** Removing [k] distinct nodes of the graph leaves [|V| - k] nodes. *)
Lemma number_of_nodes_remove_nodes_from ns g :
  NoDup ns → (∀ n, n ∈ ns → is_Some (node_attrs g n)) →
  number_of_nodes (remove_nodes_from ns g) + length ns = number_of_nodes g.
Proof.
  intros Hnd Hns. rewrite <- !length_nodes.
  pose proof (filter_app_complement (λ n, n ∈ ns) (nodes g)) as Hsplit.
  apply Permutation_length in Hsplit. rewrite length_app in Hsplit.
  rewrite <- Hsplit.
  assert (filter (λ n, n ∈ ns) (nodes g) ≡ₚ ns) as ->.
  { apply NoDup_Permutation; [apply NoDup_filter, NoDup_nodes | done |].
    intros k. rewrite list_elem_of_filter, elem_of_nodes. split; [by intros [? _]|].
    intros ?. by auto. }
  assert (nodes (remove_nodes_from ns g) ≡ₚ filter (λ n, ¬ n ∈ ns) (nodes g)) as ->.
  { apply NoDup_Permutation; [apply NoDup_nodes | apply NoDup_filter, NoDup_nodes |].
    intros k. rewrite list_elem_of_filter, !elem_of_nodes, node_attrs_remove_nodes_from.
    destruct (decide (k ∈ ns)); [|tauto]. split; [by intros [? ?] | tauto]. }
  lia.
Qed.

End graph_equality.

(** ** More on concealment *)

Section concealment_shape.
Import graph.
Implicit Types (G : ref) (g : Graph) (s : state) (u v n k a b : nat)
  (hn : list nat) (he : list edge) (hide_ratio : Q).

(** A graph that lost at least the edges [he] of [g] has that many edges
    fewer. *)
Lemma number_of_edges_without g g' he :
  wf g → wf g' → he ⊆+ edges g →
  (∀ u v, is_Some (edge_attrs g' u v) →
          is_Some (edge_attrs g u v) ∧ ((u, v) ∉ he) ∧ (v, u) ∉ he) →
  number_of_edges g' + length he ≤ number_of_edges g.
Proof.
  intros Hwf Hwf' Hsub Hless. rewrite !number_of_edges_length by done.
  rewrite <- (length_fmap norm (edges g')), <- (length_fmap norm he),
    <- (length_fmap norm (edges g)), <- length_app.
  apply submseteq_length, NoDup_submseteq.
  - apply NoDup_app. split_and!; [apply NoDup_norm_edges | |].
    + intros [a b] [Hle Hab]%elem_of_norm_edges; [|done].
      intros ([c d] & Heq & Hcd)%list_elem_of_fmap.
      destruct (Hless a b Hab) as (_ & H1 & H2).
      rewrite <- (norm_le a b Hle) in Heq.
      apply norm_eq in Heq as [[-> ->]|[-> ->]]; done.
    + eapply submseteq_NoDup; [by apply fmap_submseteq | apply NoDup_norm_edges].
  - intros [a b] [[Hle Hab]%elem_of_norm_edges|Hin]%elem_of_app; [| done |].
    + apply elem_of_norm_edges; [done|]. split; [done|]. by apply Hless.
    + eapply elem_of_submseteq; [exact Hin|]. by apply fmap_submseteq.
Qed.


Lemma concealed_edge_attrs g hn he a b :
  wf g →
  edge_attrs (remove_edges_from he (remove_nodes_from hn g)) a b
  = if decide (((a, b) ∈ he ∨ (b, a) ∈ he) ∨ (a ∈ hn ∨ b ∈ hn)) then None
    else edge_attrs g a b.
Proof.
  intros Hwf. rewrite edge_attrs_remove_edges_from by by apply wf_remove_nodes_from.
  rewrite edge_attrs_remove_nodes_from by done.
  destruct (decide ((a, b) ∈ he ∨ (b, a) ∈ he)), (decide (a ∈ hn ∨ b ∈ hn)),
    (decide (((a, b) ∈ he ∨ (b, a) ∈ he) ∨ (a ∈ hn ∨ b ∈ hn))); try done; tauto.
Qed.

End concealment_shape.

Section concealment_more.
Import graph.
Implicit Types (G : ref) (g : Graph) (s : state) (u v n k a b : nat)
  (hn : list nat) (he : list edge) (hide_ratio : Q).



(** X3.  Ratio 0 hides nothing: both lists are empty and the concealed graph
    is a new object equal to [G]. *)
Theorem conceal_nothing G g s :
  heap s !! G = Some g → wf g →
  ∃ t, apply_anonymous_routing G 0 s
       = Ok (length (heap s), [], []) {| heap := heap s ++ [g]; rng := t |}
       ∧ G ≠ length (heap s).
Proof.
  intros HG Hwf.
  destruct (apply_anonymous_routing_in_range G g 0 s HG Hwf) as
    (hn & he & t & Hrun & Hlen1 & _ & Hlen2 & _); [done | done |].
  rewrite int_scale_0 in Hlen1, Hlen2.
  destruct hn; [|done]. destruct he; [|done].
  exists t. split; [exact Hrun|]. apply lookup_lt_Some in HG. lia.
Qed.

End concealment_more.

Section restoration_more.
Import graph.
Implicit Types (G : ref) (g : Graph) (s : state) (u v n k a b : nat)
  (hn : list nat) (he : list edge) (hide_ratio : Q).

(** X4.  What restoration builds, for any lists: it never raises, allocates
    one object and leaves the store as it was.  The new graph has the nodes
    of the input, the listed nodes and the endpoints of the listed edges; its
    edges are those of the input and the listed ones; what the input had
    keeps its attribute dict, what is new gets an empty one. *)
Theorem restore_result G_anonymous g hidden_nodes hidden_edges s :
  heap s !! G_anonymous = Some g → wf g →
  ∃ g_restored,
    restore_topology G_anonymous hidden_nodes hidden_edges s
    = Ok (length (heap s)) {| heap := heap s ++ [g_restored]; rng := rng s |}
    ∧ wf g_restored
    ∧ (∀ n, has_node g_restored n = true ↔
            has_node g n = true ∨ n ∈ hidden_nodes ∨ n ∈ endpoints hidden_edges)
    ∧ (∀ u v, has_edge g_restored u v = true ↔
              has_edge g u v = true ∨ (u, v) ∈ hidden_edges ∨ (v, u) ∈ hidden_edges)
    ∧ (∀ n, node_attrs g_restored n
            = if has_node g n then node_attrs g n
              else if has_node g_restored n then Some ∅ else None)
    ∧ (∀ u v, edge_attrs g_restored u v
              = if has_edge g u v then edge_attrs g u v
                else if has_edge g_restored u v then Some ∅ else None).
Proof.
  intros HG Hwf. eexists. split; [by apply restore_topology_run|].
  pose proof (wf_add_nodes_from hidden_nodes g Hwf) as Hwf1.
  assert (∀ n, node_attrs (add_edges_from hidden_edges (add_nodes_from hidden_nodes g)) n
               = if decide (n ∈ endpoints hidden_edges ∨ n ∈ hidden_nodes)
                 then Some (default ∅ (node_attrs g n)) else node_attrs g n) as Hn.
  { intros n. rewrite node_attrs_add_edges_from, node_attrs_add_nodes_from.
    destruct (decide (n ∈ endpoints hidden_edges)), (decide (n ∈ hidden_nodes)),
      (decide (n ∈ endpoints hidden_edges ∨ n ∈ hidden_nodes)); try done; tauto. }
  assert (∀ u v, edge_attrs (add_edges_from hidden_edges (add_nodes_from hidden_nodes g)) u v
                 = if decide ((u, v) ∈ hidden_edges ∨ (v, u) ∈ hidden_edges)
                   then Some (default ∅ (edge_attrs g u v)) else edge_attrs g u v) as He.
  { intros u v. by rewrite edge_attrs_add_edges_from, edge_attrs_add_nodes_from. }
  split_and!.
  - by apply wf_add_edges_from.
  - intros n. rewrite !has_node_attrs, Hn. destruct (decide _); [|tauto].
    split; [tauto | by eauto].
  - intros u v. rewrite !has_edge_attrs, He. destruct (decide _); [|tauto].
    split; [tauto | by eauto].
  - intros n. unfold has_node. fold (node_attrs g n).
    fold (node_attrs (add_edges_from hidden_edges (add_nodes_from hidden_nodes g)) n).
    rewrite Hn. destruct (node_attrs g n), (decide _); done.
  - intros u v.
    destruct (has_edge g u v) eqn:Hg.
    + apply has_edge_attrs in Hg as [d Hd]. rewrite He, Hd. by destruct (decide _).
    + apply has_edge_None in Hg.
      destruct (has_edge _ u v) eqn:Hr.
      * apply has_edge_attrs in Hr. rewrite He, Hg in Hr |- *.
        destruct (decide _); [done | by destruct Hr].
      * by apply has_edge_None in Hr.
Qed.

(** X5.  Restoring what is already there is a no-op: when every listed node
    and edge is in the input graph, the new graph equals the input graph. *)
Theorem restore_present_noop G_anonymous g hidden_nodes hidden_edges s :
  heap s !! G_anonymous = Some g → wf g →
  (∀ n, n ∈ hidden_nodes → has_node g n = true) →
  (∀ u v, (u, v) ∈ hidden_edges → has_edge g u v = true) →
  restore_topology G_anonymous hidden_nodes hidden_edges s
  = Ok (length (heap s)) {| heap := heap s ++ [g]; rng := rng s |}.
Proof.
  intros HG Hwf Hhn Hhe. rewrite (restore_topology_run _ g) by done.
  rewrite add_nodes_from_present by (intros; by apply has_node_attrs, Hhn).
  by rewrite add_edges_from_present by (done || intros; by apply has_edge_attrs, Hhe).
Qed.


(** X7.  At ratio 1 the round trip is exact: every node and every edge is
    drawn, so the restored graph has the nodes and the edges of [G]; and it
    is equal to [G] when [G] carries no attribute. *)
Theorem round_trip_at_one G g s :
  heap s !! G = Some g → wf g →
  ∃ G_anonymous hidden_nodes hidden_edges s1 G_restored s2 g_restored,
    apply_anonymous_routing G 1 s = Ok (G_anonymous, hidden_nodes, hidden_edges) s1
    ∧ restore_topology G_anonymous hidden_nodes hidden_edges s1 = Ok G_restored s2
    ∧ heap s2 !! G_restored = Some g_restored
    ∧ (∀ n, has_node g_restored n = has_node g n)
    ∧ (∀ u v, has_edge g_restored u v = has_edge g u v)
    ∧ (attribute_free g → g_restored = g).
Proof.
  intros HG Hwf.
  destruct (apply_anonymous_routing_in_range G g 1 s HG Hwf) as
    (hn & he & t & Hrun & Hlen1 & Hhn & Hlen2 & Hhe); [done | done |].
  rewrite int_scale_1 in Hlen1, Hlen2.
  assert (hn ≡ₚ nodes g) as Hpermn.
  { apply submseteq_length_Permutation; [done|]. rewrite length_nodes. lia. }
  assert (he ≡ₚ edges g) as Hperm.
  { apply submseteq_length_Permutation; [done|].
    rewrite <- number_of_edges_length by done. lia. }
  eexists _, hn, he, _, _, _, _. split; [exact Hrun|].
  split; [apply restore_topology_run; cbn [heap]; apply lookup_last|].
  split; [cbn [heap]; apply lookup_last|].
  set (gr := add_edges_from he (add_nodes_from hn
               (remove_edges_from he (remove_nodes_from hn g)))).
  assert (∀ n, is_Some (node_attrs gr n) ↔ is_Some (node_attrs g n)) as Hnodes.
  { intros n. apply restored_node_attrs; [done | |].
    - intros ??. by eapply drawn_nodes_present.
    - intros ???. by eapply drawn_edges_present. }
  assert (∀ u v, is_Some (edge_attrs gr u v) ↔ is_Some (edge_attrs g u v)) as Hedges.
  { intros u v. unfold gr. rewrite restored_edge_attrs; [|done|].
    - split.
      + intros [[?|?]|[? _]]; [| |done].
        * by eapply drawn_edges_present.
        * rewrite (wf_sym _ _ _ Hwf). by eapply drawn_edges_present.
      + intros Huv. left.
        destruct (edge_attrs_elem_of_edges _ _ _ Hwf Huv); [left | right]; by rewrite Hperm.
    - intros ???. by eapply drawn_edges_present. }
  split; [intros n; by apply has_node_eq|].
  split; [intros u v; by apply has_edge_eq|].
  intros [Hfree_n Hfree_e].
  assert (wf gr) as Hwfr.
  { by apply wf_add_edges_from, wf_add_nodes_from, wf_remove_edges_from,
      wf_remove_nodes_from. }
  assert (gr = add_edges_from he (add_nodes_from hn empty)) as Hgr.
  { unfold gr. rewrite (remove_all_nodes g hn); [|done|].
    - by rewrite remove_edges_from_absent.
    - intros n Hn. rewrite Hpermn. by apply elem_of_nodes. }
  apply graph_ext; [done | done | |].
  - intros n. specialize (Hnodes n).
    assert (∀ d, node_attrs gr n = Some d → d = ∅) as Hval.
    { rewrite Hgr, node_attrs_add_edges_from, node_attrs_add_nodes_from, node_attrs_empty.
      intros d. destruct (decide _), (decide _); simpl; by intros [= <-]. }
    destruct (node_attrs gr n) as [d'|] eqn:Hr, (node_attrs g n) as [d|] eqn:Hd.
    + by rewrite (Hval d' eq_refl), (Hfree_n n d Hd).
    + by destruct (proj1 Hnodes ltac:(eauto)).
    + by destruct (proj2 Hnodes ltac:(eauto)).
    + done.
  - intros u v. specialize (Hedges u v).
    assert (∀ d, edge_attrs gr u v = Some d → d = ∅) as Hval.
    { rewrite Hgr, edge_attrs_add_edges_from, edge_attrs_add_nodes_from, edge_attrs_empty
        by (apply wf_empty || apply wf_add_nodes_from, wf_empty).
      intros d. destruct (decide _); simpl; by intros [= <-]. }
    destruct (edge_attrs gr u v) as [d'|] eqn:Hr, (edge_attrs g u v) as [d|] eqn:Hd.
    + by rewrite (Hval d' eq_refl), (Hfree_e u v d Hd).
    + by destruct (proj1 Hedges ltac:(eauto)).
    + by destruct (proj2 Hedges ltac:(eauto)).
    + done.
Qed.

(** X8.  At ratio 0 the round trip gives back a graph equal to [G]. *)
Theorem round_trip_at_zero G g s :
  heap s !! G = Some g → wf g →
  ∃ G_anonymous hidden_nodes hidden_edges s1 G_restored s2,
    apply_anonymous_routing G 0 s = Ok (G_anonymous, hidden_nodes, hidden_edges) s1
    ∧ restore_topology G_anonymous hidden_nodes hidden_edges s1 = Ok G_restored s2
    ∧ heap s2 !! G_restored = Some g
    ∧ heap s2 !! G = Some g.
Proof.
  intros HG Hwf.
  destruct (apply_anonymous_routing_in_range G g 0 s HG Hwf) as
    (hn & he & t & Hrun & Hlen1 & _ & Hlen2 & _); [done | done |].
  rewrite int_scale_0 in Hlen1, Hlen2.
  destruct hn; [|done]. destruct he; [|done].
  eexists _, [], [], _, _, _. split; [exact Hrun|].
  split; [apply restore_topology_run; cbn [heap]; apply lookup_last|].
  split; [cbn [heap]; apply lookup_last|].
  cbn [heap]. apply lookup_app_l_Some. by apply lookup_app_l_Some.
Qed.

End restoration_more.

(** ** More on annotation *)

Section annotation_more.
Import graph.
Implicit Types (G : ref) (g : Graph) (s : state) (u v n k a b : nat)
  (hn : list nat) (he : list edge) (hide_ratio : Q).

(** The run of [mark_anonymous_routes], with the well-formedness of what it
    builds. *)
Lemma mark_anonymous_routes_run_wf G g hn he s :
  heap s !! G = Some g → wf g →
  (∀ n, n ∈ hn → is_Some (node_attrs g n)) →
  (∀ u v, (u, v) ∈ he → is_Some (edge_attrs g u v)) →
  ∃ g_marked,
    mark_anonymous_routes G hn he s
    = Ok (length (heap s)) {| heap := heap s ++ [g_marked]; rng := rng s |}
    ∧ wf g_marked
    ∧ (∀ k, node_attrs g_marked k
            = if decide (k ∈ hn) then <["hidden" := true]> <$> node_attrs g k
              else node_attrs g k)
    ∧ (∀ a b, edge_attrs g_marked a b
              = if decide ((a, b) ∈ he ∨ (b, a) ∈ he)
                then <["hidden" := true]> <$> edge_attrs g a b
                else edge_attrs g a b).
Proof.
  intros HG Hwf Hhn Hhe. unfold mark_anonymous_routes.
  rewrite (bind_Ok _ _ _ _ _ (copy_Ok _ _ _ HG)).
  set (s1 := {| heap := heap s ++ [g]; rng := rng s |}).
  destruct (mark_nodes_Ok hn (length (heap s)) g s1)
    as (g1 & Hrun1 & Hn1 & He1 & Hwf1); [apply lookup_last | done |].
  rewrite (bind_Ok _ _ _ _ _ Hrun1). cbn [heap rng s1]. rewrite insert_last.
  set (s2 := {| heap := heap s ++ [g1]; rng := rng s |}).
  destruct (mark_edges_Ok he (length (heap s)) g1 s2)
    as (g2 & Hrun2 & Hn2 & He2 & Hwf2); [apply lookup_last | by auto | |].
  { intros u v Huv. rewrite He1. by apply Hhe. }
  rewrite (bind_Ok _ _ _ _ _ Hrun2). cbn [heap rng s2]. rewrite insert_last.
  exists g2. split_and!; [done | done | |].
  - intros k. by rewrite Hn2, Hn1.
  - intros a b. by rewrite He2, He1.
Qed.


Lemma node_hidden_marked g g' hn n :
  (∀ k, k ∈ hn → is_Some (node_attrs g k)) →
  node_attrs g' n = (if decide (n ∈ hn) then <["hidden" := true]> <$> node_attrs g n
                     else node_attrs g n) →
  node_hidden g' n = true ↔ n ∈ hn ∨ node_hidden g n = true.
Proof.
  intros Hhn Hg'. unfold node_hidden at 1. rewrite Hg'.
  destruct (decide (n ∈ hn)) as [Hin|Hin].
  - destruct (Hhn n Hin) as [d Hd]. rewrite Hd. simpl.
    rewrite bool_decide_eq_true, lookup_insert_eq. split; [by left | done].
  - split; [by right | by intros [?|?]].
Qed.

Lemma edge_hidden_marked g g' he u v :
  (∀ a b, (a, b) ∈ he → is_Some (edge_attrs g a b)) → wf g →
  edge_attrs g' u v = (if decide ((u, v) ∈ he ∨ (v, u) ∈ he)
                       then <["hidden" := true]> <$> edge_attrs g u v
                       else edge_attrs g u v) →
  edge_hidden g' u v = true ↔ ((u, v) ∈ he ∨ (v, u) ∈ he) ∨ edge_hidden g u v = true.
Proof.
  intros Hhe Hwf Hg'. unfold edge_hidden at 1. rewrite Hg'.
  destruct (decide ((u, v) ∈ he ∨ (v, u) ∈ he)) as [Hin|Hin].
  - assert (is_Some (edge_attrs g u v)) as [d Hd].
    { destruct Hin as [?|?]; [by apply Hhe|]. rewrite (wf_sym _ _ _ Hwf). by apply Hhe. }
    rewrite Hd. simpl. rewrite bool_decide_eq_true, lookup_insert_eq.
    split; [by left | done].
  - split; [by right | by intros [?|?]].
Qed.

Lemma attribute_free_not_hidden g :
  attribute_free g → (∀ n, node_hidden g n = false) ∧ (∀ u v, edge_hidden g u v = false).
Proof.
  intros [Hn He]. split.
  - intros n. unfold node_hidden. destruct (node_attrs g n) as [d|] eqn:Hd; [|done].
    by rewrite (Hn n d Hd).
  - intros u v. unfold edge_hidden. destruct (edge_attrs g u v) as [d|] eqn:Hd; [|done].
    by rewrite (He u v d Hd).
Qed.

(** X9.  Annotation works on a copy and touches nothing but ['hidden']: it
    allocates one object, leaves the store and the tape as they were, and
    every attribute other than ['hidden'] reads in the marked graph as it
    does in [G]. *)
Theorem mark_leaves_input G g hidden_nodes hidden_edges s :
  heap s !! G = Some g → wf g →
  (∀ n, n ∈ hidden_nodes → has_node g n = true) →
  (∀ u v, (u, v) ∈ hidden_edges → has_edge g u v = true) →
  ∃ g_marked,
    mark_anonymous_routes G hidden_nodes hidden_edges s
    = Ok (length (heap s)) {| heap := heap s ++ [g_marked]; rng := rng s |}
    ∧ wf g_marked
    ∧ (∀ n key, key ≠ "hidden" →
         (node_attrs g_marked n ≫= (.!! key)) = (node_attrs g n ≫= (.!! key)))
    ∧ (∀ u v key, key ≠ "hidden" →
         (edge_attrs g_marked u v ≫= (.!! key)) = (edge_attrs g u v ≫= (.!! key))).
Proof.
  intros HG Hwf Hhn Hhe.
  destruct (mark_anonymous_routes_run_wf G g hidden_nodes hidden_edges s HG Hwf)
    as (gm & Hrun & Hwfm & Hn & He).
  { intros n ?. by apply has_node_attrs, Hhn. }
  { intros u v ?. by apply has_edge_attrs, Hhe. }
  exists gm. split_and!; [done | done | |].
  - intros n key Hkey. rewrite Hn. destruct (decide _); [|done].
    destruct (node_attrs g n); [|done]. simpl. by rewrite lookup_insert_ne.
  - intros u v key Hkey. rewrite He. destruct (decide _); [|done].
    destruct (edge_attrs g u v); [|done]. simpl. by rewrite lookup_insert_ne.
Qed.

(** X10.  Annotation is idempotent: marking the marked graph again with the
    same lists gives an equal graph. *)
Theorem mark_idempotent G g hidden_nodes hidden_edges s :
  heap s !! G = Some g → wf g →
  (∀ n, n ∈ hidden_nodes → has_node g n = true) →
  (∀ u v, (u, v) ∈ hidden_edges → has_edge g u v = true) →
  ∃ G_marked s1 g_marked G_again s2,
    mark_anonymous_routes G hidden_nodes hidden_edges s = Ok G_marked s1
    ∧ heap s1 !! G_marked = Some g_marked
    ∧ mark_anonymous_routes G_marked hidden_nodes hidden_edges s1 = Ok G_again s2
    ∧ heap s2 !! G_again = Some g_marked.
Proof.
  intros HG Hwf Hhn Hhe.
  assert (∀ n, n ∈ hidden_nodes → is_Some (node_attrs g n)) as Hhn'
    by (intros; by apply has_node_attrs, Hhn).
  assert (∀ u v, (u, v) ∈ hidden_edges → is_Some (edge_attrs g u v)) as Hhe'
    by (intros; by apply has_edge_attrs, Hhe).
  destruct (mark_anonymous_routes_run_wf G g hidden_nodes hidden_edges s HG Hwf Hhn' Hhe')
    as (gm & Hrun & Hwfm & Hn & He).
  set (s1 := {| heap := heap s ++ [gm]; rng := rng s |}) in *.
  destruct (mark_anonymous_routes_run_wf (length (heap s)) gm hidden_nodes hidden_edges s1)
    as (gm2 & Hrun2 & Hwfm2 & Hn2 & He2); [apply lookup_last | done | | |].
  { intros n Hin. rewrite Hn, decide_True by done. by apply fmap_is_Some, Hhn'. }
  { intros u v Hin. rewrite He, decide_True by auto. by apply fmap_is_Some, Hhe'. }
  assert (gm2 = gm) as ->.
  { apply graph_ext; [done | done | |].
    - intros k. rewrite Hn2, Hn. destruct (decide _); [|done].
      destruct (node_attrs g k); [|done]. simpl. by rewrite insert_insert_eq.
    - intros a b. rewrite He2, He. destruct (decide _); [|done].
      destruct (edge_attrs g a b); [|done]. simpl. by rewrite insert_insert_eq. }
  eexists _, s1, gm, _, _. split; [exact Hrun|].
  split; [apply lookup_last|]. split; [exact Hrun2|]. apply lookup_last.
Qed.



End annotation_more.

(** ** Drawing *)

Section drawing.
Import graph.
Implicit Types (G : ref) (g : Graph) (s : state) (u v n k a b : nat)
  (hn : list nat) (he : list edge) (title : string).

Lemma draw_topology_run G g title hidden_nodes hidden_edges s :
  heap s !! G = Some g →
  draw_topology G title hidden_nodes hidden_edges s
  = Ok {| plot_title := title;
          node_color := (λ node, if listed hidden_nodes node then "red" else "lightblue")
                          <$> nodes g;
          edge_color := (λ edge, if listed hidden_edges edge then "red" else "gray")
                          <$> edges g |} s.
Proof.
  intros HG. unfold draw_topology.
  rewrite (bind_Ok _ _ _ _ _ (nodes_Ok _ _ _ HG)). cbn zeta.
  by rewrite (bind_Ok _ _ _ _ _ (edges_Ok _ _ _ HG)).
Qed.

Lemma listed_Some {A} `{EqDecision A} (l : list A) x : listed (Some l) x = true ↔ x ∈ l.
Proof.
  destruct l as [|y l]; simpl.
  - split; [done | by intros ?%elem_of_nil].
  - apply bool_decide_eq_true.
Qed.

Lemma listed_nothing {A} `{EqDecision A} (hidden : option (list A)) x :
  hidden = None ∨ hidden = Some [] → listed hidden x = false.
Proof. by intros [-> | ->]. Qed.

(** How many entries of a two-colour list have the first colour. *)
Lemma length_filter_colour {A} (f : A → bool) (c1 c2 : string) (l : list A) :
  c1 ≠ c2 →
  length (filter (λ c, c = c1) ((λ x, if f x then c1 else c2) <$> l))
  = length (filter (λ x, f x = true) l).
Proof.
  intros Hne. induction l as [|x l IH]; [done|].
  rewrite fmap_cons, !filter_cons. destruct (f x) eqn:Hx.
  - rewrite decide_True by done. rewrite decide_True by done. simpl. by rewrite IH.
  - rewrite decide_False by congruence. by rewrite decide_False by done.
Qed.

Lemma length_filter_listed {A} `{EqDecision A} (hidden l : list A) :
  NoDup hidden → NoDup l → (∀ x, x ∈ hidden → x ∈ l) →
  length (filter (λ x, listed (Some hidden) x = true) l) = length hidden.
Proof.
  intros Hh Hl Hsub. apply Permutation_length, NoDup_Permutation;
    [by apply NoDup_filter | done |].
  intros x. rewrite list_elem_of_filter, listed_Some. split; [tauto | by auto].
Qed.

(** X13.  A drawing without hidden lists ([None], or an empty list, which
    Python also takes as false) colours every node lightblue and every edge
    gray, one entry per node and per edge, and changes nothing. *)
Theorem draw_without_hidden G g title hidden_nodes hidden_edges s :
  heap s !! G = Some g → wf g →
  hidden_nodes = None ∨ hidden_nodes = Some [] →
  hidden_edges = None ∨ hidden_edges = Some [] →
  draw_topology G title hidden_nodes hidden_edges s
  = Ok {| plot_title := title;
          node_color := replicate (number_of_nodes g) "lightblue";
          edge_color := replicate (number_of_edges g) "gray" |} s.
Proof.
  intros HG Hwf Hhn Hhe. rewrite (draw_topology_run G g) by done.
  rewrite <- length_nodes, (number_of_edges_length g Hwf). do 2 f_equal.
  - apply const_fmap. intros i n _. by rewrite listed_nothing.
  - apply const_fmap. intros i e _. by rewrite listed_nothing.
Qed.



End drawing.

(** ** More on generation *)

Section generation_more.
Import graph.
Implicit Types (G : ref) (g : Graph) (s : state) (u v n m c k a b : nat)
  (hn nlist : list nat) (he : list edge).

Lemma bind_OutOfFuel {A B} (m : M A) (f : A → M B) s :
  m s = OutOfFuel → (m ≫= f) s = OutOfFuel.
Proof. intros H. unfold mbind, M_bind. by rewrite H. Qed.

Lemma attribute_free_add_edge g u v :
  wf g → attribute_free g → attribute_free (add_edge u v g).
Proof.
  intros Hwf [Hn He]. split.
  - intros k d. rewrite node_attrs_add_edge. destruct (decide _); [|by apply Hn].
    intros [= <-]. destruct (node_attrs g k) as [d'|] eqn:Hd; [|done]. by apply (Hn k).
  - intros a b d. rewrite edge_attrs_add_edge by done. destruct (decide _); [|by apply He].
    intros [= <-]. destruct (edge_attrs g u v) as [d'|] eqn:Hd; [|done]. by apply (He u v).
Qed.

Lemma attribute_free_edgeless n : attribute_free (edgeless n).
Proof.
  split.
  - intros k d. rewrite node_attrs_edgeless. destruct (decide _); [|done]. by intros [= <-].
  - intros a b d. by rewrite edge_attrs_edgeless.
Qed.

Lemma attribute_free_complete n : attribute_free (complete n).
Proof.
  unfold complete. destruct (1 <? n); [|apply attribute_free_edgeless]. split.
  - intros k d. rewrite node_attrs_add_edges_from, node_attrs_edgeless.
    destruct (decide _), (decide _); simpl; try done; by intros [= <-].
  - intros a b d. rewrite edge_attrs_add_edges_from, edge_attrs_edgeless by apply wf_edgeless.
    destruct (decide _); simpl; [by intros [= <-] | done].
Qed.

(** The loop keeps whatever every accepted [add_edge] keeps. *)
Lemma gnm_loop_sound_with (P : Graph → Prop) n m G nlist :
  nlist ≠ [] → (∀ x, x ∈ nlist → x < n) →
  (∀ g u v, wf g → P g → P (add_edge u v g)) →
  ∀ fuel c g s,
    heap s !! G = Some g → gnm_inv n c g → P g → c ≤ m →
    nx.gnm_loop fuel G nlist m c s = OutOfFuel
    ∨ ∃ g' t, nx.gnm_loop fuel G nlist m c s
              = Ok () {| heap := <[G := g']> (heap s); rng := t |}
              ∧ gnm_inv n m g' ∧ P g'.
Proof.
  intros Hne Hlt Hkeep. induction fuel as [|fuel IH]; intros c g s HG Hinv HP Hc.
  - destruct (decide (c < m)) as [Hcm|Hcm].
    + left. cbn [nx.gnm_loop]. apply Nat.ltb_lt in Hcm. by rewrite Hcm.
    + right. exists g, (rng s). assert (c = m) as -> by lia. split; [|done].
      cbn [nx.gnm_loop]. rewrite Nat.ltb_irrefl. unfold mret, M_ret.
      f_equal. by apply state_insert_id.
  - destruct (decide (c < m)) as [Hcm|Hcm].
    + destruct (choice_position nlist (rng s 0) Hne) as [u Hu].
      destruct (choice_position nlist (rng s 1) Hne) as [v Hv].
      rewrite (gnm_loop_step fuel G nlist m c g s u v HG Hcm Hu Hv).
      destruct ((u =? v) || has_edge g u v) eqn:Hreject.
      * destruct (IH c g {| heap := heap s; rng := λ i, rng s (S (S i)) |} HG Hinv HP Hc)
          as [->|(g' & t & -> & Hinv')]; [by left|]. right. by exists g', t.
      * assert (u < n) by (apply Hlt; by eapply list_elem_of_lookup_2).
        assert (v < n) by (apply Hlt; by eapply list_elem_of_lookup_2).
        destruct (IH (S c) (add_edge u v g)
                    {| heap := <[G := add_edge u v g]> (heap s);
                       rng := λ i, rng s (S (S i)) |})
          as [->|(g' & t & -> & Hinv')]; [| | | lia | by left |].
        { cbn [heap]. by eapply heap_insert_lookup. }
        { by apply gnm_inv_add_edge. }
        { apply Hkeep; [by apply Hinv | done]. }
        right. exists g', t. cbn [heap]. by rewrite list_insert_insert_eq.
    + right. exists g, (rng s). assert (c = m) as -> by lia. split; [|done].
      cbn [nx.gnm_loop]. rewrite Nat.ltb_irrefl. unfold mret, M_ret.
      f_equal. by apply state_insert_id.
Qed.

(** The run of [create_random_topology], for any request. *)
Lemma create_random_topology_run fuel n m s :
  create_random_topology fuel n m s = OutOfFuel
  ∨ ∃ g t,
      create_random_topology fuel n m s
      = Ok (length (heap s)) {| heap := heap s ++ [g]; rng := t |}
      ∧ gnm_inv n (m `min` (n * (n - 1) / 2)) g
      ∧ attribute_free g.
Proof.
  rewrite create_random_topology_eq.
  destruct (decide (n = 1 ∨ n * (n - 1) / 2 ≤ m)) as [Hsat|Hloop].
  - right. exists (complete n), (rng s). split; [by apply gnm_saturated_run|].
    split; [|apply attribute_free_complete].
    replace (m `min` (n * (n - 1) / 2)) with (n * (n - 1) / 2);
      [apply gnm_inv_complete|].
    destruct Hsat as [->|?]; [simpl|]; lia.
  - assert (n ≠ 1 ∧ m < n * (n - 1) / 2) as [Hn1 Hlt] by lia.
    assert (0 < n) as Hn0 by (destruct n; [simpl in Hlt; lia | lia]).
    rewrite (gnm_loop_run fuel n m s Hn1 Hlt).
    destruct (gnm_loop_sound_with attribute_free n m (length (heap s))
                (nodes (edgeless n)) (nodes_edgeless_nonempty n Hn0)
                ltac:(intros x; apply nodes_edgeless) attribute_free_add_edge
                fuel 0 (edgeless n) {| heap := heap s ++ [edgeless n]; rng := rng s |})
      as [Hout|(g' & t & Hrun & Hinv & Hfree)];
      [apply lookup_last | apply gnm_inv_edgeless | apply attribute_free_edgeless | lia | |].
    + left. by apply bind_OutOfFuel.
    + right. exists g', t. rewrite (bind_Ok _ _ _ _ _ Hrun). cbn [heap]. rewrite insert_last.
      split; [done|]. by rewrite Nat.min_l by lia.
Qed.

(** Every beginning of the tape can be continued so that generation
    returns. *)
Lemma create_random_topology_can_return n m (ds : list nat) :
  ∃ draws fuel, ∀ s,
    tape_starts_with (ds ++ draws) s →
    ∃ g t, create_random_topology fuel n m s
           = Ok (length (heap s)) {| heap := heap s ++ [g]; rng := t |}
           ∧ gnm_inv n (m `min` (n * (n - 1) / 2)) g.
Proof.
  destruct (decide (n = 1 ∨ n * (n - 1) / 2 ≤ m)) as [Hsat|Hloop].
  - exists [], 0. intros s _. exists (complete n), (rng s).
    rewrite create_random_topology_eq. split; [by apply gnm_saturated_run|].
    replace (m `min` (n * (n - 1) / 2)) with (n * (n - 1) / 2); [apply gnm_inv_complete|].
    destruct Hsat as [->|?]; [simpl|]; lia.
  - assert (n ≠ 1 ∧ m < n * (n - 1) / 2) as [Hn1 Hlt] by lia.
    replace (m `min` (n * (n - 1) / 2)) with m by lia.
    assert (0 < n) as Hn0 by (destruct n; [simpl in Hlt; lia | lia]).
    destruct (can_return_always n m (nodes (edgeless n)) (nodes_edgeless_nonempty n Hn0)
                (nodes_edgeless n) ltac:(lia) ds 0 (edgeless n) (gnm_inv_edgeless n))
      as (draws & fuel & Hrun); [lia|].
    exists draws, fuel. intros s Hs.
    rewrite create_random_topology_eq, (gnm_loop_run fuel n m s Hn1 Hlt).
    destruct (Hrun (length (heap s)) {| heap := heap s ++ [edgeless n]; rng := rng s |})
      as (g' & t & Hrun' & Hinv); [apply lookup_last | done |].
    exists g', t. rewrite (bind_Ok _ _ _ _ _ Hrun'). cbn [heap]. by rewrite insert_last.
Qed.

(** X16.  Generation for any request [(n, m)]: the call never raises; when
    it returns it has allocated one graph and left the store as it was; the
    graph is well-formed, carries no attribute, has the nodes [0 .. n-1],
    no self-loop, and [min(m, n(n-1)/2)] edges.  And whatever the tape begins
    with, it can be continued so that the call returns. *)
Theorem create_random_topology_fresh n m :
  (∀ fuel s,
     create_random_topology fuel n m s = OutOfFuel
     ∨ ∃ g t,
         create_random_topology fuel n m s
         = Ok (length (heap s)) {| heap := heap s ++ [g]; rng := t |}
         ∧ wf g ∧ attribute_free g
         ∧ (∀ k, has_node g k = true ↔ k < n)
         ∧ (∀ u, has_edge g u u = false)
         ∧ number_of_edges g = m `min` (n * (n - 1) / 2))
  ∧ (∀ ds : list nat,
       ∃ draws fuel, ∀ s,
         tape_starts_with (ds ++ draws) s →
         ∃ G s', create_random_topology fuel n m s = Ok G s').
Proof.
  split.
  - intros fuel s.
    destruct (create_random_topology_run fuel n m s)
      as [?|(g & t & Hrun & Hinv & Hfree)]; [by left|].
    right. exists g, t. split; [done|].
    destruct (gnm_inv_facts _ _ _ Hinv) as (Hnodes & _ & Hedges & _ & _ & _ & Hloops & _).
    split_and!; try done. by apply Hinv.
  - intros ds. destruct (create_random_topology_can_return n m ds) as (draws & fuel & Hcan).
    exists draws, fuel. intros s Hs. destruct (Hcan s Hs) as (g & t & Hrun & _). by eauto.
Qed.

End generation_more.

(** ** Listings of a copy *)

Section listing_of_copy.
Import graph.
Implicit Types (G : ref) (g : Graph) (s : state) (u v n m c k a b : nat)
  (hn nlist : list nat) (he : list edge).

(** Two dictionaries with the same keys are listed in the same order
    (networkx: a copy is filled in the order of the original). *)
Lemma map_to_list_related {A B} (R : A → B → Prop) (m1 : gmap nat A) (m2 : gmap nat B) :
  (∀ i, option_Forall2 R (m1 !! i) (m2 !! i)) →
  Forall2 (λ p q, p.1 = q.1 ∧ R p.2 q.2) (map_to_list m1) (map_to_list m2).
Proof.
  revert m2. induction m1 as [|i x m Hi Hfirst IH] using map_first_key_ind; intros m2 Hrel.
  - assert (m2 = ∅) as ->.
    { apply map_empty. intros i. specialize (Hrel i). rewrite lookup_empty in Hrel.
      by inversion Hrel. }
    rewrite !map_to_list_empty. constructor.
  - pose proof (Hrel i) as Hreli. rewrite lookup_insert_eq in Hreli.
    inversion Hreli as [? y Hxy Heq1 Heq2|]; subst. symmetry in Heq2.
    assert (map_first_key m2 i) as Hfirst2.
    { apply (map_first_key_dom' (<[i:=x]> m) m2); [|done].
      intros j. specialize (Hrel j). split; intros [? Hj]; rewrite Hj in Hrel;
        inversion Hrel; by eauto. }
    rewrite (map_to_list_insert_first_key m i x Hi Hfirst).
    rewrite (map_to_list_delete_first_key m2 i y Heq2 Hfirst2).
    constructor; [done|]. apply IH. intros j. destruct (decide (j = i)) as [->|Hne].
    + rewrite Hi, lookup_delete_eq. constructor.
    + specialize (Hrel j). by rewrite lookup_insert_ne, <- (lookup_delete_ne m2 i j) in Hrel.
Qed.

Lemma map_to_list_same_keys {A B} (m1 : gmap nat A) (m2 : gmap nat B) :
  (∀ i, is_Some (m1 !! i) ↔ is_Some (m2 !! i)) →
  (map_to_list m1).*1 = (map_to_list m2).*1.
Proof.
  intros Hkeys.
  assert (Forall2 (λ p q, p.1 = q.1 ∧ True) (map_to_list m1) (map_to_list m2)) as Hall.
  { apply (map_to_list_related (λ _ _, True)). intros i. specialize (Hkeys i).
    destruct (m1 !! i), (m2 !! i); try by constructor.
    - destruct Hkeys as [Hk _]. by destruct Hk.
    - destruct Hkeys as [_ Hk]. by destruct Hk. }
  induction Hall as [|p q l1 l2 [Hpq _] _ IH]; [done|]. rewrite !fmap_cons. by f_equal.
Qed.

Lemma edges_from_same_keys (l1 l2 : list (nat * gmap nat attrs)) seen :
  Forall2 (λ p q, p.1 = q.1 ∧ ∀ i, is_Some (p.2 !! i) ↔ is_Some (q.2 !! i)) l1 l2 →
  edges_from l1 seen = edges_from l2 seen.
Proof.
  intros Hall. revert seen.
  induction Hall as [|[n1 nbrs1] [n2 nbrs2] l1 l2 [Hn Hkeys] _ IH]; intros seen; [done|].
  simpl in *. subst. by rewrite (map_to_list_same_keys nbrs1 nbrs2 Hkeys), IH.
Qed.

(** A graph with the nodes and the edges of [g], such as a marked copy of
    [g], lists them as [g] does. *)
Lemma nodes_same_shape g g' :
  (∀ n, has_node g' n = has_node g n) → nodes g' = nodes g.
Proof.
  intros Hn. apply map_to_list_same_keys. intros n.
  pose proof (has_node_attrs g n) as H1. pose proof (has_node_attrs g' n) as H2.
  unfold node_attrs in *. by rewrite <- H1, <- H2, Hn.
Qed.

Lemma edges_same_shape g g' :
  wf g → wf g' →
  (∀ n, has_node g' n = has_node g n) →
  (∀ u v, has_edge g' u v = has_edge g u v) →
  edges g' = edges g.
Proof.
  intros [Hdom _] [Hdom' _] Hn He. apply edges_from_same_keys.
  apply (map_to_list_related
           (λ nbrs1 nbrs2 : gmap nat attrs, ∀ i, is_Some (nbrs1 !! i) ↔ is_Some (nbrs2 !! i))).
  intros u.
  assert (is_Some (_adj g' !! u) ↔ is_Some (_adj g !! u)) as Hu.
  { rewrite <- !elem_of_dom, Hdom, Hdom', !elem_of_dom.
    pose proof (has_node_attrs g u) as H1. pose proof (has_node_attrs g' u) as H2.
    unfold node_attrs in *. by rewrite <- H1, <- H2, Hn. }
  destruct (_adj g' !! u) as [nbrs'|] eqn:Hu', (_adj g !! u) as [nbrs|] eqn:Hu0.
  - constructor. intros v.
    pose proof (has_edge_attrs g u v) as H1. pose proof (has_edge_attrs g' u v) as H2.
    unfold edge_attrs in *. rewrite Hu0 in H1. rewrite Hu' in H2. simpl in *.
    by rewrite <- H1, <- H2, He.
  - destruct Hu as [Hu _]. by destruct Hu.
  - destruct Hu as [_ Hu]. by destruct Hu.
  - constructor.
Qed.

End listing_of_copy.

(** ** The whole pipeline and the main program *)

Section main_program.
Import graph.
Implicit Types (G : ref) (g : Graph) (s : state) (u v n m c k a b : nat)
  (hn nlist : list nat) (he : list edge).

Lemma norm_swap a b : norm (b, a) = norm (a, b).
Proof. unfold norm; simpl. f_equal; lia. Qed.

Lemma NoDup_norm_drawn g he : he ⊆+ edges g → NoDup (norm <$> he).
Proof.
  intros Hsub. eapply submseteq_NoDup; [by apply fmap_submseteq | apply NoDup_norm_edges].
Qed.

(** Edges that are all there are counted. *)
Lemma number_of_edges_at_least g g' he :
  wf g' → he ⊆+ edges g →
  (∀ u v, (u, v) ∈ he → is_Some (edge_attrs g' u v)) →
  length he ≤ number_of_edges g'.
Proof.
  intros Hwf Hsub Hin. rewrite number_of_edges_length by done.
  rewrite <- (length_fmap norm he), <- (length_fmap norm (edges g')).
  apply submseteq_length, NoDup_submseteq; [by eapply NoDup_norm_drawn|].
  intros [a b] ([c d] & Heq & Hcd)%list_elem_of_fmap. rewrite Heq.
  apply Hin in Hcd.
  destruct (edge_attrs_elem_of_edges _ _ _ Hwf Hcd) as [?|?];
    apply list_elem_of_fmap; [by exists (c, d) | exists (d, c)].
  by rewrite norm_swap.
Qed.

(** How many nodes and edges of a marked graph carry the mark. *)
Lemma marked_nodes_count g hn :
  NoDup hn → (∀ n, node_hidden g n = true ↔ n ∈ hn) →
  (∀ n, n ∈ hn → is_Some (node_attrs g n)) →
  length (filter (λ n, node_hidden g n = true) (nodes g)) = length hn.
Proof.
  intros Hnd Hmark Hin. apply Permutation_length, NoDup_Permutation;
    [apply NoDup_filter, NoDup_nodes | done |].
  intros n. rewrite list_elem_of_filter, elem_of_nodes, Hmark. split; [tauto | by auto].
Qed.

Lemma marked_edges_count g g' he :
  wf g' → he ⊆+ edges g →
  (∀ u v, edge_hidden g' u v = true ↔ (u, v) ∈ he ∨ (v, u) ∈ he) →
  (∀ u v, (u, v) ∈ he → is_Some (edge_attrs g' u v)) →
  length (filter (λ e, edge_hidden g' e.1 e.2 = true) (edges g')) = length he.
Proof.
  intros Hwf Hsub Hmark Hin.
  rewrite <- (length_fmap norm (filter _ _)), <- (length_fmap norm he).
  apply Permutation_length, NoDup_Permutation.
  - eapply submseteq_NoDup; [|apply (NoDup_norm_edges g')].
    apply fmap_submseteq, sublist_submseteq, sublist_filter.
  - by eapply NoDup_norm_drawn.
  - intros [a b]. rewrite !list_elem_of_fmap. split.
    + intros ([c d] & Heq & [Hh%Hmark _]%list_elem_of_filter). simpl in Hh.
      destruct Hh as [?|?]; [by exists (c, d) | exists (d, c)].
      by rewrite norm_swap.
    + intros ([c d] & Heq & Hcd).
      destruct (edge_attrs_elem_of_edges _ _ _ Hwf (Hin _ _ Hcd)) as [?|?].
      * exists (c, d). split; [done|]. apply list_elem_of_filter. split; [|done].
        simpl. apply Hmark. by left.
      * exists (d, c). rewrite norm_swap. split; [done|].
        apply list_elem_of_filter. split; [|done]. simpl. apply Hmark. by right.
Qed.

(** The four calls of the main program, from a generated graph on. *)
Lemma pipeline_run G g hide_ratio s :
  heap s !! G = Some g → wf g → (0 <= hide_ratio)%Q → (hide_ratio <= 1)%Q →
  ∃ hn he g_marked t,
    let g_anonymous := remove_edges_from he (remove_nodes_from hn g) in
    let g_restored := add_edges_from he (add_nodes_from hn g_anonymous) in
    (apply_anonymous_routing G hide_ratio s
     = Ok (length (heap s), hn, he) {| heap := heap s ++ [g_anonymous]; rng := t |})
    ∧ (mark_anonymous_routes G hn he {| heap := heap s ++ [g_anonymous]; rng := t |}
       = Ok (S (length (heap s)))
            {| heap := heap s ++ [g_anonymous; g_marked]; rng := t |})
    ∧ (restore_topology (length (heap s)) hn he
         {| heap := heap s ++ [g_anonymous; g_marked]; rng := t |}
       = Ok (S (S (length (heap s))))
            {| heap := heap s ++ [g_anonymous; g_marked; g_restored]; rng := t |})
    ∧ Z.of_nat (length hn) = int (scale hide_ratio (number_of_nodes g))
    ∧ hn ⊆+ nodes g
    ∧ Z.of_nat (length he) = int (scale hide_ratio (number_of_edges g))
    ∧ he ⊆+ edges g
    ∧ wf g_marked
    ∧ (∀ k, node_attrs g_marked k
            = if decide (k ∈ hn) then <["hidden" := true]> <$> node_attrs g k
              else node_attrs g k)
    ∧ (∀ a b, edge_attrs g_marked a b
              = if decide ((a, b) ∈ he ∨ (b, a) ∈ he)
                then <["hidden" := true]> <$> edge_attrs g a b
                else edge_attrs g a b).
Proof.
  intros HG Hwf H0 H1.
  destruct (apply_anonymous_routing_in_range G g hide_ratio s HG Hwf H0 H1)
    as (hn & he & t & Hrun & Hlen1 & Hhn & Hlen2 & Hhe).
  set (ga := remove_edges_from he (remove_nodes_from hn g)) in *.
  set (s1 := {| heap := heap s ++ [ga]; rng := t |}) in *.
  destruct (mark_anonymous_routes_run_wf G g hn he s1) as (gm & Hrun2 & Hwfm & Hn & He);
    [by apply lookup_app_l_Some | done | | |].
  { intros ??. by eapply drawn_nodes_present. }
  { intros ???. by eapply drawn_edges_present. }
  exists hn, he, gm, t. cbn zeta. fold ga.
  assert (∀ x y : Graph, (heap s ++ [x]) ++ [y] = heap s ++ [x; y]) as Happ
    by (intros; by rewrite <- app_assoc).
  assert (length (heap s1) = S (length (heap s))) as Hlen
    by (cbn [heap s1]; rewrite length_app; simpl; lia).
  split; [exact Hrun|]. split.
  { etrans; [exact Hrun2|]. rewrite Hlen. cbn [heap rng s1]. by rewrite Happ. }
  split.
  { rewrite (restore_topology_run _ ga).
    - cbn [heap rng]. rewrite length_app. cbn [length]. rewrite <- app_assoc.
      do 2 f_equal. lia.
    - cbn [heap]. rewrite <- Happ. apply lookup_app_l_Some, lookup_last. }
  done.
Qed.

(** What the three graphs of the pipeline look like. *)
Lemma pipeline_facts g hn he g_marked :
  wf g → hn ⊆+ nodes g → he ⊆+ edges g → wf g_marked →
  (∀ k, node_attrs g_marked k
        = if decide (k ∈ hn) then <["hidden" := true]> <$> node_attrs g k
          else node_attrs g k) →
  (∀ a b, edge_attrs g_marked a b
          = if decide ((a, b) ∈ he ∨ (b, a) ∈ he)
            then <["hidden" := true]> <$> edge_attrs g a b
            else edge_attrs g a b) →
  let g_anonymous := remove_edges_from he (remove_nodes_from hn g) in
  let g_restored := add_edges_from he (add_nodes_from hn g_anonymous) in
  wf g_anonymous ∧ wf g_restored
  ∧ number_of_nodes g_anonymous + length hn = number_of_nodes g
  ∧ number_of_edges g_anonymous + length he ≤ number_of_edges g
  ∧ (∀ n, has_node g_marked n = has_node g n)
  ∧ (∀ u v, has_edge g_marked u v = has_edge g u v)
  ∧ (attribute_free g →
     length (filter (λ n, node_hidden g_marked n = true) (nodes g_marked)) = length hn
     ∧ length (filter (λ e, edge_hidden g_marked e.1 e.2 = true) (edges g_marked))
       = length he)
  ∧ number_of_nodes g_restored = number_of_nodes g
  ∧ length he ≤ number_of_edges g_restored ≤ number_of_edges g.
Proof.
  intros Hwf Hhn Hhe Hwfm Hmn Hme ga gr.
  assert (∀ n, n ∈ hn → is_Some (node_attrs g n)) as Hhn'
    by (intros ??; by eapply drawn_nodes_present).
  assert (∀ u v, (u, v) ∈ he → is_Some (edge_attrs g u v)) as Hhe'
    by (intros ???; by eapply drawn_edges_present).
  assert (NoDup hn) as Hnd by (eapply submseteq_NoDup; [done | apply NoDup_nodes]).
  assert (wf ga) as Hwfa by by apply wf_remove_edges_from, wf_remove_nodes_from.
  assert (wf gr) as Hwfr by by apply wf_add_edges_from, wf_add_nodes_from.
  split_and!; [done | done | | | | | | | |].
  - rewrite (number_of_nodes_ext ga (remove_nodes_from hn g)).
    + by apply number_of_nodes_remove_nodes_from.
    + intros n. apply has_node_eq. unfold ga. by rewrite node_attrs_remove_edges_from.
  - apply (number_of_edges_without g ga he Hwf Hwfa Hhe).
    intros u v. unfold ga. rewrite concealed_edge_attrs by done.
    destruct (decide _); [by intros [? ?] | tauto].
  - intros n. apply has_node_eq. rewrite Hmn. destruct (decide _); [|done].
    by rewrite fmap_is_Some.
  - intros u v. apply has_edge_eq. rewrite Hme. destruct (decide _); [|done].
    by rewrite fmap_is_Some.
  - intros Hfree. destruct (attribute_free_not_hidden g Hfree) as [Hfn Hfe]. split.
    + apply marked_nodes_count; [done | |].
      * intros n. rewrite (node_hidden_marked g g_marked hn n Hhn' (Hmn n)), Hfn.
        split; [by intros [?|?] | by left].
      * intros n Hn. rewrite Hmn, decide_True by done. by apply fmap_is_Some, Hhn'.
    + apply (marked_edges_count g); [done | done | |].
      * intros u v. rewrite (edge_hidden_marked g g_marked he u v Hhe' Hwf (Hme u v)), Hfe.
        split; [by intros [?|?] | by left].
      * intros u v Hin. rewrite Hme, decide_True by auto. by apply fmap_is_Some, Hhe'.
  - apply number_of_nodes_ext. intros n. apply has_node_eq. by apply restored_node_attrs.
  - apply (number_of_edges_at_least g); [done | done |].
    intros u v Hin. unfold gr, ga. rewrite restored_edge_attrs by done. left. by left.
  - apply number_of_edges_mono; [done | done |].
    intros u v. rewrite !has_edge_attrs. unfold gr, ga.
    rewrite restored_edge_attrs by done. intros [[?|?]|[? _]]; [| |done].
    + by apply Hhe'.
    + rewrite (wf_sym _ _ _ Hwf). by apply Hhe'.
Qed.


(** A drawing without hidden lists. *)
Lemma draw_topology_plain G g title s :
  heap s !! G = Some g → wf g →
  draw_topology G title None None s
  = Ok {| plot_title := title;
          node_color := replicate (number_of_nodes g) "lightblue";
          edge_color := replicate (number_of_edges g) "gray" |} s.
Proof.
  intros HG Hwf. rewrite (draw_topology_run G g) by done.
  rewrite <- length_nodes, (number_of_edges_length g Hwf). do 2 f_equal.
  - by apply const_fmap.
  - by apply const_fmap.
Qed.

(** A list in two colours. *)
Lemma length_two_colours {A} (f : A → bool) (c1 c2 : string) (l : list A) :
  c1 ≠ c2 →
  length (filter (λ col : string, col = c1) ((λ x, if f x then c1 else c2) <$> l))
  + length (filter (λ col : string, col = c2) ((λ x, if f x then c1 else c2) <$> l))
  = length l.
Proof.
  intros Hne. induction l as [|x l IH]; [done|].
  rewrite fmap_cons, !filter_cons. destruct (f x).
  - rewrite decide_True by done. rewrite decide_False by done. simpl. lia.
  - rewrite decide_False by congruence. rewrite decide_True by done. simpl. lia.
Qed.

(** The main program from a generated graph on. *)
Lemma main_from_topology fuel g t s :
  create_random_topology fuel 20 30 s
  = Ok (length (heap s)) {| heap := heap s ++ [g]; rng := t |} →
  gnm_inv 20 30 g → attribute_free g →
  ∃ g_anonymous g_marked g_restored t' p_marked,
    main fuel s
    = Ok (length (heap s), S (length (heap s)), S (S (length (heap s))),
          S (S (S (length (heap s)))))
         {| heap := heap s ++ [g; g_anonymous; g_marked; g_restored]; rng := t' |}
    ∧ main_figures fuel s
      = Ok [ {| plot_title := "Original Topology";
                node_color := replicate 20 "lightblue";
                edge_color := replicate 30 "gray" |};
             {| plot_title := "Topology After Anonymous Routing (Hide Ratio: 0.3)";
                node_color := replicate 14 "lightblue";
                edge_color := replicate (number_of_edges g_anonymous) "gray" |};
             p_marked;
             {| plot_title := "Restored Topology";
                node_color := replicate 20 "lightblue";
                edge_color := replicate (number_of_edges g_restored) "gray" |} ]
           {| heap := heap s ++ [g; g_anonymous; g_marked; g_restored]; rng := t' |}
    ∧ number_of_nodes g = 20 ∧ number_of_edges g = 30
    ∧ number_of_nodes g_anonymous = 14 ∧ number_of_edges g_anonymous ≤ 21
    ∧ (∀ n, has_node g_marked n = has_node g n)
    ∧ (∀ u v, has_edge g_marked u v = has_edge g u v)
    ∧ length (filter (λ n, node_hidden g_marked n = true) (nodes g_marked)) = 6
    ∧ length (filter (λ e, edge_hidden g_marked e.1 e.2 = true) (edges g_marked)) = 9
    ∧ number_of_nodes g_restored = 20
    ∧ 9 ≤ number_of_edges g_restored ≤ 30
    ∧ plot_title p_marked = "Topology with Marked Anonymous Routes"
    ∧ length (node_color p_marked) = 20
    ∧ length (filter (λ col : string, col = "red") (node_color p_marked)) = 6
    ∧ length (filter (λ col : string, col = "lightblue") (node_color p_marked)) = 14
    ∧ length (edge_color p_marked) = 30
    ∧ length (filter (λ col : string, col = "red") (edge_color p_marked)) = 9
    ∧ length (filter (λ col : string, col = "gray") (edge_color p_marked)) = 21.
Proof.
  intros Hcreate Hinv Hfree.
  destruct (gnm_inv_facts _ _ _ Hinv) as (_ & Hnodes & Hedges & _).
  pose proof Hinv as (Hwf & _).
  set (s1 := {| heap := heap s ++ [g]; rng := t |}) in *.
  assert (heap s1 !! length (heap s) = Some g) as HG by apply lookup_last.
  destruct (pipeline_run (length (heap s)) g (3 # 10) s1)
    as (hn & he & gm & t' & Hrun1 & Hrun2 & Hrun3 & Hlen1 & Hhn & Hlen2 & Hhe
        & Hwfm & Hmn & Hme); [done | done | done | done |].
  destruct (pipeline_facts g hn he gm Hwf Hhn Hhe Hwfm Hmn Hme)
    as (Hwfa & Hwfr & Hna & Hea & Hsn & Hse & Hmarks & Hnr & Her).
  destruct (Hmarks Hfree) as [Hmarkn Hmarke].
  cbn zeta in Hrun1, Hrun2, Hrun3, Hwfa, Hwfr, Hna, Hea, Hnr, Her.
  set (ga := remove_edges_from he (remove_nodes_from hn g)) in *.
  set (gr := add_edges_from he (add_nodes_from hn ga)) in *.
  assert (length (heap s1) = S (length (heap s))) as Hlen
    by (cbn [heap s1]; rewrite length_app; simpl; lia).
  rewrite Hlen in Hrun1, Hrun2, Hrun3.
  assert (∀ l : list Graph, heap s1 ++ l = heap s ++ g :: l) as Happ
    by (intros; cbn [heap s1]; by rewrite <- app_assoc).
  rewrite Happ in Hrun1. do 2 rewrite Happ in Hrun2, Hrun3.
  assert (length hn = 6) as Hhn6.
  { apply Nat2Z.inj. rewrite Hlen1, Hnodes. by vm_compute. }
  assert (length he = 9) as Hhe9.
  { apply Nat2Z.inj. rewrite Hlen2, Hedges. by vm_compute. }
  rewrite Hhn6, Hnodes in *. rewrite Hhe9, Hedges in *.
  assert (number_of_nodes ga = 14) as Hna14 by lia.
  set (colour_n := λ node : nat, if listed (Some hn) node then "red" else "lightblue").
  set (colour_e := λ edge : edge, if listed (Some he) edge then "red" else "gray").
  set (p3 := {| plot_title := "Topology with Marked Anonymous Routes";
                node_color := colour_n <$> nodes gm;
                edge_color := colour_e <$> edges gm |}).
  assert (∀ (l : list Graph) i j x, j = length (heap s) + i → l !! i = Some x →
            (heap s ++ l) !! j = Some x) as Hlook.
  { intros l i j x -> Hi. rewrite lookup_app_r by lia. rewrite <- Hi. f_equal. lia. }
  assert (length (colour_n <$> nodes gm) = 20) as Hln.
  { by rewrite length_fmap, (nodes_same_shape g gm Hsn), length_nodes. }
  assert (length (colour_e <$> edges gm) = 30) as Hle.
  { rewrite length_fmap, (edges_same_shape g gm Hwf Hwfm Hsn Hse).
    by rewrite <- number_of_edges_length. }
  assert (length (filter (λ col : string, col = "red") (colour_n <$> nodes gm)) = 6) as Hrn.
  { unfold colour_n. rewrite length_filter_colour by done.
    rewrite (nodes_same_shape g gm Hsn), <- Hhn6.
    apply length_filter_listed; [|apply NoDup_nodes|].
    - eapply submseteq_NoDup; [done | apply NoDup_nodes].
    - intros n Hn. by eapply elem_of_submseteq. }
  assert (length (filter (λ col : string, col = "red") (colour_e <$> edges gm)) = 9) as Hre.
  { unfold colour_e. rewrite length_filter_colour by done.
    rewrite (edges_same_shape g gm Hwf Hwfm Hsn Hse), <- Hhe9.
    apply length_filter_listed; [|apply NoDup_edges|].
    - eapply submseteq_NoDup; [done | apply NoDup_edges].
    - intros e He. by eapply elem_of_submseteq. }
  pose proof (length_two_colours (listed (Some hn)) "red" "lightblue" (nodes gm)
                ltac:(done)) as Hcn.
  pose proof (length_two_colours (listed (Some he)) "red" "gray" (edges gm)
                ltac:(done)) as Hce.
  fold colour_n in Hcn. fold colour_e in Hce.
  rewrite <- (length_fmap colour_n (nodes gm)) in Hcn.
  rewrite <- (length_fmap colour_e (edges gm)) in Hce.
  exists ga, gm, gr, t', p3. split.
  { unfold main. cbn zeta. rewrite (bind_Ok _ _ _ _ _ Hcreate).
    rewrite (bind_Ok _ _ _ _ _ Hrun1). cbn beta iota.
    rewrite (bind_Ok _ _ _ _ _ Hrun2). cbn beta.
    by rewrite (bind_Ok _ _ _ _ _ Hrun3). }
  split.
  { unfold main_figures. cbn zeta. rewrite (bind_Ok _ _ _ _ _ Hcreate).
    erewrite bind_Ok; [|by apply (draw_topology_plain _ g)]. cbn beta.
    rewrite (bind_Ok _ _ _ _ _ Hrun1). cbn beta iota.
    erewrite bind_Ok; [|apply (draw_topology_plain _ ga); [|done]]; cycle 1.
    { cbn [heap]. apply (Hlook _ 1); [lia | done]. }
    cbn beta. rewrite (bind_Ok _ _ _ _ _ Hrun2). cbn beta.
    erewrite bind_Ok; [|apply (draw_topology_run _ gm)]; cycle 1.
    { cbn [heap]. apply (Hlook _ 2); [lia | done]. }
    cbn beta. rewrite (bind_Ok _ _ _ _ _ Hrun3). cbn beta.
    erewrite bind_Ok; [|apply (draw_topology_plain _ gr); [|done]]; cycle 1.
    { cbn [heap]. apply (Hlook _ 3); [lia | done]. }
    cbn beta. by rewrite Hnodes, Hedges, Hna14, Hnr. }
  cbn [plot_title node_color edge_color p3].
  split_and!; try done; lia.
Qed.

(** X18.  The main program (20 nodes, 30 edges, ratio 3/10), on any tape and
    any store: it never raises.  When it returns, it has allocated four
    graphs: the topology with 20 nodes and 30 edges; the concealed graph with
    14 nodes and at most 21 edges; the marked graph, with the nodes and edges
    of the topology, 6 nodes and 9 edges marked; the restored graph with 20
    nodes and between 9 and 30 edges.  And whatever the tape begins with, it
    can be continued so that the program returns. *)
Theorem main_correct :
  (∀ fuel s,
     main fuel s = OutOfFuel
     ∨ ∃ g g_anonymous g_marked g_restored t,
         main fuel s
         = Ok (length (heap s), S (length (heap s)), S (S (length (heap s))),
               S (S (S (length (heap s)))))
              {| heap := heap s ++ [g; g_anonymous; g_marked; g_restored]; rng := t |}
         ∧ number_of_nodes g = 20 ∧ number_of_edges g = 30
         ∧ number_of_nodes g_anonymous = 14 ∧ number_of_edges g_anonymous ≤ 21
         ∧ (∀ n, has_node g_marked n = has_node g n)
         ∧ (∀ u v, has_edge g_marked u v = has_edge g u v)
         ∧ length (filter (λ n, node_hidden g_marked n = true) (nodes g_marked)) = 6
         ∧ length (filter (λ e, edge_hidden g_marked e.1 e.2 = true)
                     (edges g_marked)) = 9
         ∧ number_of_nodes g_restored = 20
         ∧ 9 ≤ number_of_edges g_restored ≤ 30)
  ∧ (∀ ds : list nat,
       ∃ draws fuel, ∀ s,
         tape_starts_with (ds ++ draws) s → ∃ out s', main fuel s = Ok out s').
Proof.
  split.
  - intros fuel s.
    destruct (create_random_topology_run fuel 20 30 s)
      as [Hout|(g & t & Hrun & Hinv & Hfree)].
    + left. unfold main. cbn zeta. by apply bind_OutOfFuel.
    + right. change (30 `min` (20 * (20 - 1) / 2)) with 30 in Hinv.
      destruct (main_from_topology fuel g t s Hrun Hinv Hfree)
        as (ga & gm & gr & t' & p & Hmain & _ & Hfacts).
      exists g, ga, gm, gr, t'. split; [done|]. tauto.
  - intros ds.
    destruct (create_random_topology_can_return 20 30 ds) as (draws & fuel & Hcan).
    exists draws, fuel. intros s Hs.
    destruct (Hcan s Hs) as (g & t & Hrun & Hinv).
    change (30 `min` (20 * (20 - 1) / 2)) with 30 in Hinv.
    destruct (create_random_topology_run fuel 20 30 s)
      as [Hout|(g' & t' & Hrun' & _ & Hfree)]; [congruence|].
    rewrite Hrun in Hrun'. injection Hrun' as Hg _.
    apply app_inj_tail in Hg as [_ <-].
    destruct (main_from_topology fuel g t s Hrun Hinv Hfree)
      as (ga & gm & gr & t'' & p & Hmain & _). by eauto.
Qed.

(** X19.  The figures of the main program, on any tape and any store: it
    never raises, and when it returns it has shown four figures and left
    the store as the program without drawing does.  The first has 20
    lightblue nodes and 30 gray edges; the second 14 lightblue nodes and at
    most 21 edges, all gray; the third 20 nodes, 6 red and 14 lightblue, and
    30 edges, 9 red and 21 gray; the fourth 20 lightblue nodes and between 9
    and 30 edges, all gray.  And whatever the tape begins with, it can be
    continued so that the program returns. *)
Theorem main_figures_correct :
  (∀ fuel s,
     main_figures fuel s = OutOfFuel
     ∨ ∃ p_marked k_anonymous k_restored out s',
         main_figures fuel s
         = Ok [ {| plot_title := "Original Topology";
                   node_color := replicate 20 "lightblue";
                   edge_color := replicate 30 "gray" |};
                {| plot_title := "Topology After Anonymous Routing (Hide Ratio: 0.3)";
                   node_color := replicate 14 "lightblue";
                   edge_color := replicate k_anonymous "gray" |};
                p_marked;
                {| plot_title := "Restored Topology";
                   node_color := replicate 20 "lightblue";
                   edge_color := replicate k_restored "gray" |} ] s'
         ∧ main fuel s = Ok out s'
         ∧ k_anonymous ≤ 21 ∧ 9 ≤ k_restored ≤ 30
         ∧ plot_title p_marked = "Topology with Marked Anonymous Routes"
         ∧ length (node_color p_marked) = 20
         ∧ length (filter (λ col : string, col = "red") (node_color p_marked)) = 6
         ∧ length (filter (λ col : string, col = "lightblue") (node_color p_marked)) = 14
         ∧ length (edge_color p_marked) = 30
         ∧ length (filter (λ col : string, col = "red") (edge_color p_marked)) = 9
         ∧ length (filter (λ col : string, col = "gray") (edge_color p_marked)) = 21)
  ∧ (∀ ds : list nat,
       ∃ draws fuel, ∀ s,
         tape_starts_with (ds ++ draws) s → ∃ out s', main_figures fuel s = Ok out s').
Proof.
  split.
  - intros fuel s.
    destruct (create_random_topology_run fuel 20 30 s)
      as [Hout|(g & t & Hrun & Hinv & Hfree)].
    + left. unfold main_figures. cbn zeta. by apply bind_OutOfFuel.
    + right. change (30 `min` (20 * (20 - 1) / 2)) with 30 in Hinv.
      destruct (main_from_topology fuel g t s Hrun Hinv Hfree)
        as (ga & gm & gr & t' & p & Hmain & Hfig & Hfacts).
      exists p, (number_of_edges ga), (number_of_edges gr). eexists _, _.
      split; [exact Hfig|]. split; [exact Hmain|]. tauto.
  - intros ds.
    destruct (create_random_topology_can_return 20 30 ds) as (draws & fuel & Hcan).
    exists draws, fuel. intros s Hs.
    destruct (Hcan s Hs) as (g & t & Hrun & Hinv).
    change (30 `min` (20 * (20 - 1) / 2)) with 30 in Hinv.
    destruct (create_random_topology_run fuel 20 30 s)
      as [Hout|(g' & t' & Hrun' & _ & Hfree)]; [congruence|].
    rewrite Hrun in Hrun'. injection Hrun' as Hg _.
    apply app_inj_tail in Hg as [_ <-].
    destruct (main_from_topology fuel g t s Hrun Hinv Hfree)
      as (ga & gm & gr & t'' & p & _ & Hfig & _). by eauto.
Qed.

End main_program.

(** ** The further properties at sample inputs *)



Lemma conceal_nothing_witness :
  heap one_edge_state !! 0 = Some single_edge ∧ graph.wf single_edge
  ∧ ∃ t, apply_anonymous_routing 0 0 one_edge_state
         = Ok (length (heap one_edge_state), [], [])
              {| heap := heap one_edge_state ++ [single_edge]; rng := t |}
         ∧ 0 ≠ length (heap one_edge_state).
Proof.
  assert (graph.wf single_edge) as Hwf by (apply wfb_wf; by vm_compute).
  split_and!; [reflexivity | done |].
  apply (conceal_nothing 0 single_edge one_edge_state); [reflexivity | done].
Defined.

Lemma restore_result_witness :
  heap one_edge_state !! 0 = Some single_edge ∧ graph.wf single_edge
  ∧ ∃ g_restored,
      restore_topology 0 [2] [(1, 3)] one_edge_state
      = Ok (length (heap one_edge_state))
           {| heap := heap one_edge_state ++ [g_restored]; rng := rng one_edge_state |}
      ∧ graph.wf g_restored
      ∧ (∀ n, graph.has_node g_restored n = true ↔
              graph.has_node single_edge n = true ∨ n ∈ [2]
              ∨ n ∈ graph.endpoints [(1, 3)])
      ∧ (∀ u v, graph.has_edge g_restored u v = true ↔
                graph.has_edge single_edge u v = true
                ∨ (u, v) ∈ [(1, 3)] ∨ (v, u) ∈ [(1, 3)])
      ∧ (∀ n, graph.node_attrs g_restored n
              = if graph.has_node single_edge n then graph.node_attrs single_edge n
                else if graph.has_node g_restored n then Some ∅ else None)
      ∧ (∀ u v, graph.edge_attrs g_restored u v
                = if graph.has_edge single_edge u v then graph.edge_attrs single_edge u v
                  else if graph.has_edge g_restored u v then Some ∅ else None).
Proof.
  assert (graph.wf single_edge) as Hwf by (apply wfb_wf; by vm_compute).
  split_and!; [reflexivity | done |].
  apply (restore_result 0 single_edge [2] [(1, 3)] one_edge_state); [reflexivity | done].
Defined.

Lemma restore_present_noop_witness :
  heap one_edge_state !! 0 = Some single_edge ∧ graph.wf single_edge
  ∧ (∀ n, n ∈ [1] → graph.has_node single_edge n = true)
  ∧ (∀ u v, (u, v) ∈ [(1, 0)] → graph.has_edge single_edge u v = true)
  ∧ restore_topology 0 [1] [(1, 0)] one_edge_state
    = Ok (length (heap one_edge_state))
         {| heap := heap one_edge_state ++ [single_edge]; rng := rng one_edge_state |}.
Proof.
  assert (graph.wf single_edge) as Hwf by (apply wfb_wf; by vm_compute).
  assert (∀ n, n ∈ [1] → graph.has_node single_edge n = true) as Hhn
    by (intros n ->%list_elem_of_singleton; reflexivity).
  assert (∀ u v, (u, v) ∈ [(1, 0)] → graph.has_edge single_edge u v = true) as Hhe
    by (intros u v [= -> ->]%list_elem_of_singleton; reflexivity).
  split_and!; [reflexivity | done | done | done |].
  apply (restore_present_noop 0 single_edge [1] [(1, 0)] one_edge_state);
    [reflexivity | done | done | done].
Defined.


Lemma round_trip_at_one_witness :
  heap one_edge_state !! 0 = Some single_edge ∧ graph.wf single_edge
  ∧ ∃ G_anonymous hidden_nodes hidden_edges s1 G_restored s2 g_restored,
      apply_anonymous_routing 0 1 one_edge_state
      = Ok (G_anonymous, hidden_nodes, hidden_edges) s1
      ∧ restore_topology G_anonymous hidden_nodes hidden_edges s1 = Ok G_restored s2
      ∧ heap s2 !! G_restored = Some g_restored
      ∧ (∀ n, graph.has_node g_restored n = graph.has_node single_edge n)
      ∧ (∀ u v, graph.has_edge g_restored u v = graph.has_edge single_edge u v)
      ∧ (attribute_free single_edge → g_restored = single_edge).
Proof.
  assert (graph.wf single_edge) as Hwf by (apply wfb_wf; by vm_compute).
  split_and!; [reflexivity | done |].
  apply (round_trip_at_one 0 single_edge one_edge_state); [reflexivity | done].
Defined.

Lemma round_trip_at_zero_witness :
  heap one_edge_state !! 0 = Some single_edge ∧ graph.wf single_edge
  ∧ ∃ G_anonymous hidden_nodes hidden_edges s1 G_restored s2,
      apply_anonymous_routing 0 0 one_edge_state
      = Ok (G_anonymous, hidden_nodes, hidden_edges) s1
      ∧ restore_topology G_anonymous hidden_nodes hidden_edges s1 = Ok G_restored s2
      ∧ heap s2 !! G_restored = Some single_edge
      ∧ heap s2 !! 0 = Some single_edge.
Proof.
  assert (graph.wf single_edge) as Hwf by (apply wfb_wf; by vm_compute).
  split_and!; [reflexivity | done |].
  apply (round_trip_at_zero 0 single_edge one_edge_state); [reflexivity | done].
Defined.

Lemma mark_leaves_input_witness :
  heap one_edge_state !! 0 = Some single_edge ∧ graph.wf single_edge
  ∧ (∀ n, n ∈ [1] → graph.has_node single_edge n = true)
  ∧ (∀ u v, (u, v) ∈ [(1, 0)] → graph.has_edge single_edge u v = true)
  ∧ ∃ g_marked,
      mark_anonymous_routes 0 [1] [(1, 0)] one_edge_state
      = Ok (length (heap one_edge_state))
           {| heap := heap one_edge_state ++ [g_marked]; rng := rng one_edge_state |}
      ∧ graph.wf g_marked
      ∧ (∀ n key, key ≠ "hidden" →
           (graph.node_attrs g_marked n ≫= (.!! key))
           = (graph.node_attrs single_edge n ≫= (.!! key)))
      ∧ (∀ u v key, key ≠ "hidden" →
           (graph.edge_attrs g_marked u v ≫= (.!! key))
           = (graph.edge_attrs single_edge u v ≫= (.!! key))).
Proof.
  assert (graph.wf single_edge) as Hwf by (apply wfb_wf; by vm_compute).
  assert (∀ n, n ∈ [1] → graph.has_node single_edge n = true) as Hhn
    by (intros n ->%list_elem_of_singleton; reflexivity).
  assert (∀ u v, (u, v) ∈ [(1, 0)] → graph.has_edge single_edge u v = true) as Hhe
    by (intros u v [= -> ->]%list_elem_of_singleton; reflexivity).
  split_and!; [reflexivity | done | done | done |].
  apply (mark_leaves_input 0 single_edge [1] [(1, 0)] one_edge_state);
    [reflexivity | done | done | done].
Defined.

Lemma mark_idempotent_witness :
  heap one_edge_state !! 0 = Some single_edge ∧ graph.wf single_edge
  ∧ (∀ n, n ∈ [1] → graph.has_node single_edge n = true)
  ∧ (∀ u v, (u, v) ∈ [(1, 0)] → graph.has_edge single_edge u v = true)
  ∧ ∃ G_marked s1 g_marked G_again s2,
      mark_anonymous_routes 0 [1] [(1, 0)] one_edge_state = Ok G_marked s1
      ∧ heap s1 !! G_marked = Some g_marked
      ∧ mark_anonymous_routes G_marked [1] [(1, 0)] s1 = Ok G_again s2
      ∧ heap s2 !! G_again = Some g_marked.
Proof.
  assert (graph.wf single_edge) as Hwf by (apply wfb_wf; by vm_compute).
  assert (∀ n, n ∈ [1] → graph.has_node single_edge n = true) as Hhn
    by (intros n ->%list_elem_of_singleton; reflexivity).
  assert (∀ u v, (u, v) ∈ [(1, 0)] → graph.has_edge single_edge u v = true) as Hhe
    by (intros u v [= -> ->]%list_elem_of_singleton; reflexivity).
  split_and!; [reflexivity | done | done | done |].
  apply (mark_idempotent 0 single_edge [1] [(1, 0)] one_edge_state);
    [reflexivity | done | done | done].
Defined.



Lemma draw_without_hidden_witness :
  heap one_edge_state !! 0 = Some single_edge ∧ graph.wf single_edge
  ∧ (@None (list nat) = None ∨ @None (list nat) = Some [])
  ∧ (Some [] = @None (list graph.edge) ∨ Some [] = @Some (list graph.edge) [])
  ∧ draw_topology 0 "Original Topology" None (Some []) one_edge_state
    = Ok {| plot_title := "Original Topology";
            node_color := replicate (graph.number_of_nodes single_edge) "lightblue";
            edge_color := replicate (graph.number_of_edges single_edge) "gray" |}
         one_edge_state.
Proof.
  assert (graph.wf single_edge) as Hwf by (apply wfb_wf; by vm_compute).
  split_and!; [reflexivity | done | by left | by right |].
  apply (draw_without_hidden 0 single_edge "Original Topology" None (Some [])
           one_edge_state); [reflexivity | done | by left | by right].
Defined.



